(** * The ambient audio manager of shared-env.js

    A shallow embedding of the [AudioManager] object of [src/shared-env.js]
    together with the part of the browser it talks to: the [Audio] elements
    it allocates, the table of active timers behind [setTimeout],
    [setInterval] and [clearTimeout], and [Math.random].

    Modelling choices.
    - JavaScript numbers are exact rationals ([Q]): volumes, delays and
      durations are finite numbers and rounding is abstracted away.  The
      module [Binary64] restates the numeric expressions of the source on
      IEEE-754 doubles, and [Binary64Facts] evaluates them at the inputs the
      specification names.
    - Objects live in a heap (a list indexed by address), so that a closure
      that captured an [Audio] element keeps writing to that element even
      after [init] replaced the field of the manager.
    - Closures are defunctionalised: [Handler] lists the four functions the
      source hands to [setTimeout]/[setInterval], [Cb] the completion
      callbacks it hands to [fadeAudio] (plus an opaque one for a caller).
    - Time is abstracted to the order of events: an armed timer may fire at
      any moment, and an 'ended' event may be dispatched at any element
      that does not loop at any moment.  The browser queues that event when
      playback reaches the end; a pause() or a stop() that comes before it
      is dispatched does not take it back, so the model does not ask the
      element to be playing.  "Advancing the clock" is a list of such
      events. *)

From Stdlib Require Import QArith Qabs Lia Lqa Floats.
From stdpp Require Import base option list gmap strings.

Local Open Scope nat_scope.

(** ** Data *)

(** The listener installed on the bird element:
    [() => this.scheduleNextBird()]. *)
Inductive Listener : Type :=
| LScheduleNextBird.

(** The state of an [Audio] element that the manager reads or writes. *)
Record Audio : Type := mkAudio {
  src         : string;
  loop        : bool;
  volume      : Q;
  currentTime : Q;
  paused      : bool;
  onended     : list Listener
}.

(** Completion callbacks given to [fadeAudio]. *)
Inductive Cb : Type :=
| KHold (targetVol duration fadeOutTime : Q)
    (* the arrow function of lines 139-147: arm the hold timer *)
| KRearm
    (* the arrow function of lines 141-144: pause waves2, scheduleWaves2 *)
| KHost (tag : nat).
    (* a function of the caller; calling it is recorded, nothing else *)

(** Functions given to [setTimeout] and [setInterval].  The interval of
    [fadeAudio] carries the variables its closure captured; [step] is the
    one it mutates. *)
Inductive Handler : Type :=
| HBird
| HWaves2
| HHold (targetVol fadeOutTime : Q)
| HFade (audio : option nat) (startVol volStep : Q) (step : nat)
        (cb : option Cb).

Record Timer : Type := mkTimer {
  repeating : bool;      (* armed by setInterval *)
  delay     : Q;
  handler   : Handler
}.

(** What the manager does to the outside, newest first in the log. *)
Inductive Effect : Type :=
| EPlay (a : nat)
| EPause (a : nat)
| ESeek (a : nat)
| EVolume (a : nat) (v : Q)
| EFire (id : nat)          (* the callback of timer [id] ran *)
| EComplete (id : nat)      (* the fade of interval [id] called its cb *)
| EHost (tag : nat)         (* a caller's callback ran *)
| EEnded (a : nat).         (* an 'ended' event was delivered *)

Record World : Type := mkWorld {
  (* the fields of AudioManager *)
  waves    : option nat;
  birds    : option nat;
  waves2   : option nat;
  timers   : list nat;
  (* the browser *)
  heap     : list Audio;
  active   : gmap nat Timer;     (* map of active timers *)
  next_id  : nat;                (* next timer handle *)
  entropy  : list Q;             (* coming results of Math.random() *)
  autoplay : bool;               (* may play() start playback? *)
  log      : list Effect
}.

(** ** Field updates *)

Definition set_waves (r : option nat) (w : World) : World :=
  mkWorld r (birds w) (waves2 w) (timers w) (heap w) (active w) (next_id w)
          (entropy w) (autoplay w) (log w).
Definition set_birds (r : option nat) (w : World) : World :=
  mkWorld (waves w) r (waves2 w) (timers w) (heap w) (active w) (next_id w)
          (entropy w) (autoplay w) (log w).
Definition set_waves2 (r : option nat) (w : World) : World :=
  mkWorld (waves w) (birds w) r (timers w) (heap w) (active w) (next_id w)
          (entropy w) (autoplay w) (log w).
Definition set_timers (l : list nat) (w : World) : World :=
  mkWorld (waves w) (birds w) (waves2 w) l (heap w) (active w) (next_id w)
          (entropy w) (autoplay w) (log w).
Definition set_heap (h : list Audio) (w : World) : World :=
  mkWorld (waves w) (birds w) (waves2 w) (timers w) h (active w) (next_id w)
          (entropy w) (autoplay w) (log w).
Definition set_active (m : gmap nat Timer) (w : World) : World :=
  mkWorld (waves w) (birds w) (waves2 w) (timers w) (heap w) m (next_id w)
          (entropy w) (autoplay w) (log w).
Definition set_next_id (n : nat) (w : World) : World :=
  mkWorld (waves w) (birds w) (waves2 w) (timers w) (heap w) (active w) n
          (entropy w) (autoplay w) (log w).
Definition set_entropy (l : list Q) (w : World) : World :=
  mkWorld (waves w) (birds w) (waves2 w) (timers w) (heap w) (active w)
          (next_id w) l (autoplay w) (log w).
Definition emit (e : Effect) (w : World) : World :=
  mkWorld (waves w) (birds w) (waves2 w) (timers w) (heap w) (active w)
          (next_id w) (entropy w) (autoplay w) (e :: log w).

(** ** The browser *)

(** [Math.random()]: the next value of the tape (0 once it is used up). *)
Definition Math_random (w : World) : Q * World :=
  (hd 0%Q (entropy w), set_entropy (tl (entropy w)) w).

Definition Math_max (a b : Q) : Q := if Qle_bool a b then b else a.
Definition Math_min (a b : Q) : Q := if Qle_bool a b then a else b.

(** [new Audio(url)]: a paused element at full volume, at a new address. *)
Definition new_Audio (url : string) (w : World) : nat * World :=
  (length (heap w),
   set_heap (heap w ++ [mkAudio url false 1%Q 0%Q true []]) w).

Definition upd (a : nat) (f : Audio -> Audio) (w : World) : World :=
  set_heap (alter f a (heap w)) w.

Definition with_loop (b : bool) (au : Audio) : Audio :=
  mkAudio (src au) b (volume au) (currentTime au) (paused au) (onended au).
Definition with_volume (v : Q) (au : Audio) : Audio :=
  mkAudio (src au) (loop au) v (currentTime au) (paused au) (onended au).
Definition with_currentTime (t : Q) (au : Audio) : Audio :=
  mkAudio (src au) (loop au) (volume au) t (paused au) (onended au).
Definition with_paused (b : bool) (au : Audio) : Audio :=
  mkAudio (src au) (loop au) (volume au) (currentTime au) b (onended au).
Definition with_listener (l : Listener) (au : Audio) : Audio :=
  mkAudio (src au) (loop au) (volume au) (currentTime au) (paused au)
          (onended au ++ [l]).

(** [a.loop = b], [a.volume = v], [a.currentTime = 0],
    [a.addEventListener('ended', l)]. *)
Definition set_loop (a : nat) (b : bool) (w : World) : World :=
  upd a (with_loop b) w.
Definition set_volume (a : nat) (v : Q) (w : World) : World :=
  emit (EVolume a v) (upd a (with_volume v) w).
Definition seek0 (a : nat) (w : World) : World :=
  emit (ESeek a) (upd a (with_currentTime 0%Q) w).
Definition addEventListener_ended (a : nat) (l : Listener) (w : World)
  : World :=
  upd a (with_listener l) w.

(** [a.play().catch(() => {})]: playback starts unless the platform refuses
    it; the rejection is swallowed. *)
Definition play (a : nat) (w : World) : World :=
  emit (EPlay a) (if autoplay w then upd a (with_paused false) w else w).

(** [a.pause()]. *)
Definition pause (a : nat) (w : World) : World :=
  emit (EPause a) (upd a (with_paused true) w).

(** [setTimeout(h, d)] and [setInterval(h, d)] return a new handle. *)
Definition setTimeout (h : Handler) (d : Q) (w : World) : nat * World :=
  (next_id w,
   set_next_id (S (next_id w))
     (set_active (<[next_id w := mkTimer false d h]> (active w)) w)).
Definition setInterval (h : Handler) (d : Q) (w : World) : nat * World :=
  (next_id w,
   set_next_id (S (next_id w))
     (set_active (<[next_id w := mkTimer true d h]> (active w)) w)).

(** [clearTimeout(id)] and [clearInterval(id)] share one table of handles. *)
Definition clearTimeout (id : nat) (w : World) : World :=
  set_active (delete id (active w)) w.
Definition clearInterval (id : nat) (w : World) : World :=
  set_active (delete id (active w)) w.

(** ** AudioManager *)

(** [this.timers.push(t)]. *)
Definition timers_push (t : nat) (w : World) : World :=
  set_timers (timers w ++ [t]) w.

Definition steps : nat := 60.
Arguments steps : simpl never.

Definition init (w : World) : World :=
  let '(a, w) := new_Audio "waves.mp3" w in
  let w := set_waves (Some a) w in
  let '(b, w) := new_Audio "birds.mp3" w in
  let w := set_birds (Some b) w in
  let '(c, w) := new_Audio "waves2.mp3" w in
  let w := set_waves2 (Some c) w in
  let w := set_loop a true w in
  let w := set_volume a 0.4%Q w in
  let w := set_volume b 0.6%Q w in
  let w := addEventListener_ended b LScheduleNextBird w in
  let w := set_volume c 0%Q w in
  set_loop c true w.

Definition scheduleNextBird (w : World) : World :=
  let '(r, w) := Math_random w in
  let '(t, w) := setTimeout HBird (r * 17000 + 8000)%Q w in
  timers_push t w.

Definition scheduleWaves2 (w : World) : World :=
  let '(r, w) := Math_random w in
  let '(t, w) := setTimeout HWaves2 (r * 20000 + 10000)%Q w in
  timers_push t w.

Definition fadeAudio (audio : option nat) (startVol endVol duration : Q)
    (cb : option Cb) (w : World) : World :=
  let stepTime := (duration / inject_Z (Z.of_nat steps))%Q in
  let volStep := ((endVol - startVol) / inject_Z (Z.of_nat steps))%Q in
  let '(iv, w) := setInterval (HFade audio startVol volStep 0 cb) stepTime w in
  timers_push iv w.

Definition playWaves2Swell (w : World) : World :=
  match waves2 w with
  | None => w
  | Some a =>
      let w := seek0 a w in
      let w := play a w in
      let '(r1, w) := Math_random w in
      let targetVol := (r1 * 0.5 + 0.3)%Q in
      let '(r2, w) := Math_random w in
      let duration := (r2 * 10000 + 8000)%Q in
      let '(r3, w) := Math_random w in
      let fadeInTime := (r3 * 3000 + 2000)%Q in
      let '(r4, w) := Math_random w in
      let fadeOutTime := (r4 * 3000 + 2000)%Q in
      fadeAudio (waves2 w) 0%Q targetVol fadeInTime
                (Some (KHold targetVol duration fadeOutTime)) w
  end.

Definition start (w : World) : World :=
  let w := match waves w with None => init w | Some _ => w end in
  match waves w with
  | None => w                       (* unreachable: init sets the field *)
  | Some a =>
      let w := play a w in
      let w := scheduleNextBird w in
      scheduleWaves2 w
  end.

Definition pause_if (r : option nat) (w : World) : World :=
  match r with Some a => pause a w | None => w end.

Definition stop (w : World) : World :=
  let w := pause_if (waves w) w in
  let w := pause_if (birds w) w in
  let w := pause_if (waves2 w) w in
  let w := fold_left (fun w t => clearTimeout t w) (timers w) w in
  set_timers [] w.

(** Calling a completion callback; [iv] is the interval that calls it. *)
Definition run_cb (iv : nat) (k : Cb) (w : World) : World :=
  let w := emit (EComplete iv) w in
  match k with
  | KHold targetVol duration fadeOutTime =>
      let '(hold, w) := setTimeout (HHold targetVol fadeOutTime) duration w in
      timers_push hold w
  | KRearm =>
      match waves2 w with
      | None => w                   (* TypeError: the callback is abandoned *)
      | Some a => scheduleWaves2 (pause a w)
      end
  | KHost tag => emit (EHost tag) w
  end.

(** The body of the function given to the timer [id]. *)
Definition run_handler (id : nat) (t : Timer) (w : World) : World :=
  match handler t with
  | HBird =>
      match birds w with
      | Some b => play b (seek0 b w)
      | None => w
      end
  | HWaves2 => playWaves2Swell w
  | HHold targetVol fadeOutTime =>
      fadeAudio (waves2 w) targetVol 0%Q fadeOutTime (Some KRearm) w
  | HFade audio startVol volStep step cb =>
      let step := S step in
      let w := set_active
                 (alter (fun _ => mkTimer (repeating t) (delay t)
                                    (HFade audio startVol volStep step cb))
                        id (active w)) w in
      match audio with
      | None => w                   (* TypeError: the tick is abandoned *)
      | Some a =>
          let v := Math_max 0 (Math_min 1
                     (startVol + volStep * inject_Z (Z.of_nat step))%Q) in
          let w := set_volume a v w in
          if steps <=? step then
            let w := clearInterval id w in
            match cb with Some k => run_cb id k w | None => w end
          else w
      end
  end.

Definition run_listener (l : Listener) (w : World) : World :=
  match l with
  | LScheduleNextBird => scheduleNextBird w
  end.

(** ** Events *)

Inductive Event : Type :=
| Init
| Start
| Stop
| FadeAudio (audio : option nat) (startVol endVol duration : Q)
            (cb : option Cb)
| Fire (id : nat)          (* the timer [id] fires, if it is active *)
| Ended (a : nat).         (* 'ended' is dispatched at the element [a] *)

Definition fire (id : nat) (w : World) : World :=
  match active w !! id with
  | None => w
  | Some t =>
      let w := emit (EFire id) w in
      let w := if repeating t then w else set_active (delete id (active w)) w in
      run_handler id t w
  end.

(** The event 'ended' is dispatched at the element [a]: an element that
    loops never ends; any other element is left paused, as the browser
    leaves an element that has ended, and its listeners run, in the order
    they were added.  There is no test on the state of the element: the
    listener of line 98 has none, and an event queued before a pause() is
    still dispatched after it. *)
Definition ended (a : nat) (w : World) : World :=
  match heap w !! a with
  | None => w
  | Some au =>
      if loop au then w
      else
        let w := emit (EEnded a) (upd a (with_paused true) w) in
        fold_left (fun w l => run_listener l w) (onended au) w
  end.

Definition step (e : Event) (w : World) : World :=
  match e with
  | Init => init w
  | Start => start w
  | Stop => stop w
  | FadeAudio audio startVol endVol duration cb =>
      fadeAudio audio startVol endVol duration cb w
  | Fire id => fire id w
  | Ended a => ended a w
  end.

Definition run (tr : list Event) (w : World) : World :=
  fold_left (fun w e => step e w) tr w.

(** The page as loaded: the object literal, then [AudioManager.init()]. *)
Definition literal (tape : list Q) (ap : bool) : World :=
  mkWorld None None None [] [] ∅ 1 tape ap [].

Definition boot (tape : list Q) (ap : bool) : World := init (literal tape ap).

(** ** Reading the log *)

Definition is_complete (iv : nat) (e : Effect) : bool :=
  match e with EComplete j => Nat.eqb j iv | _ => false end.
Definition is_fire (iv : nat) (e : Effect) : bool :=
  match e with EFire j => Nat.eqb j iv | _ => false end.
Definition is_host (tag : nat) (e : Effect) : bool :=
  match e with EHost j => Nat.eqb j tag | _ => false end.
Definition is_play (e : Effect) : bool :=
  match e with EPlay _ => true | _ => false end.

Definition count (p : Effect -> bool) (l : list Effect) : nat :=
  length (List.filter p l).

(** How often the fade of interval [iv] called its completion callback, and
    how often its tick ran. *)
Definition completions (iv : nat) (w : World) : nat :=
  count (is_complete iv) (log w).
Definition ticks_run (iv : nat) (w : World) : nat :=
  count (is_fire iv) (log w).

(** The values written to the volume of element [a], newest first. *)
Fixpoint volume_writes (a : nat) (l : list Effect) : list Q :=
  match l with
  | [] => []
  | EVolume b v :: l =>
      if Nat.eqb b a then v :: volume_writes a l else volume_writes a l
  | _ :: l => volume_writes a l
  end.

(** An effect is in range when it is not a volume write or writes a value
    of the closed unit interval. *)
Definition in_range (e : Effect) : Prop :=
  match e with
  | EVolume _ v => (0 <= v /\ v <= 1)%Q
  | _ => True
  end.

(** ** Reading a trace *)

Definition is_env (e : Event) : bool :=
  match e with Fire _ | Ended _ => true | _ => false end.
Definition is_init (e : Event) : bool :=
  match e with Init => true | _ => false end.
Definition is_stop (e : Event) : bool :=
  match e with Stop => true | _ => false end.

(** The number of times the timer [iv] is asked to fire before the first
    [Stop] of the trace. *)
Fixpoint ticks_before_stop (iv : nat) (tr : list Event) : nat :=
  match tr with
  | [] => 0
  | Stop :: _ => 0
  | Fire j :: tr =>
      (if Nat.eqb j iv then 1 else 0) + ticks_before_stop iv tr
  | _ :: tr => ticks_before_stop iv tr
  end.

(** Armed timers whose handler satisfies [p]. *)
Definition armed (p : Handler -> bool) (w : World) : nat :=
  length (List.filter (fun kv => p (handler (snd kv)))
                      (map_to_list (active w))).
Definition is_bird (h : Handler) : bool :=
  match h with HBird => true | _ => false end.
Definition is_waves2 (h : Handler) : bool :=
  match h with HWaves2 => true | _ => false end.

(** * Definitions for the proofs *)

(** An effect an operation may log while the timer [J] (if any) runs: a
    callback of [J] itself, a volume write in range, or anything that is
    not the callback of a timer. *)
Definition benign (J : option nat) (e : Effect) : Prop :=
  match e with
  | EComplete id | EFire id => J = Some id
  | EVolume _ v => (0 <= v /\ v <= 1)%Q
  | _ => True
  end.

(** [frame J w w'] relates a world to a later one: handles only grow, no
    cancelled timer comes back, timers other than [J] are kept as they
    are, new timers are registered in [this.timers], and the log only
    grows, by benign effects. *)
Record frame (J : option nat) (w w' : World) : Prop := mkFrame {
  fr_next : next_id w <= next_id w';
  fr_timers : forall id, id ∈ timers w -> id ∈ timers w';
  fr_back : forall id t, active w' !! id = Some t ->
      (exists t0, active w !! id = Some t0 /\ (t = t0 \/ J = Some id)) \/
      (next_id w <= id < next_id w' /\ id ∈ timers w');
  fr_keep : forall id t, J <> Some id -> id < next_id w ->
      active w !! id = Some t -> active w' !! id = Some t;
  fr_log : exists l, log w' = l ++ log w /\ Forall (benign J) l
}.

(** An effect that names no timer handle beyond those given out. *)
Definition known (n : nat) (e : Effect) : Prop :=
  match e with
  | EComplete id | EFire id => id < n
  | _ => True
  end.

(** Well-formed worlds: every active timer has a handle already given out
    and is registered in [this.timers]; the log only names handles already
    given out. *)
Definition wf (w : World) : Prop :=
  (forall id t, active w !! id = Some t ->
                id < next_id w /\ id ∈ timers w) /\
  Forall (known (next_id w)) (log w).

(** Arming a timer and registering its handle: the pattern
    [const t = setTimeout(...); this.timers.push(t)] of the source. *)
Definition arm (rep : bool) (h : Handler) (d : Q) (w : World) : World :=
  timers_push (next_id w)
    (set_next_id (S (next_id w))
       (set_active (<[next_id w := mkTimer rep d h]> (active w)) w)).

(** The timer an event runs, if any. *)
Definition touch (e : Event) : option nat :=
  match e with Fire id => Some id | _ => None end.

(** The entry of the fade interval after [k] ticks. *)
Definition fade_timer (d : Q) (a : nat) (s vs : Q) (cb : option Cb)
    (k : nat) : Timer :=
  mkTimer true d (HFade (Some a) s vs k cb).

(** How often a fade that completes calls its callback: [if (cb) cb()]. *)
Definition cb_count (cb : option Cb) : nat :=
  match cb with Some _ => 1 | None => 0 end.

(** What a completion callback does once its call is logged. *)
Definition cb_body (k : Cb) (w : World) : World :=
  match k with
  | KHold targetVol duration fadeOutTime =>
      arm false (HHold targetVol fadeOutTime) duration w
  | KRearm =>
      match waves2 w with
      | None => w
      | Some a => scheduleWaves2 (pause a w)
      end
  | KHost tag => emit (EHost tag) w
  end.

(** The value the tick number [k] writes. *)
Definition fade_volume (s vs : Q) (k : nat) : Q :=
  Math_max 0 (Math_min 1 (s + vs * inject_Z (Z.of_nat k))%Q).

(** The three phases of an envelope: [k] ticks done and still armed, run
    to completion, cancelled by stop() after [k] ticks. *)
Inductive Phase : Type :=
| Live (k : nat)
| Done
| Cancelled (k : nat).

(** The phase of the envelope of interval [iv] after one more event. *)
Definition phase_step (iv : nat) (p : Phase) (e : Event) : Phase :=
  match p, e with
  | Live k, Stop => Cancelled k
  | Live k, Fire j =>
      if Nat.eqb j iv
      then (if steps <=? S k then Done else Live (S k))
      else Live k
  | _, _ => p
  end.

Definition phase_after (iv : nat) (p : Phase) (tr : list Event) : Phase :=
  fold_left (phase_step iv) tr p.

(** The world is in the phase [p] of the envelope of interval [iv]. *)
Definition agrees (iv : nat) (d : Q) (a : nat) (s vs : Q) (cb : option Cb)
    (p : Phase) (w : World) : Prop :=
  wf w /\ iv < next_id w /\
  match p with
  | Live k =>
      k < steps /\ active w !! iv = Some (fade_timer d a s vs cb k) /\
      completions iv w = 0 /\ ticks_run iv w = k
  | Done =>
      active w !! iv = None /\ completions iv w = cb_count cb /\
      ticks_run iv w = steps
  | Cancelled k =>
      k < steps /\ active w !! iv = None /\
      completions iv w = 0 /\ ticks_run iv w = k
  end.

(** The element [a] is one of the three channels of the manager. *)
Definition is_channel (a : nat) (w : World) : Prop :=
  waves w = Some a \/ birds w = Some a \/ waves2 w = Some a.

(** A call of play() on the element [a]. *)
Definition is_play_of (a : nat) (e : Effect) : bool :=
  match e with EPlay b => Nat.eqb b a | _ => false end.

(** Every armed timer is a one-shot bird timer. *)
Definition birds_only (w : World) : Prop :=
  forall id t, active w !! id = Some t ->
               handler t = HBird /\ repeating t = false.

(** The effects of a bird chain that an 'ended' event brings back: the
    delivery of the event, the callback of a timer, and a seek or a play()
    of the bird channel [b]. *)
Definition bird_replay (b : option nat) (e : Effect) : Prop :=
  match e with
  | EEnded _ | EFire _ => True
  | ESeek a | EPlay a => b = Some a
  | _ => False
  end.

(** [calm w w'] relates a world to a later one in which the channels are
    the same elements, the playback policy is the same, nothing plays that
    is neither a channel nor was playing before, and every element is
    still there with its loop flag and its listeners. *)
Record calm (w w' : World) : Prop := mkCalm {
  cm_waves : waves w' = waves w;
  cm_birds : birds w' = birds w;
  cm_waves2 : waves2 w' = waves2 w;
  cm_autoplay : autoplay w' = autoplay w;
  cm_playing : forall a au', heap w' !! a = Some au' -> paused au' = false ->
      is_channel a w \/ exists au, heap w !! a = Some au /\ paused au = false;
  cm_static : forall a au, heap w !! a = Some au ->
      exists au', heap w' !! a = Some au' /\
                  loop au' = loop au /\ onended au' = onended au
}.

(** The element a field of the manager points to. *)
Definition deref (r : option nat) (w : World) : option Audio :=
  match r with Some a => heap w !! a | None => None end.

(** The session as the manager and the browser see it: the three channels
    by value, the registered handles, the armed timers, the next handle,
    the random tape and the playback policy. *)
Definition session_view (w : World) :
    option Audio * option Audio * option Audio * list nat * gmap nat Timer
    * nat * list Q * bool :=
  (deref (waves w) w, deref (birds w) w, deref (waves2 w) w,
   timers w, active w, next_id w, entropy w, autoplay w).

(** The three elements init() creates. *)
Definition fresh_channels : list Audio :=
  [ mkAudio "waves.mp3" true 0.4%Q 0%Q true [];
    mkAudio "birds.mp3" false 0.6%Q 0%Q true [LScheduleNextBird];
    mkAudio "waves2.mp3" true 0%Q 0%Q true [] ].

(** * Definitions for further properties of the manager *)



(** The element [j] is one of the three channels (as a test). *)
Definition is_channelb (j : nat) (w : World) : bool :=
  bool_decide (waves w = Some j) || bool_decide (birds w = Some j)
  || bool_decide (waves2 w = Some j).

(** The world with its log of effects forgotten. *)
Definition without_log (w : World) : World :=
  mkWorld (waves w) (birds w) (waves2 w) (timers w) (heap w) (active w)
          (next_id w) (entropy w) (autoplay w) [].

Definition is_pause (e : Effect) : bool :=
  match e with EPause _ => true | _ => false end.

(** Every armed timer counts. *)
Definition is_any (h : Handler) : bool := true.

(** The three channels exist, the waves loops loop without listeners, and
    the bird element does not loop and carries the one listener of init(). *)
Definition wired (w : World) : Prop :=
  exists a b c au bu cu,
    waves w = Some a /\ birds w = Some b /\ waves2 w = Some c /\
    heap w !! a = Some au /\ heap w !! b = Some bu /\ heap w !! c = Some cu /\
    (loop au = true /\ onended au = []) /\
    (loop bu = false /\ onended bu = [LScheduleNextBird]) /\
    (loop cu = true /\ onended cu = []).

(** A result of Math.random(). *)
Definition unit_sample (r : Q) : Prop := (0 <= r /\ r < 1)%Q.

(** The parameters a swell samples, as its hold callback carries them. *)
Definition ok_cb (k : Cb) : Prop :=
  match k with
  | KHold tv du fo =>
      (0.3 <= tv /\ tv < 0.8)%Q /\ (8000 <= du /\ du < 18000)%Q /\
      (2000 <= fo /\ fo < 5000)%Q
  | KRearm | KHost _ => True
  end.

(** A timer as the manager itself arms it: one-shot or interval according
    to its kind, with its delay and parameters in the sampled ranges. *)
Definition ok_timer (t : Timer) : Prop :=
  match handler t with
  | HBird => repeating t = false /\ (8000 <= delay t /\ delay t < 25000)%Q
  | HWaves2 => repeating t = false /\ (10000 <= delay t /\ delay t < 30000)%Q
  | HHold tv fo =>
      repeating t = false /\ (8000 <= delay t /\ delay t < 18000)%Q /\
      (0.3 <= tv /\ tv < 0.8)%Q /\ (2000 <= fo /\ fo < 5000)%Q
  | HFade audio s vs k cb =>
      repeating t = true /\ is_Some audio /\ k < steps /\
      (2000 <= delay t * 60 /\ delay t * 60 < 5000)%Q /\
      (0 <= s /\ s < 0.8)%Q /\ (0 <= s + vs * 60 /\ s + vs * 60 < 0.8)%Q /\
      match cb with Some c => ok_cb c | None => True end
  end.

(** A volume write below 0.8. *)
Definition below (e : Effect) : Prop :=
  match e with
  | EVolume _ v => (0 <= v /\ v < 0.8)%Q
  | _ => True
  end.

(** The world as the manager alone makes it. *)
Definition designed (w : World) : Prop :=
  is_Some (waves2 w) /\
  Forall unit_sample (entropy w) /\
  (forall id t, active w !! id = Some t -> ok_timer t) /\
  Forall below (log w).

(** A direct call of fadeAudio by the host. *)
Definition is_host_fade (e : Event) : bool :=
  match e with FadeAudio _ _ _ _ _ => true | _ => false end.

(** * The controller of the module pages

    The component [vr-controller-module] of [src/shared-env.js] (lines
    173-273).  Each controller entity has its own instance of the
    component ([Comp]: its [hand], its [sceneryMode], the elements its
    raycaster intersects); the instances share the page ([Page]: the
    elements by id, [window.isLeftGripHeld], and what has been emitted).
    Positions are triples of rationals; [THREE.Vector3.normalize], which
    takes a square root, is a parameter of [recenterUI]. *)
Module Controller.

Record Vec3 : Type := mkVec3 { vx : Q; vy : Q; vz : Q }.

Definition vadd (u v : Vec3) : Vec3 :=
  mkVec3 (vx u + vx v) (vy u + vy v) (vz u + vz v).
Definition vscale (v : Vec3) (k : Q) : Vec3 :=
  mkVec3 (vx v * k) (vy v * k) (vz v * k).

(** An element of the page, as the controller reads and writes it. *)
Record Element : Type := mkElement {
  visible        : bool;          (* the attribute 'visible' *)
  position       : Vec3;          (* object3D.position *)
  lookingAt      : option Vec3;   (* the last argument of object3D.lookAt *)
  rotation_y     : Q;             (* object3D.rotation.y *)
  worldPosition  : Vec3;          (* what object3D.getWorldPosition gives *)
  worldDirection : Vec3           (* what object3D.getWorldDirection gives *)
}.

(** An element the raycaster intersects. *)
Record Hit : Type := mkHit {
  hit_id    : nat;
  classList : list string
}.

Inductive Emitted : Type :=
| Haptic (intensity duration : Q)   (* this.el.emit('hapticpulse', ...) *)
| Click (target : nat).             (* hits[i].emit('click') *)

Record Comp : Type := mkComp {
  hand        : string;
  sceneryMode : bool;
  raycaster   : option (list Hit)   (* this.el.components.raycaster *)
}.

Record Page : Type := mkPage {
  dom            : gmap string Element;
  isLeftGripHeld : bool;
  emitted        : list Emitted     (* newest first *)
}.

Definition with_visible (b : bool) (el : Element) : Element :=
  mkElement b (position el) (lookingAt el) (rotation_y el)
            (worldPosition el) (worldDirection el).
Definition with_rotation_y (r : Q) (el : Element) : Element :=
  mkElement (visible el) (position el) (lookingAt el) r
            (worldPosition el) (worldDirection el).
(** [el.object3D.position.copy(target); el.object3D.lookAt(camPos)]. *)
Definition place (target camPos : Vec3) (el : Element) : Element :=
  mkElement (visible el) target (Some camPos) (rotation_y el)
            (worldPosition el) (worldDirection el).

Definition set_dom (d : gmap string Element) (p : Page) : Page :=
  mkPage d (isLeftGripHeld p) (emitted p).
Definition set_grip (b : bool) (p : Page) : Page :=
  mkPage (dom p) b (emitted p).
Definition emit (e : Emitted) (p : Page) : Page :=
  mkPage (dom p) (isLeftGripHeld p) (e :: emitted p).
Definition set_sceneryMode (b : bool) (c : Comp) : Comp :=
  mkComp (hand c) b (raycaster c).

(** [ids.forEach(id => { const el = document.getElementById(id);
    if (el) f(el) })]. *)
Definition forEach_id (ids : list string) (f : Element -> Element)
    (d : gmap string Element) : gmap string Element :=
  fold_left (fun d id => alter f id d) ids d.

Definition scenery_ids : list string :=
  ["exercise-container"; "nav-back-btn"; "toggle-panel-btn"; "control-panel";
   "help-card"; "modules-card"].

Definition panel_ids : list string :=
  ["toggle-panel-btn"; "control-panel"; "help-card"; "modules-card"].

Definition toggleScenery (c : Comp) (p : Page) : Comp * Page :=
  let c := set_sceneryMode (negb (sceneryMode c)) c in
  let d := forEach_id scenery_ids (with_visible (negb (sceneryMode c))) (dom p) in
  (c, emit (Haptic (if sceneryMode c then 0.8 else 0.3)%Q
                   (if sceneryMode c then 300 else 100)%Q)
        (set_dom d p)).

Definition onButtonDown (evt_type : string) (c : Comp) (p : Page)
  : Comp * Page :=
  if String.eqb evt_type "xbuttondown" then toggleScenery c p else (c, p).

(** The loop of onTriggerDown: the first intersected element of class
    'interactive' is clicked, then the loop is left. *)
Fixpoint click_first (hits : list Hit) (p : Page) : Page :=
  match hits with
  | [] => p
  | h :: rest =>
      if existsb (String.eqb "interactive") (classList h)
      then emit (Haptic 0.5 50) (emit (Click (hit_id h)) p)
      else click_first rest p
  end.

(** The element has the class 'interactive'. *)
Definition interactive (h : Hit) : Prop :=
  In "interactive"%string (classList h).

Definition onTriggerDown (c : Comp) (p : Page) : Comp * Page :=
  if sceneryMode c then (c, p)
  else match raycaster c with
       | None => (c, p)
       | Some hits => (c, click_first hits p)
       end.

Definition onGripUp (c : Comp) (p : Page) : Comp * Page :=
  if String.eqb (hand c) "left" then (c, set_grip false p) else (c, p).

Definition onAxisMove (axis : option (list Q)) (c : Comp) (p : Page)
  : Comp * Page :=
  if String.eqb (hand c) "left" then
    match axis with
    | None => (c, p)
    | Some ax =>
        if length ax <? 2 then (c, p)
        else
          let x := match ax !! 2 with
                   | Some v => v
                   | None => nth 0 ax 0%Q
                   end in
          if negb (Qle_bool (Qabs x) 0.1)
          then (c, set_dom
                     (alter (fun rig =>
                               with_rotation_y (rotation_y rig - x * 0.03)%Q rig)
                            "rig" (dom p)) p)
          else (c, p)
    end
  else (c, p).

Section Recenter.

Variable normalize : Vec3 -> Vec3.

Definition recenterUI (c : Comp) (p : Page) : Comp * Page :=
  if sceneryMode c then (c, p)
  else match dom p !! "camera" with
       | None => (c, p)
       | Some camera =>
           let camPos := worldPosition camera in
           let camDir := worldDirection camera in
           let camDir := normalize (mkVec3 (vx camDir) 0 (vz camDir)) in
           let target := vadd camPos (vscale camDir 0.6) in
           let target := mkVec3 (vx target) (vy camPos) (vz target) in
           let d := forEach_id panel_ids (place target camPos) (dom p) in
           let d :=
             match d !! "toggle-panel-btn", d !! "control-panel",
                   d !! "help-card", d !! "modules-card" with
             | Some tp, Some cp, Some hc, Some mc =>
                 if negb (visible cp) && negb (visible hc) && negb (visible mc)
                 then alter (with_visible true) "toggle-panel-btn" d
                 else d
             | _, _, _, _ => d
             end in
           (c, emit (Haptic 0.8 150) (set_dom d p))
       end.

Definition onGripDown (c : Comp) (p : Page) : Comp * Page :=
  let p := if String.eqb (hand c) "left"
           then emit (Haptic 0.5 100) (set_grip true p)
           else p in
  if String.eqb (hand c) "right" then recenterUI c p else (c, p).

(** The events init() listens to, and the handler it binds to each. *)
Inductive Input : Type :=
| triggerdown | gripdown | gripup
| abuttondown | bbuttondown | xbuttondown | ybuttondown
| axismove (axis : option (list Q)).

Definition dispatch (i : Input) (c : Comp) (p : Page) : Comp * Page :=
  match i with
  | triggerdown => onTriggerDown c p
  | gripdown => onGripDown c p
  | gripup => onGripUp c p
  | abuttondown => onButtonDown "abuttondown" c p
  | bbuttondown => onButtonDown "bbuttondown" c p
  | xbuttondown => onButtonDown "xbuttondown" c p
  | ybuttondown => onButtonDown "ybuttondown" c p
  | axismove axis => onAxisMove axis c p
  end.

End Recenter.

(** The point recenterUI moves the panels to: 0.6 in front of the camera
    in the horizontal plane, at the height of the camera. *)
Definition recenter_target (normalize : Vec3 -> Vec3) (camera : Element)
  : Vec3 :=
  let camPos := worldPosition camera in
  let camDir := worldDirection camera in
  let camDir := normalize (mkVec3 (vx camDir) 0 (vz camDir)) in
  let target := vadd camPos (vscale camDir 0.6) in
  mkVec3 (vx target) (vy camPos) (vz target).

(** The four panels exist and the three cards are hidden. *)
Definition cards_hidden (d : gmap string Element) : bool :=
  match d !! "toggle-panel-btn", d !! "control-panel",
        d !! "help-card", d !! "modules-card" with
  | Some tp, Some cp, Some hc, Some mc =>
      negb (visible cp) && negb (visible hc) && negb (visible mc)
  | _, _, _, _ => false
  end.

End Controller.

(** * The numeric expressions on IEEE-754 doubles

    The world above takes numbers as exact rationals.  This module states
    the same expressions of the source on binary64 floats, the numbers
    JavaScript has. *)
Module Binary64.

#[local] Set Warnings "-inexact-float".
Local Open Scope float_scope.
Local Open Scope bool_scope.

(** [Math.max] and [Math.min] of two numbers: NaN if either is NaN, and
    +0 above -0. *)
Definition Math_max (a b : float) : float :=
  if is_nan a || is_nan b then nan
  else if (a <? b)%float then b
  else if (b <? a)%float then a
  else if get_sign a then b else a.

Definition Math_min (a b : float) : float :=
  if is_nan a || is_nan b then nan
  else if (a <? b)%float then a
  else if (b <? a)%float then b
  else if get_sign a then a else b.

(** The value the tick number [step] of fadeAudio writes (lines 152-157). *)
Definition fade_volume (startVol endVol step : float) : float :=
  let volStep := (endVol - startVol) / 60 in
  Math_max 0 (Math_min 1 (startVol + volStep * step)).

(** The delay of scheduleNextBird (line 121) for a sample [r]. *)
Definition bird_delay (r : float) : float := r * 17000 + 8000.

(** The delay of scheduleWaves2 (line 126) and the target volume, the hold
    and the fade time of playWaves2Swell (lines 134-137) for a sample [r]. *)
Definition waves2_delay (r : float) : float := r * 20000 + 10000.
Definition swell_target (r : float) : float := r * 0.5 + 0.3.
Definition swell_hold (r : float) : float := r * 10000 + 8000.
Definition swell_fade (r : float) : float := r * 3000 + 2000.

(** The rotation of the rig after onAxisMove has turned it by the
    deflection [x] (line 201). *)
Definition turn (r x : float) : float := r - x * 0.03.

End Binary64.

(** * Proofs *)

(** ** Numbers *)

Lemma Qle_bool_false (a b : Q) : Qle_bool a b = false -> (b < a)%Q.
Proof.
  intros H. apply Qnot_le_lt. intros Hle.
  apply Qle_bool_iff in Hle. congruence.
Qed.

Lemma Math_clamp_range (x : Q) :
  (0 <= Math_max 0 (Math_min 1 x) /\ Math_max 0 (Math_min 1 x) <= 1)%Q.
Proof.
  unfold Math_max, Math_min.
  destruct (Qle_bool 1 x) eqn:E1.
  - change (Qle_bool 0 1) with true. cbv iota. lra.
  - apply Qle_bool_false in E1.
    destruct (Qle_bool 0 x) eqn:E2.
    + apply Qle_bool_iff in E2. lra.
    + lra.
Qed.

(** Inside the unit interval the clamp is the identity. *)
Lemma Math_clamp_id (x : Q) :
  (0 <= x)%Q -> (x <= 1)%Q -> (Math_max 0 (Math_min 1 x) == x)%Q.
Proof.
  intros H0 H1. unfold Math_max, Math_min.
  destruct (Qle_bool 1 x) eqn:E1.
  - apply Qle_bool_iff in E1. change (Qle_bool 0 1) with true. cbv iota. lra.
  - destruct (Qle_bool 0 x) eqn:E2; [reflexivity|].
    apply Qle_bool_false in E2. lra.
Qed.

(** The sampled delay of the bird chain. *)
Lemma bird_delay_range (r : Q) :
  (0 <= r)%Q -> (r < 1)%Q ->
  (8000 <= r * 17000 + 8000)%Q /\ (r * 17000 + 8000 < 25000)%Q.
Proof. intros H0 H1. split; lra. Qed.

(** ** Frames: what an operation may change in the scheduler *)

Lemma frame_refl J w : frame J w w.
Proof.
  split; auto.
  - intros id t H. left. eauto.
  - exists []. split; [reflexivity | constructor].
Qed.

Lemma frame_trans J w1 w2 w3 : frame J w1 w2 -> frame J w2 w3 -> frame J w1 w3.
Proof.
  intros [N1 T1 B1 K1 [l1 [L1 F1]]] [N2 T2 B2 K2 [l2 [L2 F2]]]. split.
  - lia.
  - auto.
  - intros id t H. destruct (B2 id t H) as [[t1 [H1 Ht]] | [Hn Hin]].
    + destruct (B1 id t1 H1) as [[t0 [H0 Ht0]] | [Hn Hin]].
      * left. exists t0. split; [assumption|].
        destruct Ht as [-> | ?]; [assumption | now right].
      * right. split; [lia | auto].
    + right. split; [lia | assumption].
  - intros id t HJ Hlt H. apply K2; [assumption | lia | auto].
  - exists (l2 ++ l1). split.
    + rewrite L2, L1. now rewrite app_assoc.
    + apply Forall_app. split; assumption.
Qed.

(** A change that leaves the scheduler alone and logs harmless effects. *)
Lemma frame_outside J w w' l :
  next_id w' = next_id w -> timers w' = timers w -> active w' = active w ->
  log w' = l ++ log w -> Forall (benign J) l -> frame J w w'.
Proof.
  intros Hn Ht Ha Hl Hf. split.
  - lia.
  - now rewrite Ht.
  - intros id t H. rewrite Ha in H. left. eauto.
  - intros id t _ _ H. now rewrite Ha.
  - eauto.
Qed.

Lemma known_mono n m e : n <= m -> known n e -> known m e.
Proof. destruct e; simpl; auto; lia. Qed.

Lemma wf_frame J w w' :
  (forall id, J = Some id -> id < next_id w) ->
  wf w -> frame J w w' -> wf w'.
Proof.
  intros HJ [Ha Hl] [N T B K [l [L F]]]. split.
  - intros id t H. destruct (B id t H) as [[t0 [H0 _]] | [Hn Hin]].
    + destruct (Ha id t0 H0). split; [lia | auto].
    + split; [lia | assumption].
  - rewrite L. apply Forall_app. split.
    + eapply Forall_impl; [exact F|]. intros [] He; simpl in *; auto;
        specialize (HJ _ He); lia.
    + eapply Forall_impl; [exact Hl|]. intros e. now apply known_mono.
Qed.

Lemma count_app p l1 l2 : count p (l1 ++ l2) = count p l1 + count p l2.
Proof. unfold count. now rewrite List.filter_app, length_app. Qed.

Lemma count_benign_complete J iv l :
  J <> Some iv -> Forall (benign J) l -> count (is_complete iv) l = 0.
Proof.
  intros HJ. induction 1 as [|e l He _ IH]; [reflexivity|].
  unfold count in *. simpl. destruct e; simpl; auto.
  destruct (Nat.eqb_spec id iv); [subst; simpl in He; contradiction | auto].
Qed.

Lemma count_benign_fire J iv l :
  J <> Some iv -> Forall (benign J) l -> count (is_fire iv) l = 0.
Proof.
  intros HJ. induction 1 as [|e l He _ IH]; [reflexivity|].
  unfold count in *. simpl. destruct e; simpl; auto.
  destruct (Nat.eqb_spec id iv); [subst; simpl in He; contradiction | auto].
Qed.

(** A timer that is not the one being run is left as it was, cancelled or
    armed, and nothing is logged in its name. *)
Lemma frame_quiet J w w' iv :
  frame J w w' -> J <> Some iv -> iv < next_id w ->
  active w' !! iv = active w !! iv /\
  completions iv w' = completions iv w /\
  ticks_run iv w' = ticks_run iv w.
Proof.
  intros [N T B K [l [L F]]] HJ Hlt. split; [|split].
  - destruct (active w !! iv) as [t|] eqn:E.
    + now apply K.
    + destruct (active w' !! iv) as [t'|] eqn:E'; [|reflexivity].
      destruct (B iv t' E') as [[t0 [H0 _]] | [Hn _]]; [congruence | lia].
  - unfold completions. rewrite L, count_app.
    now rewrite (count_benign_complete J).
  - unfold ticks_run. rewrite L, count_app.
    now rewrite (count_benign_fire J).
Qed.

Lemma frame_in_range J w w' :
  frame J w w' -> Forall in_range (log w) -> Forall in_range (log w').
Proof.
  intros [_ _ _ _ [l [L F]]] H. rewrite L. apply Forall_app. split; [|exact H].
  eapply Forall_impl; [exact F|]. intros []; simpl; auto.
Qed.

(** ** The frame of every operation *)

Ltac outside l :=
  apply (frame_outside _ _ _ l); [reflexivity .. | ].

Lemma frame_upd J a f w : frame J w (upd a f w).
Proof. outside (@nil Effect). constructor. Qed.

Lemma frame_emit J e w : benign J e -> frame J w (emit e w).
Proof. intros H. outside [e]. repeat constructor. exact H. Qed.

Lemma frame_set_entropy J l w : frame J w (set_entropy l w).
Proof. outside (@nil Effect). constructor. Qed.

Lemma frame_set_loop J a b w : frame J w (set_loop a b w).
Proof. apply frame_upd. Qed.

Lemma frame_set_volume J a v w :
  (0 <= v)%Q -> (v <= 1)%Q -> frame J w (set_volume a v w).
Proof. intros H0 H1. outside [EVolume a v]. repeat constructor; assumption. Qed.

Lemma frame_seek0 J a w : frame J w (seek0 a w).
Proof. outside [ESeek a]. repeat constructor. Qed.

Lemma frame_play J a w : frame J w (play a w).
Proof.
  unfold play. destruct (autoplay w); outside [EPlay a]; repeat constructor.
Qed.

Lemma frame_pause J a w : frame J w (pause a w).
Proof. outside [EPause a]. repeat constructor. Qed.

Lemma frame_pause_if J r w : frame J w (pause_if r w).
Proof. destruct r; [apply frame_pause | apply frame_refl]. Qed.

Lemma frame_arm J rep h d w : frame J w (arm rep h d w).
Proof.
  split; simpl.
  - lia.
  - intros id H. apply elem_of_app. now left.
  - intros id t H. destruct (decide (next_id w = id)) as [<-|Hne].
    + right. split; [lia|]. apply elem_of_app. right. now apply list_elem_of_singleton.
    + rewrite lookup_insert_ne in H by assumption. left. eauto.
  - intros id t _ Hlt H. rewrite lookup_insert_ne by lia. assumption.
  - exists []. split; [reflexivity | constructor].
Qed.

Lemma scheduleNextBird_arm w :
  scheduleNextBird w =
  arm false HBird (hd 0%Q (entropy w) * 17000 + 8000)%Q
      (set_entropy (tl (entropy w)) w).
Proof. reflexivity. Qed.

Lemma scheduleWaves2_arm w :
  scheduleWaves2 w =
  arm false HWaves2 (hd 0%Q (entropy w) * 20000 + 10000)%Q
      (set_entropy (tl (entropy w)) w).
Proof. reflexivity. Qed.

Lemma fadeAudio_arm audio s e d cb w :
  fadeAudio audio s e d cb w =
  arm true (HFade audio s ((e - s) / inject_Z (Z.of_nat steps))%Q 0 cb)
      (d / inject_Z (Z.of_nat steps))%Q w.
Proof. reflexivity. Qed.

Ltac chain tac :=
  repeat first
    [ apply frame_refl
    | eapply frame_trans; [ | solve [tac] ] ].

Ltac atom :=
  first [ apply frame_upd | apply frame_set_entropy | apply frame_set_loop
        | apply frame_seek0 | apply frame_play | apply frame_pause
        | apply frame_pause_if | apply frame_arm
        | apply frame_emit; exact I ].

Lemma frame_scheduleNextBird J w : frame J w (scheduleNextBird w).
Proof. rewrite scheduleNextBird_arm. chain atom. Qed.

Lemma frame_scheduleWaves2 J w : frame J w (scheduleWaves2 w).
Proof. rewrite scheduleWaves2_arm. chain atom. Qed.

Lemma frame_fadeAudio J audio s e d cb w :
  frame J w (fadeAudio audio s e d cb w).
Proof. rewrite fadeAudio_arm. apply frame_arm. Qed.

Lemma frame_init J w : frame J w (init w).
Proof.
  apply (frame_outside _ _ _
           [EVolume (length (heap w) + 2) 0%Q;
            EVolume (length (heap w) + 1) 0.6%Q;
            EVolume (length (heap w)) 0.4%Q]).
  - reflexivity.
  - reflexivity.
  - reflexivity.
  - cbv [init new_Audio]. simpl. rewrite !length_app. simpl.
    now rewrite <- !Nat.add_assoc.
  - repeat constructor; simpl; lra.
Qed.

Ltac atom2 :=
  first [ atom | apply frame_scheduleNextBird | apply frame_scheduleWaves2
        | apply frame_fadeAudio | apply frame_init ].

Lemma frame_playWaves2Swell J w : frame J w (playWaves2Swell w).
Proof.
  unfold playWaves2Swell. destruct (waves2 w) as [a|]; [|apply frame_refl].
  cbv beta iota zeta delta [Math_random]. chain atom2.
Qed.

Lemma frame_start J w : frame J w (start w).
Proof.
  unfold start.
  assert (H : frame J w (match waves w with None => init w | Some _ => w end))
    by (destruct (waves w); [apply frame_refl | apply frame_init]).
  destruct (waves (match waves w with None => init w | Some _ => w end));
    [|exact H].
  eapply frame_trans; [exact H|]. chain atom2.
Qed.

Lemma frame_run_cb iv k w : frame (Some iv) w (run_cb iv k w).
Proof.
  unfold run_cb. destruct k as [tv du fo| |tag].
  - change (frame (Some iv) w
              (arm false (HHold tv fo) du (emit (EComplete iv) w))).
    eapply frame_trans; [|apply frame_arm]. apply frame_emit. exact eq_refl.
  - simpl. destruct (waves2 w) as [a|].
    + eapply frame_trans; [|apply frame_scheduleWaves2].
      eapply frame_trans; [|apply frame_pause].
      apply frame_emit. exact eq_refl.
    + apply frame_emit. exact eq_refl.
  - eapply frame_trans; [|apply frame_emit; exact I].
    apply frame_emit. exact eq_refl.
Qed.

(** Updating or removing the entry of the timer that is being run. *)
Lemma frame_alter_self id f w :
  frame (Some id) w (set_active (alter f id (active w)) w).
Proof.
  split; simpl; auto.
  - intros i t H. left. destruct (decide (id = i)) as [<-|Hne].
    + rewrite lookup_alter_eq in H.
      destruct (active w !! id) as [t0|]; [|discriminate]. eauto.
    + rewrite lookup_alter_ne in H by assumption. eauto.
  - intros i t Hne _ H. rewrite lookup_alter_ne; [assumption | congruence].
  - exists []. split; [reflexivity | constructor].
Qed.

Lemma frame_delete_self id w :
  frame (Some id) w (set_active (delete id (active w)) w).
Proof.
  split; simpl; auto.
  - intros i t H. left. apply lookup_delete_Some in H as [_ H]. eauto.
  - intros i t Hne _ H. rewrite lookup_delete_ne; [assumption | congruence].
  - exists []. split; [reflexivity | constructor].
Qed.

Lemma frame_run_handler id t w : frame (Some id) w (run_handler id t w).
Proof.
  unfold run_handler. destruct (handler t) as [| |tv fo|audio s vs k cb].
  - destruct (birds w); chain atom2.
  - apply frame_playWaves2Swell.
  - apply frame_fadeAudio.
  - destruct audio as [a|]; [|apply frame_alter_self].
    destruct (steps <=? S k).
    + assert (H : frame (Some id) w
        (clearInterval id
           (set_volume a
              (Math_max 0 (Math_min 1 (s + vs * inject_Z (Z.of_nat (S k)))))
              (set_active
                 (alter (fun _ => mkTimer (repeating t) (delay t)
                                    (HFade (Some a) s vs (S k) cb))
                        id (active w)) w)))).
      { eapply frame_trans; [|apply frame_delete_self].
        eapply frame_trans; [|apply frame_set_volume; apply Math_clamp_range].
        apply frame_alter_self. }
      destruct cb as [c|]; [|exact H].
      eapply frame_trans; [exact H | apply frame_run_cb].
    + eapply frame_trans; [|apply frame_set_volume; apply Math_clamp_range].
      apply frame_alter_self.
Qed.

Lemma frame_fire id w : frame (Some id) w (fire id w).
Proof.
  unfold fire. destruct (active w !! id) as [t|]; [|apply frame_refl].
  eapply frame_trans; [|apply frame_run_handler].
  destruct (repeating t).
  - apply frame_emit. exact eq_refl.
  - eapply frame_trans; [|apply frame_delete_self].
    apply frame_emit. exact eq_refl.
Qed.

Lemma frame_listeners J ls w :
  frame J w (fold_left (fun w l => run_listener l w) ls w).
Proof.
  revert w. induction ls as [|l ls IH]; intros w; simpl.
  - apply frame_refl.
  - eapply frame_trans; [|apply IH]. destruct l. apply frame_scheduleNextBird.
Qed.

Lemma frame_ended J a w : frame J w (ended a w).
Proof.
  unfold ended. destruct (heap w !! a) as [au|]; [|apply frame_refl].
  destruct (loop au); [apply frame_refl|].
  eapply frame_trans; [|apply frame_listeners]. chain atom2.
Qed.

Lemma frame_step e w : is_stop e = false -> frame (touch e) w (step e w).
Proof.
  destruct e; simpl; intros H; try discriminate.
  - apply frame_init.
  - apply frame_start.
  - apply frame_fadeAudio.
  - apply frame_fire.
  - apply frame_ended.
Qed.

(** ** stop *)

Lemma clear_fold l w :
  fold_left (fun w t => clearTimeout t w) l w =
  set_active (fold_left (fun m t => delete t m) l (active w)) w.
Proof.
  revert w. induction l as [|t l IH]; intros w; simpl.
  - now destruct w.
  - rewrite IH. reflexivity.
Qed.

Lemma lookup_clear (l : list nat) (m : gmap nat Timer) (id : nat) :
  fold_left (fun m t => delete t m) l m !! id =
  if decide (id ∈ l) then None else m !! id.
Proof.
  revert m. induction l as [|t l IH]; intros m; simpl.
  - destruct (decide (id ∈ [])) as [H|_]; [|reflexivity].
    now apply elem_of_nil in H.
  - rewrite IH. destruct (decide (id ∈ l)) as [Hin|Hnin].
    + rewrite decide_True; [reflexivity | now apply elem_of_cons; right].
    + destruct (decide (t = id)) as [->|Hne].
      * rewrite lookup_delete_eq.
        rewrite decide_True; [reflexivity | now apply elem_of_cons; left].
      * rewrite lookup_delete_ne by assumption.
        rewrite decide_False; [reflexivity|].
        intros [->|H]%elem_of_cons; [congruence | contradiction].
Qed.

Lemma pause_if_fields r w :
  waves (pause_if r w) = waves w /\ birds (pause_if r w) = birds w /\
  waves2 (pause_if r w) = waves2 w /\ timers (pause_if r w) = timers w /\
  active (pause_if r w) = active w /\ next_id (pause_if r w) = next_id w.
Proof. destruct r; repeat split. Qed.

Lemma stop_unfold w :
  stop w =
  set_timers []
    (set_active (fold_left (fun m t => delete t m) (timers w) (active w))
       (pause_if (waves2 w) (pause_if (birds w) (pause_if (waves w) w)))).
Proof.
  unfold stop. rewrite clear_fold.
  set (w1 := pause_if (waves w) w).
  destruct (pause_if_fields (waves w) w) as (_ & Hb & Hc & Ht & Ha & _).
  fold w1 in Hb, Hc, Ht, Ha. rewrite Hb.
  set (w2 := pause_if (birds w) w1).
  destruct (pause_if_fields (birds w) w1) as (_ & _ & Hc' & Ht' & Ha' & _).
  fold w2 in Hc', Ht', Ha'. rewrite Hc', Hc.
  set (w3 := pause_if (waves2 w) w2).
  destruct (pause_if_fields (waves2 w) w2) as (_ & _ & _ & Ht'' & Ha'' & _).
  fold w3 in Ht'', Ha''. now rewrite Ht'', Ha'', Ht', Ha', Ht, Ha.
Qed.

Lemma stop_active w :
  active (stop w) =
  fold_left (fun m t => delete t m) (timers w) (active w).
Proof. now rewrite stop_unfold. Qed.

Lemma stop_next_id w : next_id (stop w) = next_id w.
Proof.
  rewrite stop_unfold. simpl.
  destruct (waves w), (birds w), (waves2 w); reflexivity.
Qed.

Lemma stop_log w :
  exists l, log (stop w) = l ++ log w /\ Forall (benign None) l.
Proof.
  rewrite stop_unfold.
  destruct (waves w) as [a|], (birds w) as [b|], (waves2 w) as [c|]; simpl;
    [ exists [EPause c; EPause b; EPause a]
    | exists [EPause b; EPause a]
    | exists [EPause c; EPause a]
    | exists [EPause a]
    | exists [EPause c; EPause b]
    | exists [EPause b]
    | exists [EPause c]
    | exists [] ];
    (split; [reflexivity | repeat constructor]).
Qed.

(** stop() cancels every timer of a well-formed world. *)
Lemma stop_cancels w : wf w -> active (stop w) = ∅.
Proof.
  intros [Ha _]. apply map_eq. intros id.
  rewrite stop_active, lookup_clear, lookup_empty.
  destruct (decide (id ∈ timers w)) as [|Hnin]; [reflexivity|].
  destruct (active w !! id) as [t|] eqn:E; [|reflexivity].
  destruct (Ha id t E). contradiction.
Qed.

Lemma wf_stop w : wf w -> wf (stop w).
Proof.
  intros Hwf. split.
  - intros id t H. rewrite stop_cancels in H by assumption.
    now rewrite lookup_empty in H.
  - destruct Hwf as [_ Hl]. rewrite stop_next_id.
    destruct (stop_log w) as [l [-> F]]. apply Forall_app. split; [|exact Hl].
    eapply Forall_impl; [exact F|]. intros []; simpl; auto; discriminate.
Qed.

Lemma stop_counts iv w :
  completions iv (stop w) = completions iv w /\
  ticks_run iv (stop w) = ticks_run iv w.
Proof.
  unfold completions, ticks_run. destruct (stop_log w) as [l [-> F]].
  rewrite !count_app.
  rewrite (count_benign_complete None), (count_benign_fire None);
    auto; discriminate.
Qed.

Lemma stop_in_range w :
  Forall in_range (log w) -> Forall in_range (log (stop w)).
Proof.
  intros H. destruct (stop_log w) as [l [-> F]]. apply Forall_app.
  split; [|exact H]. eapply Forall_impl; [exact F|]. intros []; simpl; auto.
Qed.

(** ** Every event keeps the world well formed *)

Lemma wf_step e w : wf w -> wf (step e w).
Proof.
  intros Hwf. destruct (is_stop e) eqn:Es.
  - destruct e; try discriminate. now apply wf_stop.
  - destruct e; try discriminate;
      try (eapply (wf_frame None); [discriminate | exact Hwf |];
           apply (frame_step _ _ Es)).
    simpl. destruct (active w !! id) as [t|] eqn:E.
    + eapply (wf_frame (Some id)); [| exact Hwf | apply frame_fire].
      intros i [= <-]. now destruct Hwf as [Ha _], (Ha id t E).
    + unfold fire. now rewrite E.
Qed.

Lemma wf_run tr w : wf w -> wf (run tr w).
Proof.
  revert w. induction tr as [|e tr IH]; intros w H; simpl; [exact H|].
  apply IH. now apply wf_step.
Qed.

Lemma wf_literal tape ap : wf (literal tape ap).
Proof.
  split; simpl.
  - intros id t H. now rewrite lookup_empty in H.
  - constructor.
Qed.

Lemma in_range_step e w :
  Forall in_range (log w) -> Forall in_range (log (step e w)).
Proof.
  intros H. destruct (is_stop e) eqn:Es.
  - destruct e; try discriminate. now apply stop_in_range.
  - eapply frame_in_range; [apply (frame_step _ _ Es) | exact H].
Qed.

Lemma in_range_run tr w :
  Forall in_range (log w) -> Forall in_range (log (run tr w)).
Proof.
  revert w. induction tr as [|e tr IH]; intros w H; simpl; [exact H|].
  apply IH. now apply in_range_step.
Qed.

Lemma run_app tr1 tr2 w : run (tr1 ++ tr2) w = run tr2 (run tr1 w).
Proof. unfold run. apply fold_left_app. Qed.

(** ** The life of one envelope *)

Lemma run_cb_body iv k w : run_cb iv k w = cb_body k (emit (EComplete iv) w).
Proof. destruct k; reflexivity. Qed.

Lemma frame_cb_body J k w : frame J w (cb_body k w).
Proof.
  destruct k as [tv du fo| |tag]; simpl.
  - apply frame_arm.
  - destruct (waves2 w); chain atom2.
  - apply frame_emit. exact I.
Qed.

(** The world after the tick of a fade that is not the last one. *)
Lemma fire_tick_early iv d a s vs cb k w :
  active w !! iv = Some (fade_timer d a s vs cb k) ->
  (steps <=? S k) = false ->
  fire iv w =
  set_volume a (fade_volume s vs (S k))
    (set_active (<[iv := fade_timer d a s vs cb (S k)]> (active w))
       (emit (EFire iv) w)).
Proof.
  intros H Hk. unfold fire. rewrite H. unfold run_handler, fade_timer.
  cbn [handler repeating delay]. rewrite Hk. unfold fade_volume. do 2 f_equal.
  change (active (emit (EFire iv) w)) with (active w).
  apply map_eq. intros i. destruct (decide (iv = i)) as [<-|Hne].
  - now rewrite lookup_alter_eq, H, lookup_insert_eq.
  - now rewrite lookup_alter_ne, lookup_insert_ne.
Qed.

(** The world after its last tick. *)
Lemma fire_tick_last iv d a s vs cb k w :
  active w !! iv = Some (fade_timer d a s vs cb k) ->
  (steps <=? S k) = true ->
  fire iv w =
  let w1 := set_volume a (fade_volume s vs (S k))
              (set_active (delete iv (active w)) (emit (EFire iv) w)) in
  match cb with
  | Some c => cb_body c (emit (EComplete iv) w1)
  | None => w1
  end.
Proof.
  intros H Hk. unfold fire. rewrite H. unfold run_handler, fade_timer.
  cbn [handler repeating delay]. rewrite Hk. cbv zeta.
  change (active (emit (EFire iv) w)) with (active w).
  assert (E : delete iv
                (alter (fun _ => mkTimer true d (HFade (Some a) s vs (S k) cb))
                       iv (active w)) = delete iv (active w)).
  { apply map_eq. intros i. destruct (decide (iv = i)) as [<-|Hne].
    - now rewrite !lookup_delete_eq.
    - now rewrite !lookup_delete_ne, lookup_alter_ne. }
  destruct cb as [c|].
  - rewrite run_cb_body. unfold clearInterval, set_volume, upd, emit. simpl.
    now rewrite E.
  - unfold clearInterval, set_volume, upd, emit. simpl. now rewrite E.
Qed.

Lemma count_cons p e l : count p (e :: l) = (if p e then 1 else 0) + count p l.
Proof. unfold count. simpl. now destruct (p e). Qed.

Lemma fire_tick iv d a s vs cb k w :
  active w !! iv = Some (fade_timer d a s vs cb k) ->
  iv < next_id w ->
  ticks_run iv (fire iv w) = S (ticks_run iv w) /\
  (if steps <=? S k
   then active (fire iv w) !! iv = None /\
        completions iv (fire iv w) = cb_count cb + completions iv w
   else active (fire iv w) !! iv = Some (fade_timer d a s vs cb (S k)) /\
        completions iv (fire iv w) = completions iv w).
Proof.
  intros H Hlt. destruct (steps <=? S k) eqn:Hk.
  - rewrite (fire_tick_last _ _ _ _ _ _ _ _ H Hk). cbv zeta.
    set (w1 := set_volume a (fade_volume s vs (S k))
                 (set_active (delete iv (active w)) (emit (EFire iv) w))).
    assert (H1 : active w1 !! iv = None) by apply lookup_delete_eq.
    assert (H2 : ticks_run iv w1 = S (ticks_run iv w)).
    { unfold ticks_run, w1. simpl. rewrite !count_cons. simpl.
      now rewrite Nat.eqb_refl. }
    assert (H3 : completions iv w1 = completions iv w).
    { unfold completions, w1. simpl. now rewrite !count_cons. }
    destruct cb as [c|]; simpl.
    + destruct (frame_quiet None (emit (EComplete iv) w1)
                  (cb_body c (emit (EComplete iv) w1)) iv)
        as (Ha & Hc & Hf);
        [apply frame_cb_body | discriminate | exact Hlt |].
      rewrite Ha, Hc, Hf. split; [|split].
      * exact H2.
      * exact H1.
      * rewrite <- H3. unfold completions.
        change (log (emit (EComplete iv) w1)) with (EComplete iv :: log w1).
        rewrite count_cons. simpl. now rewrite Nat.eqb_refl.
    + split; [|split]; assumption.
  - rewrite (fire_tick_early _ _ _ _ _ _ _ _ H Hk). split; [|split].
    + unfold ticks_run. simpl. rewrite !count_cons. simpl.
      now rewrite Nat.eqb_refl.
    + simpl. apply lookup_insert_eq.
    + unfold completions. simpl. now rewrite !count_cons.
Qed.

(** Firing a timer that is not active does nothing. *)
Lemma fire_inactive id w : active w !! id = None -> fire id w = w.
Proof. intros H. unfold fire. now rewrite H. Qed.

Lemma next_id_step e w : next_id w <= next_id (step e w).
Proof.
  destruct (is_stop e) eqn:Es.
  - destruct e; try discriminate. cbn [step]. rewrite stop_next_id. lia.
  - apply (fr_next _ _ _ (frame_step _ _ Es)).
Qed.

Lemma quiet_step e w iv :
  is_stop e = false -> touch e <> Some iv -> iv < next_id w ->
  active (step e w) !! iv = active w !! iv /\
  completions iv (step e w) = completions iv w /\
  ticks_run iv (step e w) = ticks_run iv w.
Proof.
  intros Es Ht Hlt. apply (frame_quiet (touch e)); auto.
  now apply frame_step.
Qed.

Lemma agrees_step iv d a s vs cb p e w :
  agrees iv d a s vs cb p w ->
  agrees iv d a s vs cb (phase_step iv p e) (step e w).
Proof.
  intros (Hwf & Hlt & Hp).
  split; [now apply wf_step|].
  split; [pose proof (next_id_step e w); lia|].
  destruct (is_stop e) eqn:Es.
  - (* stop() *)
    destruct e; try discriminate. cbn [step].
    destruct (stop_counts iv w) as [Hc Hf].
    rewrite stop_cancels, lookup_empty, Hc, Hf by assumption.
    destruct p as [k| |k]; simpl; intuition.
  - destruct (decide (touch e = Some iv)) as [Ht|Ht].
    + (* the interval itself fires *)
      destruct e; try discriminate. injection Ht as ->.
      cbn [step].
      destruct p as [k| |k]; cbn [phase_step]; rewrite ?Nat.eqb_refl.
      * destruct Hp as (Hk & Ha & Hc & Hf).
        destruct (fire_tick _ _ _ _ _ _ _ _ Ha Hlt) as [Hf' Hrest].
        destruct (steps <=? S k) eqn:Hle.
        -- destruct Hrest as [Ha' Hc']. rewrite Ha', Hc', Hf', Hc, Hf.
           apply Nat.leb_le in Hle. split; [reflexivity|]. split; lia.
        -- destruct Hrest as [Ha' Hc']. rewrite Ha', Hc', Hf', Hc, Hf.
           apply Nat.leb_gt in Hle. repeat split; lia.
      * rewrite (fire_inactive _ _ (proj1 Hp)). exact Hp.
      * rewrite (fire_inactive _ _ (proj1 (proj2 Hp))). exact Hp.
    + (* anything else *)
      destruct (quiet_step e w iv Es Ht Hlt) as (Ha & Hc & Hf).
      rewrite Ha, Hc, Hf.
      assert (Hp' : phase_step iv p e = p).
      { destruct p as [k| |k], e; try reflexivity; try discriminate.
        simpl. destruct (Nat.eqb_spec id iv); [subst; now contradict Ht|].
        reflexivity. }
      now rewrite Hp'.
Qed.

Lemma agrees_run iv d a s vs cb tr p w :
  agrees iv d a s vs cb p w ->
  agrees iv d a s vs cb (phase_after iv p tr) (run tr w).
Proof.
  revert p w. induction tr as [|e tr IH]; intros p w H; simpl; [exact H|].
  apply IH. now apply agrees_step.
Qed.

Lemma count_known p n l :
  (forall e, p e = true -> ~ known n e) ->
  Forall (known n) l -> count p l = 0.
Proof.
  intros Hp. induction 1 as [|e l He _ IH]; [reflexivity|].
  rewrite count_cons, IH. destruct (p e) eqn:E; [|reflexivity].
  now destruct (Hp e E).
Qed.

(** A fade just requested is live with no tick done. *)
Lemma agrees_fadeAudio a s e d cb w :
  wf w ->
  agrees (next_id w) (d / inject_Z (Z.of_nat steps))%Q a s
         ((e - s) / inject_Z (Z.of_nat steps))%Q cb (Live 0)
         (fadeAudio (Some a) s e d cb w).
Proof.
  intros Hwf. split; [|split; [|split; [|split; [|split]]]].
  - eapply (wf_frame None); [discriminate | exact Hwf | apply frame_fadeAudio].
  - simpl. lia.
  - unfold steps. lia.
  - simpl. apply lookup_insert_eq.
  - destruct Hwf as [_ Hl]. apply (count_known _ (next_id w)); [|exact Hl].
    intros [] E; simpl in *; try discriminate.
    apply Nat.eqb_eq in E. lia.
  - destruct Hwf as [_ Hl]. apply (count_known _ (next_id w)); [|exact Hl].
    intros [] E; simpl in *; try discriminate.
    apply Nat.eqb_eq in E. lia.
Qed.

Lemma phase_after_Done iv tr : phase_after iv Done tr = Done.
Proof. induction tr as [|e tr IH]; simpl; [reflexivity | exact IH]. Qed.

Lemma phase_after_Cancelled iv k tr :
  phase_after iv (Cancelled k) tr = Cancelled k.
Proof. induction tr as [|e tr IH]; simpl; [reflexivity | exact IH]. Qed.

Lemma phase_after_Live iv tr : forall k,
  k < steps ->
  phase_after iv (Live k) tr =
  if steps <=? k + ticks_before_stop iv tr then Done
  else if existsb is_stop tr
       then Cancelled (k + ticks_before_stop iv tr)
       else Live (k + ticks_before_stop iv tr).
Proof.
  induction tr as [|e tr IH]; intros k Hk.
  - cbn [phase_after fold_left ticks_before_stop existsb].
    rewrite Nat.add_0_r.
    destruct (Nat.leb_spec steps k); [lia | reflexivity].
  - change (phase_after iv (Live k) (e :: tr))
      with (phase_after iv (phase_step iv (Live k) e) tr).
    destruct e;
      cbn [phase_step ticks_before_stop existsb is_stop orb];
      try (now apply IH).
    + (* Stop *)
      rewrite phase_after_Cancelled, Nat.add_0_r.
      destruct (Nat.leb_spec steps k); [lia | reflexivity].
    + (* Fire *)
      destruct (Nat.eqb id iv).
      * destruct (Nat.leb_spec steps (S k)) as [Hle|Hgt].
        -- rewrite phase_after_Done.
           destruct (Nat.leb_spec steps (k + (1 + ticks_before_stop iv tr)));
             [reflexivity | lia].
        -- rewrite IH by assumption.
           now replace (S k + ticks_before_stop iv tr)
             with (k + (1 + ticks_before_stop iv tr)) by lia.
      * now apply IH.
Qed.

Lemma ticks_before_stop_app iv tr1 tr2 :
  ticks_before_stop iv (tr1 ++ tr2) =
  ticks_before_stop iv tr1 +
  (if existsb is_stop tr1 then 0 else ticks_before_stop iv tr2).
Proof.
  induction tr1 as [|e tr1 IH]; [reflexivity|].
  destruct e; cbn [app ticks_before_stop existsb is_stop orb];
    try exact IH; [reflexivity|].
  rewrite IH. lia.
Qed.

Lemma existsb_stop_app tr1 tr2 :
  existsb is_stop (tr1 ++ tr2) = existsb is_stop tr1 || existsb is_stop tr2.
Proof. apply existsb_app. Qed.

(** Where an envelope stands after any trace, read off the trace alone. *)
Lemma envelope_after a s e d cb w tr :
  wf w ->
  agrees (next_id w) (d / inject_Z (Z.of_nat steps))%Q a s
         ((e - s) / inject_Z (Z.of_nat steps))%Q cb
         (if steps <=? ticks_before_stop (next_id w) tr then Done
          else if existsb is_stop tr
               then Cancelled (ticks_before_stop (next_id w) tr)
               else Live (ticks_before_stop (next_id w) tr))
         (run tr (fadeAudio (Some a) s e d cb w)).
Proof.
  intros Hwf.
  pose proof (agrees_run _ _ _ _ _ _ tr _ _ (agrees_fadeAudio a s e d cb w Hwf))
    as H.
  rewrite phase_after_Live in H by (unfold steps; lia). exact H.
Qed.

Lemma envelope_counts a s e d cb w tr :
  wf w ->
  let iv := next_id w in
  let w' := run tr (fadeAudio (Some a) s e d cb w) in
  ticks_run iv w' = Nat.min steps (ticks_before_stop iv tr) /\
  completions iv w' =
    (if steps <=? ticks_before_stop iv tr then cb_count cb else 0).
Proof.
  intros Hwf iv w'. pose proof (envelope_after a s e d cb w tr Hwf) as H.
  fold iv in H. fold w' in H. destruct H as (_ & _ & H).
  destruct (Nat.leb_spec steps (ticks_before_stop iv tr)) as [Hle|Hgt].
  - destruct H as (_ & Hc & Hf). split; [lia | assumption].
  - destruct (existsb is_stop tr); destruct H as (_ & _ & Hc & Hf);
      (split; [lia | assumption]).
Qed.

Lemma Math_clamp_compat (x y : Q) :
  (x == y)%Q ->
  (Math_max 0 (Math_min 1 x) == Math_max 0 (Math_min 1 y))%Q.
Proof.
  intros E. unfold Math_max, Math_min.
  destruct (Qle_bool 1 x) eqn:E1, (Qle_bool 1 y) eqn:E2;
    try apply Qle_bool_iff in E1; try apply Qle_bool_iff in E2;
    try apply Qle_bool_false in E1; try apply Qle_bool_false in E2.
  - reflexivity.
  - lra.
  - lra.
  - destruct (Qle_bool 0 x) eqn:E3, (Qle_bool 0 y) eqn:E4;
      try apply Qle_bool_iff in E3; try apply Qle_bool_iff in E4;
      try apply Qle_bool_false in E3; try apply Qle_bool_false in E4;
      lra.
Qed.

(** The formula of the tick at step 60 gives the clamped end volume. *)
Lemma fade_volume_final (s e : Q) :
  (fade_volume s ((e - s) / inject_Z (Z.of_nat steps)) steps ==
   Math_max 0 (Math_min 1 e))%Q.
Proof.
  unfold fade_volume. apply Math_clamp_compat.
  change (inject_Z (Z.of_nat steps)) with 60%Q. field.
Qed.

Lemma volume_writes_cb_body a c w :
  volume_writes a (log (cb_body c w)) = volume_writes a (log w).
Proof.
  destruct c as [tv du fo| |tag]; simpl; try reflexivity.
  destruct (waves2 w); reflexivity.
Qed.

Lemma heap_volume_cb_body a c w :
  volume <$> (heap (cb_body c w) !! a) = volume <$> (heap w !! a).
Proof.
  destruct c as [tv du fo| |tag]; simpl; try reflexivity.
  destruct (waves2 w) as [b|]; [|reflexivity]. simpl.
  destruct (decide (b = a)) as [->|Hne].
  - rewrite list_lookup_alter_eq. now destruct (heap w !! a).
  - now rewrite list_lookup_alter_ne.
Qed.

(** What the last tick of an envelope leaves behind. *)
Lemma fire_tick_last_volume iv d a s vs cb k w :
  active w !! iv = Some (fade_timer d a s vs cb k) ->
  (steps <=? S k) = true ->
  volume_writes a (log (fire iv w)) =
    fade_volume s vs (S k) :: volume_writes a (log w) /\
  volume <$> (heap (fire iv w) !! a) =
    (fun _ => fade_volume s vs (S k)) <$> (heap w !! a).
Proof.
  intros H Hk. rewrite (fire_tick_last _ _ _ _ _ _ _ _ H Hk). cbv zeta.
  set (w1 := set_volume a (fade_volume s vs (S k))
               (set_active (delete iv (active w)) (emit (EFire iv) w))).
  assert (H1 : volume_writes a (log w1) =
               fade_volume s vs (S k) :: volume_writes a (log w)).
  { unfold w1. simpl. now rewrite Nat.eqb_refl. }
  assert (H2 : volume <$> (heap w1 !! a) =
               (fun _ => fade_volume s vs (S k)) <$> (heap w !! a)).
  { unfold w1. simpl. rewrite list_lookup_alter_eq.
    now destruct (heap w !! a). }
  destruct cb as [c|]; [|now split].
  rewrite volume_writes_cb_body, heap_volume_cb_body. now split.
Qed.

(** ** Elements that play *)

Lemma calm_refl w : calm w w.
Proof.
  split; auto.
  - intros a au H Hp. right. eauto.
  - intros a au H. eauto.
Qed.

Lemma calm_trans w1 w2 w3 : calm w1 w2 -> calm w2 w3 -> calm w1 w3.
Proof.
  intros [A1 B1 C1 D1 P1 S1] [A2 B2 C2 D2 P2 S2]. split; try congruence.
  - intros a au3 H Hp. destruct (P2 a au3 H Hp) as [Hc | [au2 [H2 Hp2]]].
    + left. unfold is_channel in *. now rewrite <- A1, <- B1, <- C1.
    + exact (P1 a au2 H2 Hp2).
  - intros a au H. destruct (S1 a au H) as (au2 & H2 & L2 & O2).
    destruct (S2 a au2 H2) as (au3 & H3 & L3 & O3).
    exists au3. split; [exact H3|]. split; congruence.
Qed.

Lemma calm_outside w w' :
  waves w' = waves w -> birds w' = birds w -> waves2 w' = waves2 w ->
  autoplay w' = autoplay w -> heap w' = heap w -> calm w w'.
Proof.
  intros A B C D H. split; auto.
  - intros a au Ha Hp. rewrite H in Ha. right. eauto.
  - intros a au Ha. rewrite H. eauto.
Qed.

Lemma static_alter (a : nat) (f : Audio -> Audio) (h : list Audio) :
  (forall au, loop (f au) = loop au /\ onended (f au) = onended au) ->
  forall b au, h !! b = Some au ->
    exists au', alter f a h !! b = Some au' /\
                loop au' = loop au /\ onended au' = onended au.
Proof.
  intros Hs b au H. destruct (decide (a = b)) as [<-|Hne].
  - exists (f au). rewrite list_lookup_alter_eq, H. split; [reflexivity|].
    apply Hs.
  - exists au. rewrite list_lookup_alter_ne by assumption. auto.
Qed.

Lemma calm_upd a f w :
  (forall au, paused (f au) = false -> paused au = false) ->
  (forall au, loop (f au) = loop au /\ onended (f au) = onended au) ->
  calm w (upd a f w).
Proof.
  intros Hf Hs. split; auto.
  - intros b au H Hp. simpl in H. right.
    destruct (decide (a = b)) as [<-|Hne].
    + rewrite list_lookup_alter_eq in H.
      destruct (heap w !! a) as [au0|]; [|discriminate].
      injection H as <-. eauto.
    + rewrite list_lookup_alter_ne in H by assumption. eauto.
  - now apply static_alter.
Qed.

Lemma calm_emit e w : calm w (emit e w).
Proof. now apply calm_outside. Qed.

Lemma calm_set_volume a v w : calm w (set_volume a v w).
Proof.
  eapply calm_trans; [|apply calm_emit]. apply calm_upd; now intros [].
Qed.

Lemma calm_seek0 a w : calm w (seek0 a w).
Proof.
  eapply calm_trans; [|apply calm_emit]. apply calm_upd; now intros [].
Qed.

Lemma calm_pause a w : calm w (pause a w).
Proof.
  eapply calm_trans; [|apply calm_emit]. apply calm_upd; now intros [].
Qed.

Lemma calm_pause_if r w : calm w (pause_if r w).
Proof. destruct r; [apply calm_pause | apply calm_refl]. Qed.

(** play() on a channel. *)
Lemma calm_play a w : is_channel a w -> calm w (play a w).
Proof.
  intros Hc. eapply calm_trans; [|apply calm_emit].
  destruct (autoplay w); [|apply calm_refl].
  split; auto.
  - intros b au H Hp. simpl in H.
    destruct (decide (a = b)) as [<-|Hne]; [now left|].
    rewrite list_lookup_alter_ne in H by assumption. right. eauto.
  - apply static_alter. now intros [].
Qed.

Lemma calm_arm rep h d w : calm w (arm rep h d w).
Proof. now apply calm_outside. Qed.

Lemma calm_scheduleNextBird w : calm w (scheduleNextBird w).
Proof. now apply calm_outside. Qed.

Lemma calm_scheduleWaves2 w : calm w (scheduleWaves2 w).
Proof. now apply calm_outside. Qed.

Lemma calm_fadeAudio audio s e d cb w : calm w (fadeAudio audio s e d cb w).
Proof. now apply calm_outside. Qed.

Lemma calm_set_entropy l w : calm w (set_entropy l w).
Proof. now apply calm_outside. Qed.

Ltac calm_chain tac :=
  repeat first
    [ apply calm_refl
    | eapply calm_trans; [ | solve [tac] ] ].

Ltac calm_atom :=
  first [ apply calm_play; unfold is_channel; simpl; auto
        | apply calm_set_volume | apply calm_seek0
        | apply calm_pause | apply calm_pause_if | apply calm_arm
        | apply calm_set_entropy | apply calm_scheduleNextBird
        | apply calm_scheduleWaves2 | apply calm_fadeAudio
        | apply calm_emit ].

Lemma calm_playWaves2Swell w : calm w (playWaves2Swell w).
Proof.
  unfold playWaves2Swell. destruct (waves2 w) as [a|] eqn:E; [|apply calm_refl].
  cbv beta iota zeta delta [Math_random]. calm_chain calm_atom.
Qed.

Lemma calm_start w : is_Some (waves w) -> calm w (start w).
Proof.
  intros [a E]. unfold start. rewrite E. cbv beta iota zeta. rewrite E.
  eapply calm_trans; [|apply calm_scheduleWaves2].
  eapply calm_trans; [|apply calm_scheduleNextBird].
  apply calm_play. now left.
Qed.

Lemma calm_cb_body k w : calm w (cb_body k w).
Proof.
  destruct k as [tv du fo| |tag]; simpl.
  - apply calm_arm.
  - destruct (waves2 w); [|apply calm_refl].
    eapply calm_trans; [apply calm_pause | apply calm_scheduleWaves2].
  - apply calm_emit.
Qed.

Lemma calm_set_active m w : calm w (set_active m w).
Proof. now apply calm_outside. Qed.

Lemma calm_run_handler id t w : calm w (run_handler id t w).
Proof.
  unfold run_handler. destruct (handler t) as [| |tv fo|audio s vs k cb].
  - destruct (birds w) as [b|] eqn:E; [|apply calm_refl].
    eapply calm_trans; [apply calm_seek0|]. apply calm_play.
    right. left. exact E.
  - apply calm_playWaves2Swell.
  - apply calm_fadeAudio.
  - cbv zeta. eapply calm_trans; [apply calm_set_active|].
    destruct audio as [a|]; [|apply calm_refl].
    eapply calm_trans; [apply calm_set_volume|].
    destruct (steps <=? S k); [|apply calm_refl].
    eapply calm_trans; [apply calm_set_active|].
    destruct cb as [c|]; [|apply calm_refl].
    rewrite run_cb_body.
    eapply calm_trans; [apply calm_emit | apply calm_cb_body].
Qed.

Lemma calm_fire id w : calm w (fire id w).
Proof.
  unfold fire. destruct (active w !! id) as [t|]; [|apply calm_refl].
  eapply calm_trans; [|apply calm_run_handler].
  destruct (repeating t); [apply calm_emit|].
  eapply calm_trans; [apply calm_emit | apply calm_set_active].
Qed.

Lemma calm_listeners ls w :
  calm w (fold_left (fun w l => run_listener l w) ls w).
Proof.
  revert w. induction ls as [|l ls IH]; intros w; simpl.
  - apply calm_refl.
  - eapply calm_trans; [|apply IH]. destruct l. apply calm_scheduleNextBird.
Qed.

Lemma calm_ended a w : calm w (ended a w).
Proof.
  unfold ended. destruct (heap w !! a) as [au|]; [|apply calm_refl].
  destruct (loop au); [apply calm_refl|].
  eapply calm_trans; [|apply calm_listeners].
  eapply calm_trans; [|apply calm_emit]. apply calm_upd; now intros [].
Qed.

Lemma calm_set_timers l w : calm w (set_timers l w).
Proof. now apply calm_outside. Qed.

Lemma calm_stop w : calm w (stop w).
Proof.
  rewrite stop_unfold.
  eapply calm_trans; [|apply calm_set_timers].
  eapply calm_trans; [|apply calm_set_active].
  eapply calm_trans; [|apply calm_pause_if].
  eapply calm_trans; [|apply calm_pause_if].
  apply calm_pause_if.
Qed.

(** ** After stop() *)

(** With no timer armed, firings change nothing. *)
Lemma fires_nothing ids w : active w = ∅ -> run (map Fire ids) w = w.
Proof.
  intros Ha. induction ids as [|id ids IH]; [reflexivity|].
  cbn [map run fold_left step]. rewrite fire_inactive; [exact IH|].
  now rewrite Ha, lookup_empty.
Qed.

Lemma birds_only_listeners ls : forall w,
  birds_only w ->
  let w' := fold_left (fun w l => run_listener l w) ls w in
  birds_only w' /\ birds w' = birds w /\ log w' = log w.
Proof.
  induction ls as [|l ls IH]; intros w H; cbn [fold_left]; [now split|].
  destruct l. cbn [run_listener].
  destruct (IH (scheduleNextBird w)) as (B & E & L).
  - rewrite scheduleNextBird_arm. intros id t Ht. cbn in Ht.
    destruct (decide (id = next_id w)) as [->|Hne].
    + rewrite lookup_insert_eq in Ht. injection Ht as <-. now split.
    + rewrite lookup_insert_ne in Ht by congruence. exact (H id t Ht).
  - split; [exact B|]. split; [now rewrite E | now rewrite L].
Qed.

(** What a firing or an 'ended' event can do when only bird timers are
    armed. *)
Lemma birds_only_step e w :
  is_env e = true -> birds_only w ->
  birds_only (step e w) /\ birds (step e w) = birds w /\
  exists l, log (step e w) = l ++ log w /\ Forall (bird_replay (birds w)) l.
Proof.
  intros He H. destruct e; try discriminate; cbn [step].
  - unfold fire. destruct (active w !! id) as [t|] eqn:Ht.
    + destruct (H id t Ht) as [Hh Hr]. rewrite Hr. unfold run_handler.
      rewrite Hh.
      change (birds (set_active (delete id (active (emit (EFire id) w)))
                       (emit (EFire id) w))) with (birds w).
      assert (D : birds_only (set_active (delete id (active w))
                                (emit (EFire id) w))).
      { intros i t' Hi. cbn in Hi. apply lookup_delete_Some in Hi as [_ Hi].
        exact (H i t' Hi). }
      destruct (birds w) as [b|] eqn:Hb.
      * split; [|split].
        -- intros i t' Hi. apply (D i t').
           unfold play in Hi. destruct (autoplay _); exact Hi.
        -- unfold play. now destruct (autoplay _).
        -- exists [EPlay b; ESeek b; EFire id]. split.
           ++ unfold play. now destruct (autoplay _).
           ++ repeat constructor.
      * split; [exact D|]. split; [exact Hb|].
        exists [EFire id]. split; [reflexivity | repeat constructor].
    + split; [exact H|]. split; [reflexivity|]. now exists [].
  - unfold ended. destruct (heap w !! a) as [au|];
      [|split; [exact H|]; split; [reflexivity|]; now exists []].
    destruct (loop au);
      [split; [exact H|]; split; [reflexivity|]; now exists []|].
    destruct (birds_only_listeners (onended au)
                (emit (EEnded a) (upd a (with_paused true) w)))
      as (B & E & L); [exact H|].
    split; [exact B|]. split; [exact E|].
    exists [EEnded a]. split; [exact L | repeat constructor].
Qed.

Lemma birds_only_run es : forall w,
  forallb is_env es = true -> birds_only w ->
  birds_only (run es w) /\ birds (run es w) = birds w /\
  exists l, log (run es w) = l ++ log w /\ Forall (bird_replay (birds w)) l.
Proof.
  induction es as [|e es IH]; intros w He H.
  - split; [exact H|]. split; [reflexivity|]. now exists [].
  - cbn [forallb] in He. apply andb_true_iff in He as [He Hes].
    destruct (birds_only_step e w He H) as (B1 & E1 & l1 & L1 & F1).
    change (run (e :: es) w) with (run es (step e w)).
    destruct (IH (step e w) Hes B1) as (B2 & E2 & l2 & L2 & F2).
    split; [exact B2|]. split; [now rewrite E2|].
    exists (l2 ++ l1). split.
    + now rewrite L2, L1, app_assoc.
    + apply Forall_app. split; [now rewrite <- E1 | exact F1].
Qed.

Lemma calm_step e w :
  is_init e = false -> is_Some (waves w) -> calm w (step e w).
Proof.
  intros Hi Hw. destruct e; try discriminate; simpl.
  - now apply calm_start.
  - apply calm_stop.
  - apply calm_fadeAudio.
  - apply calm_fire.
  - apply calm_ended.
Qed.

Lemma calm_run tr w :
  existsb is_init tr = false -> is_Some (waves w) -> calm w (run tr w).
Proof.
  revert w. induction tr as [|e tr IH]; intros w Hi Hw; simpl;
    [apply calm_refl|].
  simpl in Hi. apply orb_false_iff in Hi as [He Htr].
  pose proof (calm_step e w He Hw) as Hc.
  eapply calm_trans; [exact Hc|]. apply IH; [exact Htr|].
  now rewrite (cm_waves _ _ Hc).
Qed.

(** What stays true of the page as loaded while init() is not called
    again: the channels are the elements 0, 1 and 2, and the bird element
    does not loop and carries the one listener that init() gave it. *)
Lemma loaded_page tape ap tr :
  existsb is_init tr = false ->
  let w := run tr (boot tape ap) in
  waves w = Some 0 /\ birds w = Some 1 /\ waves2 w = Some 2 /\
  autoplay w = ap /\
  (exists au, heap w !! 1 = Some au /\ loop au = false /\
              onended au = [LScheduleNextBird]) /\
  (exists cu, heap w !! 2 = Some cu).
Proof.
  intros Hi w.
  destruct (calm_run tr (boot tape ap) Hi) as [A B C D _ S];
    [now eexists|].
  fold w in A, B, C, D, S.
  repeat (split; [assumption|]).
  destruct (S 1 (mkAudio "birds.mp3" false 0.6%Q 0%Q true [LScheduleNextBird]))
    as (au & H & L & O); [reflexivity|].
  destruct (S 2 (mkAudio "waves2.mp3" true 0%Q 0%Q true []))
    as (cu & H2 & _); [reflexivity|].
  split; eauto.
Qed.

(** ** The two cue chains, link by link *)

(** The bird timer fires: the one-shot is played and no timer is armed. *)
Lemma fire_bird id d b w :
  active w !! id = Some (mkTimer false d HBird) ->
  birds w = Some b ->
  active (fire id w) = delete id (active w) /\
  (autoplay w = true -> forall au, heap w !! b = Some au ->
     paused <$> (heap (fire id w) !! b) = Some false).
Proof.
  intros H Hb. unfold fire. rewrite H. unfold run_handler.
  cbn [handler repeating].
  change (birds (set_active (delete id (active (emit (EFire id) w)))
                   (emit (EFire id) w))) with (birds w).
  rewrite Hb. unfold play.
  change (autoplay (seek0 b _)) with (autoplay w).
  destruct (autoplay w); (split; [reflexivity|]); [|discriminate].
  intros _ au Hau. simpl. rewrite !list_lookup_alter_eq, Hau. reflexivity.
Qed.

(** 'ended' at the bird element: its listener arms the next bird timer. *)
Lemma ended_rearms b au w :
  heap w !! b = Some au ->
  loop au = false ->
  onended au = [LScheduleNextBird] ->
  active (ended b w) =
    <[next_id w := mkTimer false (hd 0%Q (entropy w) * 17000 + 8000)%Q HBird]>
      (active w) /\
  next_id w ∈ timers (ended b w).
Proof.
  intros H Hl Ho. unfold ended. rewrite H, Hl, Ho. simpl.
  split; [reflexivity|]. apply elem_of_app. right.
  now apply list_elem_of_singleton.
Qed.

(** The swell timer fires: waves2 is played and its fade-in starts, with
    the hold as completion callback; no swell timer is armed. *)
Lemma fire_swell id d c w :
  active w !! id = Some (mkTimer false d HWaves2) ->
  waves2 w = Some c ->
  let r1 := hd 0%Q (entropy w) in
  let r2 := hd 0%Q (tl (entropy w)) in
  let r3 := hd 0%Q (tl (tl (entropy w))) in
  let r4 := hd 0%Q (tl (tl (tl (entropy w)))) in
  let targetVol := (r1 * 0.5 + 0.3)%Q in
  active (fire id w) =
    <[next_id w :=
        fade_timer ((r3 * 3000 + 2000) / inject_Z (Z.of_nat steps))%Q c 0%Q
          ((targetVol - 0) / inject_Z (Z.of_nat steps))%Q
          (Some (KHold targetVol (r2 * 10000 + 8000)%Q (r4 * 3000 + 2000)%Q))
          0]>
      (delete id (active w)).
Proof.
  intros H Hc. unfold fire. rewrite H. unfold run_handler.
  cbn [handler repeating]. unfold playWaves2Swell.
  change (waves2 (set_active (delete id (active (emit (EFire id) w)))
                    (emit (EFire id) w))) with (waves2 w).
  rewrite Hc. unfold play.
  change (autoplay (seek0 c _)) with (autoplay w).
  cbv beta iota zeta delta [Math_random].
  destruct (autoplay w);
    match goal with
    | |- context [fadeAudio (waves2 ?x)] =>
        change (waves2 x) with (waves2 w); rewrite Hc
    end; reflexivity.
Qed.

(** The fade-in ends: the hold timer is armed. *)
Lemma fire_fade_in_done iv d a s vs tv du fo w :
  active w !! iv = Some (fade_timer d a s vs (Some (KHold tv du fo)) 59) ->
  active (fire iv w) =
    <[next_id w := mkTimer false du (HHold tv fo)]> (delete iv (active w)).
Proof.
  intros H. now rewrite (fire_tick_last _ _ _ _ _ _ _ _ H eq_refl).
Qed.

(** The hold timer fires: the fade-out starts, with the re-arming callback. *)
Lemma fire_hold id d tv fo c w :
  active w !! id = Some (mkTimer false d (HHold tv fo)) ->
  waves2 w = Some c ->
  active (fire id w) =
    <[next_id w :=
        fade_timer (fo / inject_Z (Z.of_nat steps))%Q c tv
          ((0 - tv) / inject_Z (Z.of_nat steps))%Q (Some KRearm) 0]>
      (delete id (active w)).
Proof.
  intros H Hc. unfold fire. rewrite H. unfold run_handler.
  cbn [handler repeating].
  change (waves2 (set_active (delete id (active (emit (EFire id) w)))
                    (emit (EFire id) w))) with (waves2 w).
  rewrite Hc. reflexivity.
Qed.

(** The fade-out ends: waves2 is paused and the next swell timer armed. *)
Lemma fire_fade_out_done iv d a s vs c w :
  active w !! iv = Some (fade_timer d a s vs (Some KRearm) 59) ->
  waves2 w = Some c ->
  active (fire iv w) =
    <[next_id w :=
        mkTimer false (hd 0%Q (entropy w) * 20000 + 10000)%Q HWaves2]>
      (delete iv (active w)) /\
  next_id w ∈ timers (fire iv w) /\
  hd_error (log (fire iv w)) = Some (EPause c) /\
  (forall au, heap w !! c = Some au ->
     paused <$> (heap (fire iv w) !! c) = Some true).
Proof.
  intros H Hc. rewrite (fire_tick_last _ _ _ _ _ _ _ _ H eq_refl).
  cbv zeta. cbn [cb_body].
  change (waves2 (emit (EComplete iv) _)) with (waves2 w). rewrite Hc.
  split; [reflexivity|]. split; [|split; [reflexivity|]].
  - simpl. apply elem_of_app. right. now apply list_elem_of_singleton.
  - intros au Hau. simpl. rewrite list_lookup_alter_eq.
    destruct (decide (a = c)) as [->|Hne].
    + now rewrite list_lookup_alter_eq, Hau.
    + now rewrite list_lookup_alter_ne, Hau.
Qed.

(** One whole swell on a page just started: the swell timer 2 fires, the
    fade-in 3 runs its 60 ticks up to the target volume 0.4, the hold 4
    fires, the fade-out 5 runs its 60 ticks down to 0, and the swell timer
    6 is armed with the next sample; the bird timer 1 is still waiting. *)
Example swell_cycle :
  let tape := [0.5%Q; 0.5%Q; 0.2%Q; 0.4%Q; 0.6%Q; 0.8%Q; 0.9%Q] in
  let w := run ([Start; Fire 2] ++ repeat (Fire 3) 60 ++ [Fire 4]
                ++ repeat (Fire 5) 60) (boot tape true) in
  handler <$> (active w !! 6) = Some HWaves2 /\
  Qred <$> (delay <$> (active w !! 6)) = Some 28000%Q /\
  armed is_waves2 w = 1 /\ armed is_bird w = 1 /\
  paused <$> (heap w !! 2) = Some true /\
  Qred <$> (volume <$> (heap w !! 2)) = Some 0%Q /\
  Qred <$> nth_error (volume_writes 2 (log w)) 60 = Some (2 # 5)%Q /\
  timers w = [1; 2; 3; 4; 5; 6].
Proof. vm_compute. repeat split. Qed.

(** ** Counting armed timers *)

Lemma filter_length_perm {A} (p : A -> bool) (l l' : list A) :
  Permutation l l' -> length (List.filter p l) = length (List.filter p l').
Proof.
  induction 1 as [|x l l' _ IH|x y l|l l' l'' _ IH1 _ IH2]; simpl.
  - reflexivity.
  - destruct (p x); simpl; now rewrite IH.
  - destruct (p x), (p y); reflexivity.
  - now rewrite IH1.
Qed.

Lemma armed_arm p rep h d w :
  active w !! next_id w = None ->
  armed p (arm rep h d w) = (if p h then 1 else 0) + armed p w.
Proof.
  intros Hfresh. unfold armed. simpl.
  rewrite (filter_length_perm _ _ _
             (map_to_list_insert (active w) (next_id w) (mkTimer rep d h) Hfresh)).
  simpl. now destruct (p h).
Qed.

Lemma armed_set_entropy p l w : armed p (set_entropy l w) = armed p w.
Proof. reflexivity. Qed.

Lemma wf_fresh w : wf w -> active w !! next_id w = None.
Proof.
  intros [Ha _]. destruct (active w !! next_id w) as [t|] eqn:E; [|reflexivity].
  destruct (Ha _ _ E). lia.
Qed.

(** start() as the three things it always does, once the channels exist. *)
Lemma start_unfold w a :
  waves w = Some a ->
  start w = scheduleWaves2 (scheduleNextBird (play a w)).
Proof. intros E. unfold start. rewrite E. cbv beta iota zeta. now rewrite E. Qed.

Lemma start_init w :
  waves w = None -> start w = start (init w).
Proof.
  intros E. unfold start at 1. rewrite E. cbv beta iota zeta.
  symmetry. now apply start_unfold.
Qed.

Lemma armed_start p w :
  wf w ->
  armed p (start w) =
  (if p HWaves2 then 1 else 0) + ((if p HBird then 1 else 0) + armed p w).
Proof.
  assert (G : forall w a, wf w -> waves w = Some a ->
            armed p (start w) =
            (if p HWaves2 then 1 else 0) + ((if p HBird then 1 else 0) + armed p w)).
  { clear w. intros w a Hwf E. rewrite (start_unfold w a E).
    rewrite scheduleWaves2_arm, armed_arm, armed_set_entropy.
    - f_equal. rewrite scheduleNextBird_arm, armed_arm, armed_set_entropy.
      + f_equal. unfold armed, play. now destruct (autoplay w).
      + unfold play.
        destruct (autoplay w); change (active w !! next_id w = None);
          now apply wf_fresh.
    - apply wf_fresh. eapply (wf_frame None); [discriminate | exact Hwf |].
      eapply frame_trans; [apply frame_play|].
      eapply frame_trans; [|apply frame_set_entropy].
      apply frame_scheduleNextBird. }
  intros Hwf. destruct (waves w) as [a|] eqn:E; [now apply (G w a)|].
  rewrite (start_init w E), (G (init w) (length (heap w))).
  - reflexivity.
  - eapply (wf_frame None); [discriminate | exact Hwf | apply frame_init].
  - reflexivity.
Qed.

(** ** init *)

Lemma init_heap w : heap (init w) = heap w ++ fresh_channels.
Proof.
  unfold init, new_Audio, set_loop, set_volume, addEventListener_ended, upd.
  simpl. rewrite !length_app. simpl. rewrite <- !app_assoc. simpl.
  repeat (rewrite alter_app_r_alt by lia).
  replace (length (heap w) - length (heap w)) with 0 by lia.
  replace (length (heap w) + 1 - length (heap w)) with 1 by lia.
  replace (length (heap w) + 1 + 1 - length (heap w)) with 2 by lia.
  reflexivity.
Qed.

Lemma init_fields w :
  waves (init w) = Some (length (heap w)) /\
  birds (init w) = Some (length (heap w) + 1) /\
  waves2 (init w) = Some (length (heap w) + 2) /\
  timers (init w) = timers w /\ active (init w) = active w /\
  next_id (init w) = next_id w /\ entropy (init w) = entropy w /\
  autoplay (init w) = autoplay w.
Proof.
  unfold init, new_Audio. simpl. rewrite !length_app. simpl.
  rewrite <- !Nat.add_assoc. repeat split.
Qed.

Lemma init_channels w :
  deref (waves (init w)) (init w) = fresh_channels !! 0 /\
  deref (birds (init w)) (init w) = fresh_channels !! 1 /\
  deref (waves2 (init w)) (init w) = fresh_channels !! 2.
Proof.
  destruct (init_fields w) as (-> & -> & -> & _). unfold deref.
  rewrite init_heap, !lookup_app_r by lia.
  replace (length (heap w) - length (heap w)) with 0 by lia.
  replace (length (heap w) + 1 - length (heap w)) with 1 by lia.
  replace (length (heap w) + 2 - length (heap w)) with 2 by lia.
  repeat split.
Qed.

Lemma init_log w :
  log (init w) =
  [EVolume (length (heap w) + 2) 0%Q; EVolume (length (heap w) + 1) 0.6%Q;
   EVolume (length (heap w)) 0.4%Q] ++ log w.
Proof.
  unfold init, new_Audio. simpl. rewrite !length_app. simpl.
  now rewrite <- !Nat.add_assoc.
Qed.

(** ** The channels once init() has run *)

Lemma wired_init w : wired (init w).
Proof.
  destruct (init_fields w) as (A & B & C & _).
  destruct (init_channels w) as (Ha & Hb & Hc).
  rewrite A in Ha. rewrite B in Hb. rewrite C in Hc.
  unfold deref, fresh_channels in Ha, Hb, Hc. simpl in Ha, Hb, Hc.
  do 6 eexists.
  split; [exact A|]. split; [exact B|]. split; [exact C|].
  split; [exact Ha|]. split; [exact Hb|]. split; [exact Hc|].
  repeat split.
Qed.

Lemma wired_calm w w' : wired w -> calm w w' -> wired w'.
Proof.
  intros (a & b & c & au & bu & cu & A & B & C & Ha & Hb & Hc & La & Lb & Lc)
         [A' B' C' _ _ S].
  destruct (S a au Ha) as (au' & Ha' & L1 & O1).
  destruct (S b bu Hb) as (bu' & Hb' & L2 & O2).
  destruct (S c cu Hc) as (cu' & Hc' & L3 & O3).
  exists a, b, c, au', bu', cu'.
  rewrite A', B', C', L1, O1, L2, O2, L3, O3. repeat split; tauto.
Qed.

Lemma wired_step e w : wired w -> wired (step e w).
Proof.
  intros H. destruct (is_init e) eqn:Ei.
  - destruct e; try discriminate. apply wired_init.
  - apply (wired_calm w); [exact H|]. apply calm_step; [exact Ei|].
    destruct H as (a & _ & _ & _ & _ & _ & A & _). rewrite A. now eexists.
Qed.

Lemma wired_run tr w : wired w -> wired (run tr w).
Proof.
  revert w. induction tr as [|e tr IH]; intros w H; simpl; [exact H|].
  apply IH. now apply wired_step.
Qed.

(** After stop(), 'ended' at the bird element brings the bird chain
    back: the listener arms one bird timer, and that timer seeks and plays
    the bird channel. *)
Lemma ended_after_stop b bu w :
  active w = ∅ -> birds w = Some b -> heap w !! b = Some bu ->
  loop bu = false -> onended bu = [LScheduleNextBird] ->
  active (ended b w) =
    {[ next_id w :=
         mkTimer false (hd 0%Q (entropy w) * 17000 + 8000)%Q HBird ]} /\
  log (fire (next_id w) (ended b w)) =
    EPlay b :: ESeek b :: EFire (next_id w) :: EEnded b :: log w.
Proof.
  intros Ha Hb H Hl Ho. unfold ended. rewrite H, Hl, Ho.
  cbn [fold_left run_listener]. rewrite scheduleNextBird_arm.
  split.
  - cbn. rewrite Ha. apply insert_empty.
  - unfold fire. cbn [arm timers_push set_timers set_next_id set_active
                      set_entropy emit upd set_heap active next_id].
    rewrite lookup_insert_eq. cbn [repeating handler run_handler].
    match goal with
    | |- context [match birds ?x with _ => _ end] =>
        change (birds x) with (birds w)
    end.
    rewrite Hb. unfold play. now destruct (autoplay _).
Qed.

(** ** start *)

(** The waves field points to an element of the heap. *)
Lemma waves_ok_calm w w' :
  calm w w' ->
  (forall a, waves w = Some a -> is_Some (heap w !! a)) ->
  forall a, waves w' = Some a -> is_Some (heap w' !! a).
Proof.
  intros [A _ _ _ _ S] H a Ha. rewrite A in Ha.
  destruct (H a Ha) as [au Hau]. destruct (S a au Hau) as (au' & H' & _).
  now exists au'.
Qed.

Lemma waves_ok_init w a :
  waves (init w) = Some a -> is_Some (heap (init w) !! a).
Proof.
  intros Ha. destruct (init_channels w) as (H & _).
  rewrite Ha in H. cbn [deref] in H. rewrite H. now eexists.
Qed.

Lemma waves_ok_step e w :
  (forall a, waves w = Some a -> is_Some (heap w !! a)) ->
  forall a, waves (step e w) = Some a -> is_Some (heap (step e w) !! a).
Proof.
  intros H. destruct e; cbn [step].
  - apply waves_ok_init.
  - destruct (waves w) as [a0|] eqn:E.
    + apply (waves_ok_calm w); [apply calm_start; rewrite E; now eexists|].
      intros a Ha. apply H. congruence.
    + rewrite (start_init w E). apply (waves_ok_calm (init w)).
      * apply calm_start. destruct (init_fields w) as (-> & _). now eexists.
      * apply waves_ok_init.
  - apply (waves_ok_calm w); [apply calm_stop | exact H].
  - apply (waves_ok_calm w); [apply calm_fadeAudio | exact H].
  - apply (waves_ok_calm w); [apply calm_fire | exact H].
  - apply (waves_ok_calm w); [apply calm_ended | exact H].
Qed.

Lemma waves_ok_run tr : forall w,
  (forall a, waves w = Some a -> is_Some (heap w !! a)) ->
  forall a, waves (run tr w) = Some a -> is_Some (heap (run tr w) !! a).
Proof.
  induction tr as [|e tr IH]; intros w H; [exact H|].
  change (run (e :: tr) w) with (run tr (step e w)).
  apply IH. now apply waves_ok_step.
Qed.

(** start() once the channels exist: one play() on the waves element,
    which plays afterwards when the platform allows it, and two handles. *)
Lemma start_plays w a :
  waves w = Some a ->
  waves (start w) = Some a /\ autoplay (start w) = autoplay w /\
  log (start w) = EPlay a :: log w /\
  heap (start w) !! a =
    (if autoplay w then with_paused false else id) <$> heap w !! a.
Proof.
  intros E. rewrite (start_unfold w a E).
  unfold scheduleWaves2, scheduleNextBird, play.
  destruct (autoplay w) eqn:Hap; cbn; rewrite ?Hap.
  - repeat split; try assumption. now rewrite list_lookup_alter_eq.
  - repeat split; try assumption. now destruct (heap w !! a).
Qed.

(** ** fadeAudio on a missing element *)

(** The tick of a fade whose element is null: the step is counted, then
    the assignment to [audio.volume] throws. *)
Lemma fire_null iv d s vs cb n w :
  active w !! iv = Some (mkTimer true d (HFade None s vs n cb)) ->
  fire iv w =
  set_active (<[iv := mkTimer true d (HFade None s vs (S n) cb)]> (active w))
    (emit (EFire iv) w).
Proof.
  intros H. unfold fire. rewrite H. unfold run_handler.
  cbn [handler repeating delay].
  change (active (emit (EFire iv) w)) with (active w). f_equal.
  apply map_eq. intros i. destruct (decide (iv = i)) as [<-|Hne].
  - now rewrite lookup_alter_eq, H, lookup_insert_eq.
  - now rewrite lookup_alter_ne, lookup_insert_ne.
Qed.

(** Where a fade on a null element stands after any trace: [st] is the
    number of ticks counted so far while the interval is armed. *)
Lemma null_fade_after iv d s vs cb tr : forall w (st : option nat),
  wf w -> iv < next_id w ->
  active w !! iv =
    match st with
    | Some k => Some (mkTimer true d (HFade None s vs k cb))
    | None => None
    end ->
  completions iv (run tr w) = completions iv w /\
  ticks_run iv (run tr w) =
    ticks_run iv w +
    match st with Some _ => ticks_before_stop iv tr | None => 0 end /\
  active (run tr w) !! iv =
    match st with
    | Some k =>
        if existsb is_stop tr then None
        else Some (mkTimer true d
                     (HFade None s vs (k + ticks_before_stop iv tr) cb))
    | None => None
    end.
Proof.
  induction tr as [|e tr IH]; intros w st Hwf Hlt Ha.
  - cbn [run fold_left ticks_before_stop existsb].
    destruct st; rewrite ?Nat.add_0_r; auto.
  - change (run (e :: tr) w) with (run tr (step e w)).
    assert (Hlt' : iv < next_id (step e w))
      by (pose proof (next_id_step e w); lia).
    pose proof (wf_step e w Hwf) as Hwf'.
    destruct (is_stop e) eqn:Es.
    + destruct e; try discriminate. cbn [step] in *.
      destruct (IH (stop w) None Hwf' Hlt') as (Ic & It & Ia).
      { now rewrite (stop_cancels w Hwf), lookup_empty. }
      destruct (stop_counts iv w) as [Sc St].
      rewrite Ic, It, Ia, Sc, St. cbn [ticks_before_stop existsb is_stop orb].
      destruct st; auto.
    + destruct (decide (touch e = Some iv)) as [Ht|Ht].
      * destruct e; try discriminate. injection Ht as ->. cbn [step] in *.
        cbn [ticks_before_stop existsb is_stop orb]. rewrite Nat.eqb_refl.
        destruct st as [k|].
        -- rewrite (fire_null _ _ _ _ _ _ _ Ha) in *.
           destruct (IH _ (Some (S k)) Hwf' Hlt') as (Ic & It & Ia).
           { cbn. apply lookup_insert_eq. }
           rewrite Ic, It, Ia. unfold completions, ticks_run. cbn [log emit set_active].
           rewrite !count_cons. cbn [is_complete is_fire]. rewrite Nat.eqb_refl.
           split; [reflexivity|]. split; [lia|].
           destruct (existsb is_stop tr); [reflexivity|]. do 3 f_equal. lia.
        -- rewrite (fire_inactive _ _ Ha) in *.
           exact (IH w None Hwf Hlt Ha).
      * destruct (quiet_step e w iv Es Ht Hlt) as (Qa & Qc & Qt).
        destruct (IH (step e w) st Hwf' Hlt') as (Ic & It & Ia);
          [now rewrite Qa|].
        assert (Ht' : ticks_before_stop iv (e :: tr) = ticks_before_stop iv tr).
        { destruct e; try reflexivity; try discriminate.
          cbn [ticks_before_stop].
          destruct (Nat.eqb_spec id iv); [subst; now contradict Ht | reflexivity]. }
        rewrite Ic, It, Ia, Qc, Qt, Ht'. cbn [existsb]. rewrite Es.
        cbn [orb]. auto.
Qed.

(** A fade just requested: no callback of its interval is in the log. *)
Lemma fresh_counts w :
  wf w -> completions (next_id w) w = 0 /\ ticks_run (next_id w) w = 0.
Proof.
  intros [_ Hl]. split; apply (count_known _ (next_id w)); try exact Hl;
    intros [] E; simpl in *; try discriminate;
    apply Nat.eqb_eq in E; lia.
Qed.

(** * The claims *)

(** C1 as it fails: stop() does not take back an 'ended' event and does
    not remove the listener of the bird element.  The bird one-shot plays,
    stop() is called and leaves no timer armed; the 'ended' event of the
    one-shot is dispatched after stop(), its listener arms a new bird timer
    (handle 3), and that timer fires and plays the bird channel.  No second
    init() is needed for this; with one, the same happens on the element
    that init() replaced. *)
Lemma stop_then_ended_listener_fires :
  let tape := [0.5%Q; 0.5%Q; 0.5%Q] in
  let w := run [Start; Fire 1; Stop] (boot tape true) in
  let w' := run [Ended 1; Fire 3] w in
  let v := run [Ended 1; Fire 3]
             (run [Start; Fire 1; Init; Stop] (boot tape true)) in
  active w = ∅ /\
  active (ended 1 w) !! 3 = Some (mkTimer false (0.5 * 17000 + 8000)%Q HBird) /\
  ticks_run 3 w = 0 /\ ticks_run 3 w' = 1 /\
  count is_play (log w') = S (count is_play (log w)) /\
  paused <$> heap w !! 1 = Some true /\
  paused <$> heap w' !! 1 = Some false /\
  ticks_run 3 v = 1.
Proof. vm_compute. repeat split. Qed.

(** C1, amended.  stop() cancels every timer that is armed, in every
    reachable state, and empties [this.timers]: after it, firings alone run
    no callback and change nothing at all.  It does not silence the
    'ended' listener.  Whatever firings and 'ended' events follow stop(),
    the timers that are armed are one-shot bird timers only, and the only
    effects are deliveries of 'ended', callbacks of such timers and the
    seek and play() of the bird channel they make: no volume is written,
    pause() is not called, no swell or fade runs and no completion
    callback is called.  And on the page as loaded an 'ended' event
    dispatched at the bird element after stop() does arm a new bird timer,
    the only timer armed then, which seeks and plays the bird channel
    when it fires. *)
Theorem stop_cancels_timers_not_listeners
    (tape : list Q) (ap : bool) (tr tr' : list Event) (ids : list nat)
    (es : list Event) :
  let w := stop (run tr (literal tape ap)) in
  let v := stop (run tr' (boot tape ap)) in
  forallb is_env es = true ->
  active w = ∅ /\ timers w = [] /\
  run (map Fire ids) w = w /\
  birds_only (run es w) /\
  (exists l, log (run es w) = l ++ log w /\
             Forall (bird_replay (birds w)) l) /\
  exists b,
    birds v = Some b /\
    active (ended b v) =
      {[ next_id v :=
           mkTimer false (hd 0%Q (entropy v) * 17000 + 8000)%Q HBird ]} /\
    log (fire (next_id v) (ended b v)) =
      EPlay b :: ESeek b :: EFire (next_id v) :: EEnded b :: log v.
Proof.
  intros w v He.
  assert (Ha : active w = ∅) by apply stop_cancels, wf_run, wf_literal.
  split; [exact Ha|]. split; [reflexivity|].
  split; [now apply fires_nothing|].
  destruct (birds_only_run es w He) as (B & _ & L).
  { intros id t Ht. rewrite Ha, lookup_empty in Ht. discriminate. }
  split; [exact B|]. split; [exact L|].
  assert (Hv : active v = ∅).
  { apply stop_cancels.
    change (boot tape ap) with (run [Init] (literal tape ap)).
    rewrite <- run_app. apply wf_run, wf_literal. }
  assert (Hw : wired v).
  { change v with (step Stop (run tr' (boot tape ap))).
    apply wired_step, wired_run, wired_init. }
  destruct Hw as (a & b & c & au & bu & cu & _ & Eb & _ & _ & Hb & _ & _
                  & [Lb Ob] & _).
  exists b. split; [exact Eb|].
  exact (ended_after_stop b bu v Hv Eb Hb Lb Ob).
Qed.

Lemma stop_cancels_timers_not_listeners_witness :
  let w := stop (run [Init; Start; Fire 1; Fire 2; Fire 3]
                     (literal [0.5%Q; 0.5%Q; 0.5%Q] true)) in
  run (map Fire [1; 2; 3; 4]) w = w /\
  birds_only (run [Ended 1; Fire 1; Fire 5; Ended 0] w).
Proof.
  intros w.
  pose proof (stop_cancels_timers_not_listeners [0.5%Q; 0.5%Q; 0.5%Q] true
                [Init; Start; Fire 1; Fire 2; Fire 3] [] [1; 2; 3; 4]
                [Ended 1; Fire 1; Fire 5; Ended 0] eq_refl) as H.
  cbv zeta in H. fold w in H. destruct H as (_ & _ & F & B & _).
  split; [exact F | exact B].
Defined.

(** C2 as it fails: a second fadeAudio on the same element, issued after
    one tick of the first, does not cancel the first; both intervals run
    their 60 ticks and both completion callbacks are called. *)
Lemma fadeAudio_second_does_not_supersede :
  let first := FadeAudio (Some 2) 0%Q 1%Q 6000%Q (Some (KHost 1)) in
  let second := FadeAudio (Some 2) 1%Q 0%Q 6000%Q (Some (KHost 2)) in
  let w := run ([first; Fire 1; second]
                ++ concat (repeat [Fire 1; Fire 2] 59) ++ [Fire 2])
               (boot [] true) in
  ticks_run 1 (run [first; Fire 1] (boot [] true)) = 1 /\
  count (is_host 1) (log w) = 1 /\
  count (is_host 2) (log w) = 1.
Proof. vm_compute. repeat split. Qed.

(** C2, amended.  fadeAudio does not look for an envelope already running
    on the element.  When a second fadeAudio is issued on the same element
    while the first is still live, the first interval stays armed, with
    its ticks done so far, and from then on each of the two envelopes calls
    its own completion callback once, when its own 60 ticks have run before
    the first stop(). *)
Theorem fadeAudio_envelopes_are_independent
    (tape : list Q) (ap : bool) (tr0 : list Event) (a : nat)
    (s1 e1 d1 : Q) (cb1 : Cb) (s2 e2 d2 : Q) (cb2 : Cb)
    (tr1 tr2 : list Event) :
  let w := run tr0 (literal tape ap) in
  let iv1 := next_id w in
  let w1 := run tr1 (fadeAudio (Some a) s1 e1 d1 (Some cb1) w) in
  let iv2 := next_id w1 in
  let w2 := fadeAudio (Some a) s2 e2 d2 (Some cb2) w1 in
  let n1 := ticks_before_stop iv1 tr1 in
  existsb is_stop tr1 = false ->
  n1 < steps ->
  active w2 !! iv1 =
    Some (fade_timer (d1 / inject_Z (Z.of_nat steps))%Q a s1
            ((e1 - s1) / inject_Z (Z.of_nat steps))%Q (Some cb1) n1) /\
  completions iv1 (run tr2 w2) =
    (if steps <=? n1 + ticks_before_stop iv1 tr2 then 1 else 0) /\
  completions iv2 (run tr2 w2) =
    (if steps <=? ticks_before_stop iv2 tr2 then 1 else 0).
Proof.
  intros w iv1 w1 iv2 w2 n1 Hns Hn1.
  assert (Hwf : wf w) by apply wf_run, wf_literal.
  assert (Hwf1 : wf w1).
  { apply wf_run. eapply (wf_frame None);
      [discriminate | exact Hwf | apply frame_fadeAudio]. }
  split; [|split].
  - pose proof (envelope_after a s1 e1 d1 (Some cb1) w
                  (tr1 ++ [FadeAudio (Some a) s2 e2 d2 (Some cb2)]) Hwf) as H.
    rewrite run_app, ticks_before_stop_app, existsb_stop_app, Hns in H.
    cbn [ticks_before_stop existsb is_stop orb] in H.
    fold iv1 in H. fold n1 in H. rewrite Nat.add_0_r in H.
    destruct (Nat.leb_spec steps n1); [lia|].
    destruct H as (_ & _ & _ & H & _). exact H.
  - pose proof (envelope_counts a s1 e1 d1 (Some cb1) w
                  (tr1 ++ FadeAudio (Some a) s2 e2 d2 (Some cb2) :: tr2) Hwf)
      as [_ H].
    rewrite run_app, ticks_before_stop_app, Hns in H.
    cbn [ticks_before_stop] in H. exact H.
  - exact (proj2 (envelope_counts a s2 e2 d2 (Some cb2) w1 tr2 Hwf1)).
Qed.

Lemma fadeAudio_envelopes_are_independent_witness :
  let w2 := fadeAudio (Some 2) 1%Q 0%Q 6000%Q (Some (KHost 2))
              (run [Fire 1]
                 (fadeAudio (Some 2) 0%Q 1%Q 6000%Q (Some (KHost 1))
                    (run [Init] (literal [] true)))) in
  let tr2 := concat (repeat [Fire 1; Fire 2] 59) ++ [Fire 2] in
  completions 1 (run tr2 w2) = 1 /\ completions 2 (run tr2 w2) = 1.
Proof.
  refine (proj2 (fadeAudio_envelopes_are_independent [] true [Init] 2
            0%Q 1%Q 6000%Q (KHost 1) 1%Q 0%Q 6000%Q (KHost 2)
            [Fire 1] (concat (repeat [Fire 1; Fire 2] 59) ++ [Fire 2])
            _ _)).
  - vm_compute. reflexivity.
  - vm_compute. lia.
Defined.

(** C3 as it fails: a second start() right after the first arms a second
    bird timer and a second swell timer. *)
Lemma start_twice_arms_twice :
  let tape := [0.5%Q; 0.5%Q; 0.5%Q; 0.5%Q] in
  let w1 := run [Start] (boot tape true) in
  let w2 := run [Start; Start] (boot tape true) in
  armed is_bird w1 = 1 /\ armed is_waves2 w1 = 1 /\
  armed is_bird w2 = 2 /\ armed is_waves2 w2 = 2 /\
  w2 <> w1.
Proof.
  repeat split; try (vm_compute; reflexivity).
  intros H. apply (f_equal next_id) in H. vm_compute in H. discriminate.
Qed.

(** C3, amended.  start() has no guard on the state of the session (only
    init() is guarded, by the test on waves): in every reachable state a
    call calls play() on the waves element once more, which plays
    afterwards when the platform allows playback, and arms one more bird
    timer and one more swell timer, so two calls in a row leave two more
    chains of each kind armed than before, one more than a single call,
    and have called play() twice. *)
Theorem start_arms_one_more_chain_each_call
    (tape : list Q) (ap : bool) (tr : list Event) :
  let w := run tr (literal tape ap) in
  armed is_bird (start w) = 1 + armed is_bird w /\
  armed is_waves2 (start w) = 1 + armed is_waves2 w /\
  armed is_bird (start (start w)) = 2 + armed is_bird w /\
  armed is_waves2 (start (start w)) = 2 + armed is_waves2 w /\
  exists a,
    waves (start w) = Some a /\ waves (start (start w)) = Some a /\
    count (is_play_of a) (log (start w)) =
      1 + count (is_play_of a) (log w) /\
    count (is_play_of a) (log (start (start w))) =
      2 + count (is_play_of a) (log w) /\
    (autoplay w = true ->
     paused <$> heap (start w) !! a = Some false /\
     paused <$> heap (start (start w)) !! a = Some false).
Proof.
  intros w.
  assert (Hwf : wf w) by apply wf_run, wf_literal.
  assert (Hwf' : wf (start w)) by apply (wf_step Start w Hwf).
  rewrite !(armed_start _ (start w) Hwf'), !(armed_start _ w Hwf).
  split; [reflexivity|]. split; [reflexivity|].
  split; [reflexivity|]. split; [reflexivity|].
  assert (Hok : forall a, waves w = Some a -> is_Some (heap w !! a)).
  { apply waves_ok_run. discriminate. }
  assert (H0 : exists w0 a,
             start w = start w0 /\ waves w0 = Some a /\
             is_Some (heap w0 !! a) /\ autoplay w0 = autoplay w /\
             count (is_play_of a) (log w0) = count (is_play_of a) (log w)).
  { destruct (waves w) as [a|] eqn:E.
    - exists w, a. repeat split; auto.
    - exists (init w), (length (heap w)).
      destruct (init_fields w) as (Ew & _ & _ & _ & _ & _ & _ & Eap).
      split; [now apply start_init|]. split; [exact Ew|].
      split; [now apply waves_ok_init|]. split; [exact Eap|].
      rewrite init_log, count_app. reflexivity. }
  destruct H0 as (w0 & a & Es & Ew & [au Hau] & Eap & Ec).
  destruct (start_plays w0 a Ew) as (W1 & A1 & L1 & H1).
  rewrite <- Es in W1, A1, L1, H1.
  destruct (start_plays (start w) a W1) as (W2 & A2 & L2 & H2).
  exists a. split; [exact W1|]. split; [exact W2|].
  split; [|split].
  - rewrite L1, count_cons, Ec. cbn [is_play_of]. now rewrite Nat.eqb_refl.
  - rewrite L2, L1, !count_cons, Ec. cbn [is_play_of].
    now rewrite Nat.eqb_refl.
  - intros Hap. rewrite H2, H1, A1, Eap, Hap, Hau. split; reflexivity.
Qed.

(** C4 as it fails: fadeAudio with a null element.  Every tick counts its
    step and throws on the assignment to the volume, before the test of
    the step: the interval runs through 60 ticks, and through 60 more, and
    the completion callback is never invoked. *)
Lemma fadeAudio_null_ticks_without_cb :
  let w1 := fadeAudio None 0%Q 0.8%Q 5000%Q (Some (KHost 7)) (boot [] true) in
  let w60 := run (repeat (Fire 1) 60) w1 in
  let w120 := run (repeat (Fire 1) 120) w1 in
  ticks_run 1 w60 = 60 /\ count (is_host 7) (log w60) = 0 /\
  ticks_run 1 w120 = 120 /\ count (is_host 7) (log w120) = 0 /\
  completions 1 w120 = 0.
Proof. vm_compute. repeat split. Qed.

(** C4, amended.  For fadeAudio(audio, startVol, endVol, duration, cb),
    called in any reachable state and whatever else happens in between and
    afterwards: when audio is an element, cb is invoked exactly once if
    the interval ran 60 ticks before the first stop() and not at all
    otherwise.  It is the 60th tick that invokes it, after the write of
    the volume and the clearing of the interval; a tick before the 60th
    only writes the volume and keeps its count, and after the 60th tick or
    a stop() the interval is gone and a firing does nothing.  When stop()
    comes before the 60th tick, cb is never invoked.  When audio is null,
    a tick only counts its step and cb is never invoked, however many
    ticks run. *)
Theorem fadeAudio_cb_once_iff_completed
    (tape : list Q) (ap : bool) (tr0 : list Event)
    (audio : option nat) (startVol endVol duration : Q) (cb : Cb)
    (tr tr1 tr2 : list Event) :
  let w := run tr0 (literal tape ap) in
  let iv := next_id w in
  let w1 := fadeAudio audio startVol endVol duration (Some cb) w in
  let w' := run tr w1 in
  let n := ticks_before_stop iv tr in
  let d := (duration / inject_Z (Z.of_nat steps))%Q in
  let vs := ((endVol - startVol) / inject_Z (Z.of_nat steps))%Q in
  ticks_before_stop iv tr1 < steps ->
  match audio with
  | Some a =>
      completions iv w' = (if steps <=? n then 1 else 0) /\
      ticks_run iv w' = Nat.min steps n /\
      if existsb is_stop tr || (steps <=? n) then fire iv w' = w'
      else if Nat.eqb (S n) steps then
        fire iv w' =
          cb_body cb
            (emit (EComplete iv)
               (set_volume a (fade_volume startVol vs (S n))
                  (set_active (delete iv (active w')) (emit (EFire iv) w')))) /\
        forall tag, cb = KHost tag ->
          log (fire iv w') =
            EHost tag :: EComplete iv
              :: EVolume a (fade_volume startVol vs (S n))
              :: EFire iv :: log w'
      else
        fire iv w' =
          set_volume a (fade_volume startVol vs (S n))
            (set_active
               (<[iv := fade_timer d a startVol vs (Some cb) (S n)]> (active w'))
               (emit (EFire iv) w'))
  | None =>
      completions iv w' = 0 /\
      ticks_run iv w' = n /\
      if existsb is_stop tr then fire iv w' = w'
      else
        fire iv w' =
          set_active
            (<[iv := mkTimer true d (HFade None startVol vs (S n) (Some cb))]>
               (active w'))
            (emit (EFire iv) w')
  end /\
  completions iv (run (tr1 ++ Stop :: tr2) w1) = 0.
Proof.
  intros w iv w1 w' n d vs Hlt.
  assert (Hwf : wf w) by apply wf_run, wf_literal.
  destruct audio as [a|].
  - pose proof (envelope_after a startVol endVol duration (Some cb) w tr Hwf)
      as Hp.
    destruct (envelope_counts a startVol endVol duration (Some cb) w tr Hwf)
      as [Hf Hc].
    destruct (envelope_counts a startVol endVol duration (Some cb) w
                (tr1 ++ Stop :: tr2) Hwf) as [_ Hc'].
    fold iv in Hp, Hf, Hc, Hc'. fold w1 in Hp, Hf, Hc, Hc'.
    fold w' in Hp, Hf, Hc. fold n in Hp, Hf, Hc. fold d in Hp. fold vs in Hp.
    split; [split; [|split]|].
    + rewrite Hc. cbn [cb_count]. reflexivity.
    + exact Hf.
    + destruct Hp as (_ & _ & Hp).
      destruct (Nat.leb_spec steps n) as [Hle|Hgt].
      * rewrite orb_true_r. destruct Hp as (Ha & _). now apply fire_inactive.
      * rewrite orb_false_r. destruct (existsb is_stop tr).
        -- destruct Hp as (_ & Ha & _). now apply fire_inactive.
        -- destruct Hp as (_ & Ha & _).
           destruct (Nat.eqb_spec (S n) steps) as [E|E].
           ++ assert (Hk : (steps <=? S n) = true) by (apply Nat.leb_le; lia).
              pose proof (fire_tick_last _ _ _ _ _ _ _ _ Ha Hk) as F.
              cbv zeta in F. split; [exact F|].
              intros tag ->. rewrite F. reflexivity.
           ++ assert (Hk : (steps <=? S n) = false) by (apply Nat.leb_gt; lia).
              exact (fire_tick_early _ _ _ _ _ _ _ _ Ha Hk).
    + rewrite Hc'. rewrite ticks_before_stop_app.
      cbn [ticks_before_stop]. destruct (existsb is_stop tr1);
        rewrite Nat.add_0_r;
        destruct (Nat.leb_spec steps (ticks_before_stop iv tr1));
        (lia || reflexivity).
  - assert (Hwf1 : wf w1).
    { eapply (wf_frame None); [discriminate | exact Hwf | apply frame_fadeAudio]. }
    assert (Hlt1 : iv < next_id w1) by (cbn; unfold iv; lia).
    assert (Ha1 : active w1 !! iv =
                  Some (mkTimer true d (HFade None startVol vs 0 (Some cb))))
      by (cbn; apply lookup_insert_eq).
    destruct (fresh_counts w Hwf) as [C0 T0].
    assert (C1 : completions iv w1 = 0) by exact C0.
    assert (T1 : ticks_run iv w1 = 0) by exact T0.
    destruct (null_fade_after iv d startVol vs (Some cb) tr w1 (Some 0)
                Hwf1 Hlt1 Ha1) as (Ic & It & Ia).
    destruct (null_fade_after iv d startVol vs (Some cb) (tr1 ++ Stop :: tr2)
                w1 (Some 0) Hwf1 Hlt1 Ha1) as (Ic' & _).
    fold w' in Ic, It, Ia. fold n in It, Ia.
    split; [split; [|split]|].
    + now rewrite Ic.
    + now rewrite It, T1.
    + destruct (existsb is_stop tr).
      * now apply fire_inactive.
      * now apply fire_null.
    + now rewrite Ic'.
Qed.

Lemma fadeAudio_cb_once_iff_completed_witness :
  let w1 := fadeAudio (Some 2) 0%Q 0.8%Q 5000%Q (Some (KHost 7))
              (run [Init; Start] (literal [] true)) in
  completions 3 (run (repeat (Fire 3) 60) w1) = 1 /\
  hd_error (log (fire 3 (run (repeat (Fire 3) 59) w1))) = Some (EHost 7) /\
  completions 3 (run ([Fire 3; Fire 3] ++ Stop :: [Fire 3]) w1) = 0.
Proof.
  intros w1.
  assert (Hlt : ticks_before_stop 3 [Fire 3; Fire 3] < steps)
    by (vm_compute; lia).
  pose proof (fadeAudio_cb_once_iff_completed [] true [Init; Start] (Some 2)
                0%Q 0.8%Q 5000%Q (KHost 7) (repeat (Fire 3) 60)
                [Fire 3; Fire 3] [Fire 3] Hlt) as [(H60 & _) Hs].
  pose proof (fadeAudio_cb_once_iff_completed [] true [Init; Start] (Some 2)
                0%Q 0.8%Q 5000%Q (KHost 7) (repeat (Fire 3) 59)
                [Fire 3; Fire 3] [Fire 3] Hlt) as [(_ & _ & H59) _].
  split; [exact H60|]. split; [|exact Hs].
  destruct H59 as [_ H59]. exact (f_equal hd_error (H59 7 eq_refl)).
Defined.

(** C5.  Whatever the host and the timers do, and whatever start and end
    volumes fadeAudio is called with, every value the manager writes to the
    volume of an element lies in the closed unit interval. *)
Theorem volume_written_in_unit_interval
    (tape : list Q) (ap : bool) (tr : list Event) (a : nat) (v : Q) :
  In (EVolume a v) (log (run tr (literal tape ap))) ->
  (0 <= v /\ v <= 1)%Q.
Proof.
  intros Hin.
  assert (H : Forall in_range (log (run tr (literal tape ap))))
    by (apply in_range_run; constructor).
  rewrite List.Forall_forall in H. exact (H _ Hin).
Qed.

Lemma volume_written_in_unit_interval_witness :
  let tr := [Init; FadeAudio (Some 2) (-3)%Q 250%Q 100%Q None;
             Fire 1; Fire 1] in
  In (EVolume 2 1%Q) (log (run tr (literal [] true))) /\
  (0 <= 1 /\ 1 <= 1)%Q.
Proof.
  assert (Hin : In (EVolume 2 1%Q)
                   (log (run [Init; FadeAudio (Some 2) (-3)%Q 250%Q 100%Q None;
                              Fire 1; Fire 1] (literal [] true)))).
  { vm_compute. left. reflexivity. }
  split; [exact Hin|].
  exact (volume_written_in_unit_interval [] true _ 2 1%Q Hin).
Defined.

(** C6 as it fails: a fade to an end volume of 2 runs to completion and
    its last step writes 1, not 2. *)
Lemma fadeAudio_final_volume_is_clamped :
  let w := run (FadeAudio (Some 2) 0%Q 2%Q 5000%Q (Some (KHost 1))
                :: repeat (Fire 1) 60) (boot [] true) in
  completions 1 w = 1 /\
  hd_error (volume_writes 2 (log w)) = Some 1%Q /\
  volume <$> (heap w !! 2) = Some 1%Q /\
  ~ (1 == 2)%Q.
Proof.
  vm_compute. repeat split. discriminate.
Qed.

(** C6, amended.  The 60th tick of a fadeAudio(audio, startVol, endVol,
    ...) that was not stopped writes the value of the same formula as every
    other tick, clamp(startVol + volStep * 60); there is no separate
    assignment of endVol.  In exact arithmetic that value is endVol clamped
    to [0,1], hence endVol itself when endVol lies in [0,1]. *)
Theorem fadeAudio_final_volume
    (tape : list Q) (ap : bool) (tr0 : list Event)
    (a : nat) (startVol endVol duration : Q) (cb : option Cb)
    (tr : list Event) :
  let w := run tr0 (literal tape ap) in
  let iv := next_id w in
  let w59 := run tr (fadeAudio (Some a) startVol endVol duration cb w) in
  let w60 := fire iv w59 in
  let v := fade_volume startVol
             ((endVol - startVol) / inject_Z (Z.of_nat steps))%Q steps in
  existsb is_stop tr = false ->
  ticks_before_stop iv tr = 59 ->
  volume_writes a (log w60) = v :: volume_writes a (log w59) /\
  volume <$> (heap w60 !! a) = (fun _ => v) <$> (heap w59 !! a) /\
  (v == Math_max 0 (Math_min 1 endVol))%Q /\
  ((0 <= endVol)%Q -> (endVol <= 1)%Q -> (v == endVol)%Q) /\
  active w60 !! iv = None.
Proof.
  intros w iv w59 w60 v Hns Hn.
  assert (Hwf : wf w) by apply wf_run, wf_literal.
  pose proof (envelope_after a startVol endVol duration cb w tr Hwf) as H.
  fold iv in H. fold w59 in H. rewrite Hns, Hn in H.
  change (steps <=? 59) with false in H. cbv iota in H.
  destruct H as (_ & Hlt & _ & Ha & _).
  assert (Hk : (steps <=? 60) = true) by reflexivity.
  destruct (fire_tick_last_volume _ _ _ _ _ _ _ _ Ha Hk) as [Hv Hh].
  destruct (fire_tick _ _ _ _ _ _ _ _ Ha Hlt) as [_ Hrest].
  rewrite Hk in Hrest. destruct Hrest as [Hnone _].
  split; [exact Hv|]. split; [exact Hh|].
  split; [apply fade_volume_final|].
  split; [|exact Hnone].
  intros H0 H1. unfold v. rewrite fade_volume_final.
  now apply Math_clamp_id.
Qed.

Lemma fadeAudio_final_volume_witness :
  let w59 := run (repeat (Fire 1) 59)
               (fadeAudio (Some 2) 0%Q 0.8%Q 5000%Q (Some (KHost 1))
                  (run [Init] (literal [] true))) in
  let v := fade_volume 0%Q ((0.8 - 0) / inject_Z (Z.of_nat steps))%Q steps in
  volume <$> (heap (fire 1 w59) !! 2) = Some v /\ (v == 0.8)%Q.
Proof.
  destruct (fadeAudio_final_volume [] true [Init] 2 0%Q 0.8%Q 5000%Q
              (Some (KHost 1)) (repeat (Fire 1) 59))
    as (_ & Hh & _ & Hv & _).
  - vm_compute. reflexivity.
  - vm_compute. reflexivity.
  - split.
    + etransitivity; [exact Hh|]. vm_compute. reflexivity.
    + apply Hv; vm_compute; discriminate.
Defined.

(** C7 as it fails: firing the bird timer plays the one-shot and arms no
    timer, and firing the swell timer starts the fade-in and arms no swell
    timer; the session was not stopped.  When the platform refuses
    playback, the bird timer leaves the bird element paused and no timer
    armed: there is no playback whose end could bring the chain back, and
    the bird chain is over without any stop(). *)
Lemma cue_firing_does_not_rearm :
  let tape := [0.5%Q; 0.5%Q; 0.5%Q; 0.5%Q; 0.5%Q; 0.5%Q] in
  let w := run [Start] (boot tape true) in
  let wd := run [Start; Fire 1] (boot tape false) in
  armed is_bird w = 1 /\ armed is_bird (fire 1 w) = 0 /\
  armed is_waves2 w = 1 /\ armed is_waves2 (fire 2 w) = 0 /\
  armed is_bird wd = 0 /\ armed is_any wd = 1 /\
  paused <$> heap wd !! 1 = Some true.
Proof. vm_compute. repeat split. Qed.

(** C7, amended.  While init() is not called again, each chain re-arms
    itself when the effect it started is over, not when it fires.
    Bird chain: the timer plays the one-shot and arms nothing; when
    'ended' is dispatched at the element, its listener arms the next bird
    timer with a new sample.
    Swell chain: the timer starts the fade-in; the end of the fade-in arms
    the hold; the hold starts the fade-out; the end of the fade-out pauses
    waves2 (the call of pause() is the last effect of that tick, and the
    element is paused after it) and arms the next swell timer with a new
    sample. *)
Theorem cue_chains_rearm_on_completion
    (tape : list Q) (ap : bool) (tr : list Event) :
  existsb is_init tr = false ->
  let w := run tr (boot tape ap) in
  let r := hd 0%Q (entropy w) in
  (forall id d, active w !! id = Some (mkTimer false d HBird) ->
     active (fire id w) = delete id (active w) /\
     (ap = true -> paused <$> (heap (fire id w) !! 1) = Some false)) /\
  (active (ended 1 w) =
     <[next_id w := mkTimer false (r * 17000 + 8000)%Q HBird]> (active w) /\
   next_id w ∈ timers (ended 1 w)) /\
  (forall id d, active w !! id = Some (mkTimer false d HWaves2) ->
     exists d' tv du fo,
       active (fire id w) =
         <[next_id w :=
             fade_timer d' 2 0%Q ((tv - 0) / inject_Z (Z.of_nat steps))%Q
               (Some (KHold tv du fo)) 0]> (delete id (active w))) /\
  (forall iv d s vs tv du fo,
     active w !! iv = Some (fade_timer d 2 s vs (Some (KHold tv du fo)) 59) ->
     active (fire iv w) =
       <[next_id w := mkTimer false du (HHold tv fo)]> (delete iv (active w))) /\
  (forall id d tv fo, active w !! id = Some (mkTimer false d (HHold tv fo)) ->
     active (fire id w) =
       <[next_id w :=
           fade_timer (fo / inject_Z (Z.of_nat steps))%Q 2 tv
             ((0 - tv) / inject_Z (Z.of_nat steps))%Q (Some KRearm) 0]>
         (delete id (active w))) /\
  (forall iv d s vs,
     active w !! iv = Some (fade_timer d 2 s vs (Some KRearm) 59) ->
     active (fire iv w) =
       <[next_id w := mkTimer false (r * 20000 + 10000)%Q HWaves2]>
         (delete iv (active w)) /\
     next_id w ∈ timers (fire iv w) /\
     hd_error (log (fire iv w)) = Some (EPause 2) /\
     paused <$> (heap (fire iv w) !! 2) = Some true).
Proof.
  intros Hi w r.
  destruct (loaded_page tape ap tr Hi)
    as (_ & Hb & Hc & Hap & (au & Hau & Hl & Ho) & cu & Hcu).
  fold w in Hb, Hc, Hap, Hau, Hcu.
  split; [|split; [|split; [|split; [|split]]]].
  - intros id d H. destruct (fire_bird id d 1 w H Hb) as [Ha Hp].
    split; [exact Ha|]. intros ->. now apply (Hp Hap au).
  - now apply (ended_rearms 1 au).
  - intros id d H. do 4 eexists. exact (fire_swell id d 2 w H Hc).
  - intros iv d s vs tv du fo H. now apply (fire_fade_in_done iv d 2 s vs).
  - intros id d tv fo H. now apply (fire_hold id d).
  - intros iv d s vs H.
    destruct (fire_fade_out_done iv d 2 s vs 2 w H Hc) as (Ha & Ht & Hl' & Hp).
    split; [exact Ha|]. split; [exact Ht|]. split; [exact Hl'|].
    exact (Hp cu Hcu).
Qed.

Lemma cue_chains_rearm_on_completion_witness :
  let w := run [Start; Fire 1; Stop; Start]
             (boot [0.5%Q; 0.5%Q; 0.5%Q; 0.5%Q; 0.5%Q] true) in
  active (ended 1 w) =
    <[next_id w := mkTimer false (hd 0%Q (entropy w) * 17000 + 8000)%Q HBird]>
      (active w) /\
  next_id w ∈ timers (ended 1 w).
Proof.
  refine (proj1 (proj2 (cue_chains_rearm_on_completion
            [0.5%Q; 0.5%Q; 0.5%Q; 0.5%Q; 0.5%Q] true
            [Start; Fire 1; Stop; Start] _)));
    reflexivity.
Defined.

(** C8.  A second init() leaves the session as the first one left it: the
    three channels have the same state (new elements with the same source,
    loop flag, volume, position, paused state and listener), and handles,
    timers, tape and policy are untouched; the elements that existed are
    not modified.  init() calls play() on nothing: the log gains three
    volume writes only, the elements that existed keep their state, and the
    three channels it leaves are paused. *)
Theorem init_idempotent_and_silent (w : World) :
  session_view (init (init w)) = session_view (init w) /\
  (forall a au, heap (init w) !! a = Some au ->
                heap (init (init w)) !! a = Some au) /\
  count is_play (log (init w)) = count is_play (log w) /\
  (forall a au, heap w !! a = Some au -> heap (init w) !! a = Some au) /\
  (forall c au, is_channel c (init w) -> heap (init w) !! c = Some au ->
                paused au = true).
Proof.
  assert (Hold : forall w a au, heap w !! a = Some au ->
                                heap (init w) !! a = Some au).
  { intros w0 a au H. rewrite init_heap. now apply lookup_app_l_Some. }
  split; [|split; [|split; [|split]]].
  - unfold session_view.
    destruct (init_channels (init w)) as (-> & -> & ->).
    destruct (init_channels w) as (-> & -> & ->).
    destruct (init_fields (init w)) as (_ & _ & _ & -> & -> & -> & -> & ->).
    reflexivity.
  - apply Hold.
  - rewrite init_log, count_app. reflexivity.
  - apply Hold.
  - intros c au Hc H.
    destruct (init_channels w) as (H0 & H1 & H2).
    unfold is_channel in Hc. unfold deref in H0, H1, H2.
    destruct Hc as [E | [E | E]]; rewrite E in *.
    + rewrite H in H0. injection H0 as ->. reflexivity.
    + rewrite H in H1. injection H1 as ->. reflexivity.
    + rewrite H in H2. injection H2 as ->. reflexivity.
Qed.

(** C9.  scheduleNextBird arms a one-shot timer for the bird callback whose
    delay is r * 17000 + 8000 for the sample r that Math.random() returns;
    for every r in [0,1) that delay lies in [8000, 25000). *)
Theorem scheduleNextBird_delay_in_range
    (w : World) (r : Q) (rest : list Q) :
  entropy w = r :: rest ->
  (0 <= r)%Q -> (r < 1)%Q ->
  active (scheduleNextBird w) !! next_id w =
    Some (mkTimer false (r * 17000 + 8000)%Q HBird) /\
  next_id w ∈ timers (scheduleNextBird w) /\
  (8000 <= r * 17000 + 8000)%Q /\ (r * 17000 + 8000 < 25000)%Q.
Proof.
  intros He H0 H1. rewrite scheduleNextBird_arm, He. simpl.
  split; [apply lookup_insert_eq|].
  split; [apply elem_of_app; right; now apply list_elem_of_singleton|].
  now apply bird_delay_range.
Qed.

Lemma scheduleNextBird_delay_in_range_witness :
  let w := boot [0.999%Q; 0.5%Q] true in
  delay <$> (active (scheduleNextBird w) !! 1) = Some (0.999 * 17000 + 8000)%Q /\
  (8000 <= 0.999 * 17000 + 8000)%Q /\ (0.999 * 17000 + 8000 < 25000)%Q.
Proof.
  destruct (scheduleNextBird_delay_in_range (boot [0.999%Q; 0.5%Q] true)
              0.999%Q [0.5%Q]) as (Ha & _ & Hr).
  - reflexivity.
  - vm_compute. discriminate.
  - vm_compute. reflexivity.
  - split; [|exact Hr]. change (next_id (boot [0.999%Q; 0.5%Q] true)) with 1 in Ha.
    now rewrite Ha.
Defined.

(** C10 as it fails: fadeAudio with a null element is not cancelled and
    does not terminate.  After 75 ticks the interval is still armed, with
    75 steps counted; no volume was written by it and it will tick
    forever. *)
Lemma fadeAudio_null_audio_never_clears :
  let w1 := fadeAudio None 0.3%Q 0%Q 600%Q None (boot [] true) in
  let w' := run (repeat (Fire 1) 75) w1 in
  ticks_run 1 w' = 75 /\
  active w' !! 1 =
    Some (mkTimer true (600 / inject_Z (Z.of_nat steps))%Q
            (HFade None 0.3%Q ((0 - 0.3) / inject_Z (Z.of_nat steps))%Q 75 None)) /\
  log w' = repeat (EFire 1) 75 ++ log w1.
Proof. vm_compute. repeat split. Qed.

(** C10, amended.  A fadeAudio on an element that is not cancelled by
    stop() ends by itself: its tick runs once per firing, the entry of the
    interval carries the number of ticks done while that number is below
    60, and the 60th tick removes the interval, so that later firings find
    nothing.  This holds for every duration, zero and negative ones
    included, and whatever other events are interleaved.  A fadeAudio on a
    null element never ends: every firing runs its tick, the entry carries
    the number of ticks done, whatever that number, and the interval stays
    armed until stop() is called. *)
Theorem fadeAudio_runs_60_steps_then_clears
    (tape : list Q) (ap : bool) (tr0 : list Event)
    (audio : option nat) (startVol endVol duration : Q) (cb : option Cb)
    (tr : list Event) :
  let w := run tr0 (literal tape ap) in
  let iv := next_id w in
  let w' := run tr (fadeAudio audio startVol endVol duration cb w) in
  let n := ticks_before_stop iv tr in
  let d := (duration / inject_Z (Z.of_nat steps))%Q in
  let vs := ((endVol - startVol) / inject_Z (Z.of_nat steps))%Q in
  existsb is_stop tr = false ->
  match audio with
  | Some a =>
      ticks_run iv w' = Nat.min steps n /\
      active w' !! iv =
        (if n <? steps then Some (fade_timer d a startVol vs cb n) else None)
  | None =>
      ticks_run iv w' = n /\
      active w' !! iv = Some (mkTimer true d (HFade None startVol vs n cb))
  end.
Proof.
  intros w iv w' n d vs Hns.
  assert (Hwf : wf w) by apply wf_run, wf_literal.
  destruct audio as [a|].
  - pose proof (envelope_after a startVol endVol duration cb w tr Hwf) as H.
    fold iv in H. fold n in H. fold w' in H. rewrite Hns in H.
    destruct H as (_ & _ & H).
    destruct (Nat.leb_spec steps n) as [Hle|Hgt].
    + destruct H as (Ha & _ & Hf).
      destruct (Nat.ltb_spec n steps); [lia|]. split; [lia | assumption].
    + destruct H as (_ & Ha & _ & Hf).
      destruct (Nat.ltb_spec n steps); [|lia]. split; [lia | assumption].
  - set (w1 := fadeAudio None startVol endVol duration cb w) in *.
    assert (Hwf1 : wf w1).
    { eapply (wf_frame None); [discriminate | exact Hwf | apply frame_fadeAudio]. }
    assert (Hlt1 : iv < next_id w1) by (cbn; unfold iv; lia).
    assert (Ha1 : active w1 !! iv =
                  Some (mkTimer true d (HFade None startVol vs 0 cb)))
      by (cbn; apply lookup_insert_eq).
    destruct (fresh_counts w Hwf) as [_ T0].
    assert (T1 : ticks_run iv w1 = 0) by exact T0.
    destruct (null_fade_after iv d startVol vs cb tr w1 (Some 0)
                Hwf1 Hlt1 Ha1) as (_ & It & Ia).
    fold w' in It, Ia. fold n in It, Ia. rewrite Hns in Ia.
    split; [now rewrite It, T1 | exact Ia].
Qed.

Lemma fadeAudio_runs_60_steps_then_clears_witness :
  let w' := run (repeat (Fire 1) 75)
              (fadeAudio (Some 2) 0.3%Q 0%Q (-5)%Q None
                 (run [Init] (literal [] true))) in
  ticks_run 1 w' = steps /\ active w' !! 1 = None.
Proof.
  apply (fadeAudio_runs_60_steps_then_clears [] true [Init] (Some 2)
           0.3%Q 0%Q (-5)%Q None (repeat (Fire 1) 75)).
  vm_compute. reflexivity.
Defined.

(** * Further properties of the manager *)

(** ** The registry of handles *)
































(** ** stop(), again *)

Lemma heap_pause_if_lookup r w j :
  heap (pause_if r w) !! j =
  (if bool_decide (r = Some j) then with_paused true else id) <$> heap w !! j.
Proof.
  destruct r as [a|]; simpl.
  - destruct (decide (a = j)) as [->|Hne].
    + rewrite bool_decide_eq_true_2 by reflexivity.
      apply list_lookup_alter_eq.
    + rewrite bool_decide_eq_false_2 by congruence.
      rewrite list_lookup_alter_ne by assumption.
      now destruct (heap w !! j).
  - now destruct (heap w !! j).
Qed.

Lemma stop_fields w :
  waves (stop w) = waves w /\ birds (stop w) = birds w /\
  waves2 (stop w) = waves2 w /\ entropy (stop w) = entropy w /\
  autoplay (stop w) = autoplay w.
Proof.
  rewrite stop_unfold.
  destruct (waves w) eqn:A, (birds w) eqn:B, (waves2 w) eqn:C;
    simpl; rewrite ?A, ?B, ?C; repeat split.
Qed.

Lemma stop_heap_lookup w j :
  heap (stop w) !! j =
  (if is_channelb j w then with_paused true else id) <$> heap w !! j.
Proof.
  rewrite stop_unfold.
  change (heap (pause_if (waves2 w)
                  (pause_if (birds w) (pause_if (waves w) w))) !! j = 
          (if is_channelb j w then with_paused true else id) <$> heap w !! j).
  rewrite !heap_pause_if_lookup. unfold is_channelb.
  destruct (bool_decide (waves w = Some j)),
           (bool_decide (birds w = Some j)),
           (bool_decide (waves2 w = Some j)),
           (heap w !! j); reflexivity.
Qed.

Lemma stop_volume_writes a w :
  volume_writes a (log (stop w)) = volume_writes a (log w).
Proof.
  rewrite stop_unfold.
  destruct (waves w), (birds w), (waves2 w); reflexivity.
Qed.

(** X2.  stop() pauses the three channels and changes nothing else in any
    element (volume, position, loop flag and listeners stay as they were,
    so a swell cut short leaves waves2 at the volume it had reached); it
    writes no volume, empties [this.timers], cancels every handle that was
    registered there, and gives out no handle. *)
Theorem stop_only_pauses_channels (w : World) (j a t : nat) :
  heap (stop w) !! j =
    (if is_channelb j w then with_paused true else id) <$> heap w !! j /\
  volume_writes a (log (stop w)) = volume_writes a (log w) /\
  timers (stop w) = [] /\
  active (stop w) !! t =
    (if bool_decide (t ∈ timers w) then None else active w !! t) /\
  next_id (stop w) = next_id w.
Proof.
  split; [apply stop_heap_lookup|].
  split; [apply stop_volume_writes|].
  split; [reflexivity|].
  split; [|apply stop_next_id].
  rewrite stop_active, lookup_clear.
  destruct (decide (t ∈ timers w)) as [H|H].
  - now rewrite bool_decide_eq_true_2.
  - now rewrite bool_decide_eq_false_2.
Qed.

Lemma stop_log_pauses w :
  exists l, log (stop w) = l ++ log w /\ forallb is_pause l = true.
Proof.
  rewrite stop_unfold.
  destruct (waves w) as [a|], (birds w) as [b|], (waves2 w) as [c|]; simpl;
    [ exists [EPause c; EPause b; EPause a]
    | exists [EPause b; EPause a]
    | exists [EPause c; EPause a]
    | exists [EPause a]
    | exists [EPause c; EPause b]
    | exists [EPause b]
    | exists [EPause c]
    | exists [] ];
    (split; reflexivity).
Qed.

(** X3.  A second stop() right after the first changes no state at all:
    channels, elements, handles, timers, tape and policy are as the first
    stop() left them.  All it does is call pause() again on the channels. *)
Theorem stop_twice_is_stop_once (w : World) :
  without_log (stop (stop w)) = without_log (stop w) /\
  exists l, log (stop (stop w)) = l ++ log (stop w) /\
            forallb is_pause l = true.
Proof.
  split; [|apply stop_log_pauses].
  destruct (stop_fields (stop w)) as (A & B & C & D & E).
  unfold without_log. rewrite A, B, C, D, E, stop_next_id.
  assert (Ha : active (stop (stop w)) = active (stop w))
    by (rewrite (stop_active (stop w)); reflexivity).
  assert (Hh : heap (stop (stop w)) = heap (stop w)).
  { apply list_eq. intros j. rewrite (stop_heap_lookup (stop w)).
    unfold is_channelb. destruct (stop_fields w) as (A' & B' & C' & _).
    rewrite A', B', C'. fold (is_channelb j w). rewrite stop_heap_lookup.
    destruct (is_channelb j w), (heap w !! j); reflexivity. }
  rewrite Ha, Hh. reflexivity.
Qed.

Lemma armed_empty p w : active w = ∅ -> armed p w = 0.
Proof. intros H. unfold armed. now rewrite H, map_to_list_empty. Qed.

(** X4.  stop() followed by start() restarts the session with exactly one
    bird timer and one swell timer armed and nothing else, however many
    chains and envelopes were running before. *)
Theorem restart_arms_one_chain_of_each
    (tape : list Q) (ap : bool) (tr : list Event) :
  let w := start (stop (run tr (literal tape ap))) in
  armed is_bird w = 1 /\ armed is_waves2 w = 1 /\ armed is_any w = 2.
Proof.
  intros w.
  assert (Hwf : wf (stop (run tr (literal tape ap))))
    by apply wf_stop, wf_run, wf_literal.
  assert (He : active (stop (run tr (literal tape ap))) = ∅)
    by apply stop_cancels, wf_run, wf_literal.
  unfold w. rewrite !(armed_start _ _ Hwf), !(armed_empty _ _ He).
  repeat split.
Qed.

(** ** fadeAudio on a missing element, while stop() is not called *)

Lemma null_fade_run iv d s vs cb tr : forall w n,
  wf w -> iv < next_id w ->
  active w !! iv = Some (mkTimer true d (HFade None s vs n cb)) ->
  existsb is_stop tr = false ->
  active (run tr w) !! iv =
    Some (mkTimer true d (HFade None s vs (n + ticks_before_stop iv tr) cb)) /\
  completions iv (run tr w) = completions iv w.
Proof.
  induction tr as [|e tr IH]; intros w n Hwf Hlt Ha Hs.
  - simpl. now rewrite Nat.add_0_r.
  - simpl in Hs. apply orb_false_iff in Hs as [Es Hs].
    assert (Hlt' : iv < next_id (step e w))
      by (pose proof (next_id_step e w); lia).
    change (run (e :: tr) w) with (run tr (step e w)).
    destruct (decide (touch e = Some iv)) as [Ht|Ht].
    + destruct e; try discriminate. injection Ht as ->.
      cbn [ticks_before_stop]. rewrite Nat.eqb_refl.
      destruct (IH (step (Fire iv) w) (S n)) as [IHa IHc];
        [now apply wf_step | exact Hlt' | | exact Hs |].
      * cbn [step]. rewrite (fire_null _ _ _ _ _ _ _ Ha). simpl.
        apply lookup_insert_eq.
      * split.
        -- rewrite IHa. do 3 f_equal. lia.
        -- rewrite IHc. cbn [step]. rewrite (fire_null _ _ _ _ _ _ _ Ha).
           unfold completions. simpl. now rewrite count_cons.
    + destruct (quiet_step e w iv Es Ht Hlt) as (Qa & Qc & _).
      destruct (IH (step e w) n) as [IHa IHc];
        [now apply wf_step | exact Hlt' | now rewrite Qa | exact Hs |].
      assert (Ht' : ticks_before_stop iv (e :: tr) = ticks_before_stop iv tr).
      { destruct e; try reflexivity; try discriminate.
        cbn [ticks_before_stop].
        destruct (Nat.eqb_spec id iv); [subst; now contradict Ht | reflexivity]. }
      rewrite Ht'. split; [exact IHa | now rewrite IHc, Qc].
Qed.

(** X5.  fadeAudio called with a null element never finishes: every tick
    counts its step and then throws on the assignment to [audio.volume], so
    the test on the step is never reached.  As long as stop() is not
    called the interval stays armed, whatever the number of ticks, and the
    completion callback is never called. *)
Theorem fadeAudio_null_never_completes
    (tape : list Q) (ap : bool) (tr0 : list Event)
    (startVol endVol duration : Q) (cb : option Cb) (tr : list Event) :
  let w := run tr0 (literal tape ap) in
  let iv := next_id w in
  let w' := run tr (fadeAudio None startVol endVol duration cb w) in
  existsb is_stop tr = false ->
  active w' !! iv =
    Some (mkTimer true (duration / inject_Z (Z.of_nat steps))%Q
            (HFade None startVol
               ((endVol - startVol) / inject_Z (Z.of_nat steps))%Q
               (ticks_before_stop iv tr) cb)) /\
  completions iv w' = 0.
Proof.
  intros w iv w' Hs.
  assert (Hwf : wf w) by apply wf_run, wf_literal.
  destruct (null_fade_run iv (duration / inject_Z (Z.of_nat steps))%Q startVol
              ((endVol - startVol) / inject_Z (Z.of_nat steps))%Q cb tr
              (fadeAudio None startVol endVol duration cb w) 0) as [Ha Hc];
    try exact Hs.
  - eapply (wf_frame None); [discriminate | exact Hwf | apply frame_fadeAudio].
  - simpl. unfold iv. lia.
  - simpl. apply lookup_insert_eq.
  - split; [exact Ha|]. fold w' in Hc. rewrite Hc.
    destruct Hwf as [_ Hl]. apply (count_known _ (next_id w)); [|exact Hl].
    intros [] E; simpl in *; try discriminate.
    apply Nat.eqb_eq in E. unfold iv in E. lia.
Qed.

Lemma fadeAudio_null_never_completes_witness :
  let w' := run (repeat (Fire 1) 100)
              (fadeAudio None 0%Q 1%Q 600%Q (Some (KHost 1))
                 (run [Init] (literal [] true))) in
  is_Some (active w' !! 1) /\ completions 1 w' = 0.
Proof.
  destruct (fadeAudio_null_never_completes [] true [Init] 0%Q 1%Q 600%Q
              (Some (KHost 1)) (repeat (Fire 1) 100)) as [Ha Hc].
  - reflexivity.
  - split; [|exact Hc]. eexists. exact Ha.
Defined.

(** ** The steps of an envelope *)

(** What any tick of an envelope writes. *)
Lemma fire_tick_volume iv d a s vs cb k w :
  active w !! iv = Some (fade_timer d a s vs cb k) ->
  volume_writes a (log (fire iv w)) =
    fade_volume s vs (S k) :: volume_writes a (log w) /\
  volume <$> (heap (fire iv w) !! a) =
    (fun _ => fade_volume s vs (S k)) <$> (heap w !! a).
Proof.
  intros H. destruct (steps <=? S k) eqn:Hk.
  - now apply (fire_tick_last_volume iv d a s vs cb k).
  - rewrite (fire_tick_early _ _ _ _ _ _ _ _ H Hk). simpl.
    rewrite Nat.eqb_refl, list_lookup_alter_eq. split; [reflexivity|].
    now destruct (heap w !! a).
Qed.

(** Between two volumes of the unit interval the clamp never acts: the
    step [k] of 60 writes the point at k/60 of the way. *)
Lemma fade_volume_linear (s e : Q) (k : nat) :
  (0 <= s)%Q -> (s <= 1)%Q -> (0 <= e)%Q -> (e <= 1)%Q -> k <= steps ->
  (fade_volume s ((e - s) / inject_Z (Z.of_nat steps)) k ==
   s + (e - s) * (inject_Z (Z.of_nat k) / 60))%Q /\
  ((s <= e)%Q -> (s <= fade_volume s ((e - s) / inject_Z (Z.of_nat steps)) k
                  /\ fade_volume s ((e - s) / inject_Z (Z.of_nat steps)) k <= e)%Q) /\
  ((e <= s)%Q -> (e <= fade_volume s ((e - s) / inject_Z (Z.of_nat steps)) k
                  /\ fade_volume s ((e - s) / inject_Z (Z.of_nat steps)) k <= s)%Q).
Proof.
  intros Hs0 Hs1 He0 He1 Hk.
  set (q := inject_Z (Z.of_nat k)).
  assert (Hq0 : (0 <= q)%Q).
  { unfold q. change 0%Q with (inject_Z 0). rewrite <- Zle_Qle. lia. }
  assert (Hq1 : (q <= 60)%Q).
  { unfold q. change 60%Q with (inject_Z 60). rewrite <- Zle_Qle.
    unfold steps in Hk. lia. }
  set (t := (q / 60)%Q).
  assert (Ht0 : (0 <= t)%Q).
  { unfold t. apply Qle_shift_div_l; [reflexivity | lra]. }
  assert (Ht1 : (t <= 1)%Q).
  { unfold t. apply Qle_shift_div_r; [reflexivity | lra]. }
  assert (E : (s + (e - s) / inject_Z (Z.of_nat steps) * q == s + (e - s) * t)%Q).
  { unfold t. change (inject_Z (Z.of_nat steps)) with 60%Q. field. }
  assert (Hx : (s <= e -> s <= s + (e - s) * t /\ s + (e - s) * t <= e)%Q).
  { intros Hle. split; nra. }
  assert (Hy : (e <= s -> e <= s + (e - s) * t /\ s + (e - s) * t <= s)%Q).
  { intros Hle. split; nra. }
  assert (Hr : (0 <= s + (e - s) * t /\ s + (e - s) * t <= 1)%Q).
  { destruct (Qlt_le_dec e s) as [Hlt|Hle].
    - destruct Hy; [lra|]. split; lra.
    - destruct (Hx Hle). split; lra. }
  assert (V : (fade_volume s ((e - s) / inject_Z (Z.of_nat steps)) k ==
               s + (e - s) * t)%Q).
  { unfold fade_volume. fold q. rewrite (Math_clamp_compat _ _ E).
    apply Math_clamp_id; apply Hr. }
  split; [exact V|]. split; intros Hle; rewrite V; auto.
Qed.

(** X6.  Every tick of fadeAudio(audio, startVol, endVol, ...) writes the
    clamped linear interpolation at its step, and the element has that
    volume afterwards.  When both volumes lie in [0,1] the clamp does not
    act: tick k writes the point k/60 of the way from startVol to endVol,
    which lies between the two, so the volume moves monotonically. *)
Theorem fadeAudio_tick_interpolates
    (tape : list Q) (ap : bool) (tr0 : list Event)
    (a : nat) (startVol endVol duration : Q) (cb : option Cb)
    (tr : list Event) :
  let w := run tr0 (literal tape ap) in
  let iv := next_id w in
  let wn := run tr (fadeAudio (Some a) startVol endVol duration cb w) in
  let n := ticks_before_stop iv tr in
  let v := fade_volume startVol
             ((endVol - startVol) / inject_Z (Z.of_nat steps))%Q (S n) in
  existsb is_stop tr = false ->
  n < steps ->
  (0 <= startVol)%Q -> (startVol <= 1)%Q ->
  (0 <= endVol)%Q -> (endVol <= 1)%Q ->
  volume_writes a (log (fire iv wn)) = v :: volume_writes a (log wn) /\
  volume <$> (heap (fire iv wn) !! a) = (fun _ => v) <$> (heap wn !! a) /\
  (v == startVol + (endVol - startVol) * (inject_Z (Z.of_nat (S n)) / 60))%Q /\
  ((startVol <= endVol)%Q -> (startVol <= v /\ v <= endVol)%Q) /\
  ((endVol <= startVol)%Q -> (endVol <= v /\ v <= startVol)%Q).
Proof.
  intros w iv wn n v Hns Hn Hs0 Hs1 He0 He1.
  assert (Hwf : wf w) by apply wf_run, wf_literal.
  pose proof (envelope_after a startVol endVol duration cb w tr Hwf) as H.
  fold iv in H. fold n in H. fold wn in H. rewrite Hns in H.
  destruct (Nat.leb_spec steps n); [lia|].
  destruct H as (_ & _ & _ & Ha & _).
  destruct (fire_tick_volume _ _ _ _ _ _ _ _ Ha) as [Hv Hh].
  split; [exact Hv|]. split; [exact Hh|].
  apply fade_volume_linear; assumption.
Qed.

Lemma fadeAudio_tick_interpolates_witness :
  let wn := run (repeat (Fire 1) 29)
              (fadeAudio (Some 2) 0.2%Q 0.8%Q 3000%Q None
                 (run [Init] (literal [] true))) in
  let v := fade_volume 0.2%Q ((0.8 - 0.2) / inject_Z (Z.of_nat steps))%Q 30 in
  volume <$> (heap (fire 1 wn) !! 2) = Some v /\ (v == 0.5)%Q.
Proof.
  destruct (fadeAudio_tick_interpolates [] true [Init] 2 0.2%Q 0.8%Q 3000%Q
              None (repeat (Fire 1) 29))
    as (_ & Hh & Hv & _).
  - reflexivity.
  - vm_compute. lia.
  - vm_compute. discriminate.
  - vm_compute. discriminate.
  - vm_compute. discriminate.
  - vm_compute. discriminate.
  - split.
    + etransitivity; [exact Hh|]. vm_compute. reflexivity.
    + etransitivity; [exact Hv|]. vm_compute. reflexivity.
Defined.

(** ** The channels and the 'ended' listener *)

(** X7.  Once init() has run, and whatever is called afterwards (init()
    again included), the three channel fields point to elements that
    exist, so that no null test fails and no callback throws; waves and
    waves2 loop and have no listener; the bird element does not loop and
    carries exactly one 'ended' listener.  An 'ended' event dispatched at
    the bird channel therefore arms exactly one timer, a one-shot bird
    timer with the next sample, whether the element is paused or not; one
    dispatched at waves or waves2 arms none. *)
Theorem channels_stay_wired (tape : list Q) (ap : bool) (tr : list Event) :
  let w := run tr (boot tape ap) in
  exists a b c au bu cu,
    waves w = Some a /\ birds w = Some b /\ waves2 w = Some c /\
    heap w !! a = Some au /\ heap w !! b = Some bu /\ heap w !! c = Some cu /\
    (loop au = true /\ onended au = []) /\
    (loop bu = false /\ onended bu = [LScheduleNextBird]) /\
    (loop cu = true /\ onended cu = []) /\
    next_id (ended b w) = next_id w + 1 /\
    active (ended b w) =
      <[next_id w :=
          mkTimer false (hd 0%Q (entropy w) * 17000 + 8000)%Q HBird]>
        (active w) /\
    next_id (ended a w) = next_id w /\ next_id (ended c w) = next_id w.
Proof.
  intros w.
  destruct (wired_run tr (boot tape ap) (wired_init _))
    as (a & b & c & au & bu & cu & A & B & C & Ha & Hb & Hc & La & Lb & Lc).
  fold w in A, B, C, Ha, Hb, Hc.
  exists a, b, c, au, bu, cu. repeat (split; [assumption|]).
  destruct (ended_rearms b bu w Hb (proj1 Lb) (proj2 Lb)) as [Hr _].
  split; [|split; [exact Hr|]].
  - unfold ended. rewrite Hb. destruct Lb as [-> ->]. simpl. lia.
  - unfold ended. rewrite Ha, Hc. destruct La as [-> _], Lc as [-> _].
    split; reflexivity.
Qed.

(** ** The ranges the manager samples from *)

Lemma Qdiv60 (x : Q) : (x / 60 * 60 == x)%Q.
Proof. field. Qed.

Lemma unit_hd l : Forall unit_sample l -> unit_sample (hd 0%Q l).
Proof. intros [|r l' H _]; [split; simpl; lra | exact H]. Qed.

Lemma unit_tl l : Forall unit_sample l -> Forall unit_sample (tl l).
Proof. intros [|r l' _ H]; [constructor | exact H]. Qed.

Lemma designed_ext w w' l :
  is_Some (waves2 w') -> entropy w' = entropy w -> active w' = active w ->
  log w' = l ++ log w -> Forall below l -> designed w -> designed w'.
Proof.
  intros Hw He Ha Hl Hb (_ & Hu & Ht & Hg).
  split; [exact Hw|]. split; [now rewrite He|].
  split; [now rewrite Ha|]. rewrite Hl. apply Forall_app. now split.
Qed.

Lemma designed_arm rep h d w :
  ok_timer (mkTimer rep d h) -> designed w -> designed (arm rep h d w).
Proof.
  intros Hok (Hw & Hu & Ht & Hg). repeat split; try assumption.
  intros id t H. simpl in H. destruct (decide (next_id w = id)) as [<-|Hne].
  - rewrite lookup_insert_eq in H. now injection H as <-.
  - rewrite lookup_insert_ne in H by assumption. eauto.
Qed.

Lemma designed_consume w :
  designed w ->
  unit_sample (hd 0%Q (entropy w)) /\
  designed (set_entropy (tl (entropy w)) w).
Proof.
  intros (Hw & Hu & Ht & Hg). split; [now apply unit_hd|].
  repeat split; try assumption. now apply unit_tl.
Qed.

Lemma designed_sub m w :
  (forall id t, m !! id = Some t -> active w !! id = Some t \/ ok_timer t) ->
  designed w -> designed (set_active m w).
Proof.
  intros Hm (Hw & Hu & Ht & Hg). repeat split; try assumption.
  intros id t H. destruct (Hm id t H); eauto.
Qed.

Lemma designed_emit e w : below e -> designed w -> designed (emit e w).
Proof.
  intros Hb H. apply (designed_ext w _ [e]); try reflexivity; try exact H.
  - exact (proj1 H).
  - now repeat constructor.
Qed.

Lemma designed_upd a f w : designed w -> designed (upd a f w).
Proof.
  intros H. apply (designed_ext w _ []); try reflexivity; try exact H.
  - exact (proj1 H).
  - constructor.
Qed.

Lemma designed_seek0 a w : designed w -> designed (seek0 a w).
Proof. intros H. apply designed_emit; [exact I | now apply designed_upd]. Qed.

Lemma designed_pause a w : designed w -> designed (pause a w).
Proof. intros H. apply designed_emit; [exact I | now apply designed_upd]. Qed.

Lemma designed_play a w : designed w -> designed (play a w).
Proof.
  intros H. unfold play. apply designed_emit; [exact I|].
  destruct (autoplay w); [now apply designed_upd | exact H].
Qed.

Lemma designed_scheduleNextBird w : designed w -> designed (scheduleNextBird w).
Proof.
  intros H. rewrite scheduleNextBird_arm.
  destruct (designed_consume w H) as [[H0 H1] H'].
  apply designed_arm; [|exact H']. split; [reflexivity|]. simpl. split; lra.
Qed.

Lemma designed_scheduleWaves2 w : designed w -> designed (scheduleWaves2 w).
Proof.
  intros H. rewrite scheduleWaves2_arm.
  destruct (designed_consume w H) as [[H0 H1] H'].
  apply designed_arm; [|exact H']. split; [reflexivity|]. simpl. split; lra.
Qed.

(** The swell as one arming, once waves2 is played. *)
Lemma playWaves2Swell_arm c w :
  waves2 w = Some c ->
  let w1 := play c (seek0 c w) in
  let r1 := hd 0%Q (entropy w) in
  let r2 := hd 0%Q (tl (entropy w)) in
  let r3 := hd 0%Q (tl (tl (entropy w))) in
  let r4 := hd 0%Q (tl (tl (tl (entropy w)))) in
  let targetVol := (r1 * 0.5 + 0.3)%Q in
  playWaves2Swell w =
  arm true
    (HFade (Some c) 0%Q ((targetVol - 0) / inject_Z (Z.of_nat steps))%Q 0
       (Some (KHold targetVol (r2 * 10000 + 8000)%Q (r4 * 3000 + 2000)%Q)))
    ((r3 * 3000 + 2000) / inject_Z (Z.of_nat steps))%Q
    (set_entropy (tl (tl (tl (tl (entropy w))))) w1).
Proof.
  intros Hc. unfold playWaves2Swell. rewrite Hc.
  cbv beta iota zeta delta [Math_random]. unfold play.
  change (autoplay (seek0 c w)) with (autoplay w).
  destruct (autoplay w);
    match goal with
    | |- context [fadeAudio (waves2 ?x)] =>
        change (waves2 x) with (waves2 w); rewrite Hc
    end; reflexivity.
Qed.

Lemma designed_playWaves2Swell w : designed w -> designed (playWaves2Swell w).
Proof.
  intros H. destruct (proj1 H) as [c Hc].
  rewrite (playWaves2Swell_arm c w Hc). cbv zeta.
  assert (H1 : designed (play c (seek0 c w)))
    by now apply designed_play, designed_seek0.
  destruct H as (_ & Hu & _).
  pose proof (unit_hd _ Hu) as [A0 A1].
  pose proof (unit_hd _ (unit_tl _ Hu)) as [B0 B1].
  pose proof (unit_hd _ (unit_tl _ (unit_tl _ Hu))) as [C0 C1].
  pose proof (unit_hd _ (unit_tl _ (unit_tl _ (unit_tl _ Hu)))) as [D0 D1].
  apply designed_arm.
  - change (inject_Z (Z.of_nat steps)) with 60%Q.
    split; [reflexivity|]. split; [now eexists|]. split; [unfold steps; lia|].
    simpl. rewrite !Qdiv60. repeat split; lra.
  - destruct H1 as (Hw & Hu1 & Ht & Hg). repeat split; try assumption.
    simpl. now do 4 apply unit_tl.
Qed.

Lemma designed_init w :
  Forall unit_sample (entropy w) ->
  (forall id t, active w !! id = Some t -> ok_timer t) ->
  Forall below (log w) -> designed (init w).
Proof.
  intros Hu Ht Hg. destruct (init_fields w) as (_ & _ & C & _ & A & _ & E & _).
  split; [rewrite C; now eexists|]. split; [now rewrite E|].
  split; [now rewrite A|]. rewrite init_log. apply Forall_app. split; [|exact Hg].
  repeat constructor; simpl; lra.
Qed.

Lemma designed_start w : designed w -> designed (start w).
Proof.
  intros H. unfold start.
  assert (H' : designed (match waves w with None => init w | Some _ => w end)).
  { destruct (waves w); [exact H|]. destruct H as (_ & Hu & Ht & Hg).
    now apply designed_init. }
  destruct (waves (match waves w with None => init w | Some _ => w end));
    [|exact H'].
  now apply designed_scheduleWaves2, designed_scheduleNextBird, designed_play.
Qed.

Lemma designed_stop w : designed w -> designed (stop w).
Proof.
  intros (Hw & Hu & Ht & Hg). destruct (stop_fields w) as (_ & _ & C & E & _).
  split; [now rewrite C|]. split; [now rewrite E|]. split.
  - intros id t H. rewrite stop_active, lookup_clear in H.
    destruct (decide (id ∈ timers w)); [discriminate | eauto].
  - destruct (stop_log_pauses w) as [l [-> F]]. apply Forall_app.
    split; [|exact Hg]. rewrite forallb_forall in F.
    apply List.Forall_forall. intros e He. specialize (F e He).
    now destruct e.
Qed.

Lemma designed_cb_body k w : ok_cb k -> designed w -> designed (cb_body k w).
Proof.
  intros Hk H. destruct k as [tv du fo| |tag]; simpl.
  - apply designed_arm; [|exact H]. destruct Hk as (T & D & F).
    now repeat split.
  - destruct (waves2 w); [|exact H].
    now apply designed_scheduleWaves2, designed_pause.
  - now apply designed_emit.
Qed.

Lemma designed_delete id w : designed w -> designed (set_active (delete id (active w)) w).
Proof.
  intros H. apply designed_sub; [|exact H]. intros i t Hi.
  apply lookup_delete_Some in Hi as [_ Hi]. now left.
Qed.

(** A tick of an envelope of the manager stays below 0.8. *)
Lemma fade_volume_below s vs k :
  (0 <= s /\ s < 0.8)%Q -> (0 <= s + vs * 60 /\ s + vs * 60 < 0.8)%Q ->
  k <= steps ->
  (0 <= fade_volume s vs k /\ fade_volume s vs k < 0.8)%Q.
Proof.
  intros [S0 S1] [E0 E1] Hk.
  set (q := inject_Z (Z.of_nat k)).
  assert (Hq0 : (0 <= q)%Q).
  { unfold q. change 0%Q with (inject_Z 0). rewrite <- Zle_Qle. lia. }
  assert (Hq1 : (q <= 60)%Q).
  { unfold q. change 60%Q with (inject_Z 60). rewrite <- Zle_Qle.
    unfold steps in Hk. lia. }
  assert (Hx : (0 <= s + vs * q /\ s + vs * q < 0.8)%Q).
  { destruct (Qlt_le_dec vs 0) as [Hv|Hv]; split; nra. }
  assert (V : (fade_volume s vs k == s + vs * q)%Q).
  { unfold fade_volume. fold q. apply Math_clamp_id; lra. }
  rewrite V. exact Hx.
Qed.

Lemma designed_fire id w : designed w -> designed (fire id w).
Proof.
  intros H. unfold fire. destruct (active w !! id) as [t|] eqn:E; [|exact H].
  pose proof (proj1 (proj2 (proj2 H)) id t E) as Hok.
  unfold ok_timer in Hok. unfold run_handler.
  destruct t as [rep d h]. cbn [handler repeating delay] in *.
  destruct h as [| |tv fo|audio s vs k cb].
  - destruct Hok as [-> _].
    assert (H1 : designed (set_active (delete id (active (emit (EFire id) w)))
                             (emit (EFire id) w)))
      by (apply designed_delete, designed_emit; [exact I | exact H]).
    destruct (birds _); [|exact H1]. now apply designed_play, designed_seek0.
  - destruct Hok as [-> _].
    apply designed_playWaves2Swell, designed_delete, designed_emit;
      [exact I | exact H].
  - destruct Hok as (-> & _ & T & F).
    rewrite fadeAudio_arm. apply designed_arm.
    + change (inject_Z (Z.of_nat steps)) with 60%Q.
      split; [reflexivity|]. split; [exact (proj1 H)|].
      split; [unfold steps; lia|]. simpl. rewrite !Qdiv60.
      repeat split; try exact I; lra.
    + apply designed_delete, designed_emit; [exact I | exact H].
  - destruct Hok as (-> & [a ->] & Hk & D & Hs & He & Hcb).
    cbv zeta.
    assert (Hv : below (EVolume a (fade_volume s vs (S k))))
      by (apply fade_volume_below; assumption).
    assert (H0 : designed (emit (EFire id) w))
      by (apply designed_emit; [exact I | exact H]).
    destruct (steps <=? S k) eqn:Hle.
    + assert (H1 : designed
        (clearInterval id
           (set_volume a (fade_volume s vs (S k))
              (set_active
                 (alter (fun _ => mkTimer true d (HFade (Some a) s vs (S k) cb))
                        id (active (emit (EFire id) w)))
                 (emit (EFire id) w))))).
      { change (designed
          (set_active
             (delete id
                (alter (fun _ => mkTimer true d (HFade (Some a) s vs (S k) cb))
                       id (active w)))
             (set_volume a (fade_volume s vs (S k)) (emit (EFire id) w)))).
        apply designed_sub.
        - intros i t Hi. apply lookup_delete_Some in Hi as [Hne Hi].
          rewrite lookup_alter_ne in Hi by assumption. now left.
        - apply designed_emit; [exact Hv|]. now apply designed_upd. }
      destruct cb as [c|]; [|exact H1].
      rewrite run_cb_body. apply designed_cb_body; [exact Hcb|].
      apply designed_emit; [exact I | exact H1].
    + change (designed
        (set_active
           (alter (fun _ => mkTimer true d (HFade (Some a) s vs (S k) cb))
                  id (active w))
           (set_volume a (fade_volume s vs (S k)) (emit (EFire id) w)))).
      apply designed_sub;
        [|apply designed_emit; [exact Hv | now apply designed_upd]].
      intros i t Hi.
      destruct (decide (id = i)) as [<-|Hne].
      * rewrite lookup_alter_eq, E in Hi. injection Hi as <-. right.
        apply Nat.leb_gt in Hle. unfold ok_timer. simpl.
        repeat split; try tauto. now eexists.
      * rewrite lookup_alter_ne in Hi by assumption. now left.
Qed.

Lemma designed_listeners ls w :
  designed w -> designed (fold_left (fun w l => run_listener l w) ls w).
Proof.
  revert w. induction ls as [|l ls IH]; intros w H; simpl; [exact H|].
  apply IH. destruct l. now apply designed_scheduleNextBird.
Qed.

Lemma designed_ended a w : designed w -> designed (ended a w).
Proof.
  intros H. unfold ended. destruct (heap w !! a) as [au|]; [|exact H].
  destruct (loop au); [exact H|].
  apply designed_listeners, designed_emit; [exact I|]. now apply designed_upd.
Qed.

Lemma designed_step e w :
  is_host_fade e = false -> designed w -> designed (step e w).
Proof.
  intros He H. destruct e; try discriminate; simpl.
  - destruct H as (_ & Hu & Ht & Hg). now apply designed_init.
  - now apply designed_start.
  - now apply designed_stop.
  - now apply designed_fire.
  - now apply designed_ended.
Qed.

Lemma designed_run tr w :
  existsb is_host_fade tr = false -> designed w -> designed (run tr w).
Proof.
  revert w. induction tr as [|e tr IH]; intros w He H; simpl; [exact H|].
  simpl in He. apply orb_false_iff in He as [He Htr].
  apply IH; [exact Htr|]. now apply designed_step.
Qed.

Lemma designed_boot tape ap :
  Forall unit_sample tape -> designed (boot tape ap).
Proof.
  intros Hu. apply designed_init; simpl; [exact Hu | | constructor].
  intros id t H. now rewrite lookup_empty in H.
Qed.

(** X8.  When Math.random() returns values of [0,1) and the host does not
    call fadeAudio itself, every timer that is armed, at any moment, is of
    the kind and has the delay the manager samples for it: a one-shot bird
    timer in [8000, 25000) ms, a one-shot swell timer in [10000, 30000) ms,
    a one-shot hold in [8000, 18000) ms that carries a target volume in
    [0.3, 0.8), and a fade interval whose 60 steps take [2000, 5000) ms in
    all and which has not yet done its 60 steps.  The ranges are those of
    exact arithmetic; on doubles the largest sample is rounded up to the
    ends 18000 and 5000 (see [Binary64Facts.swell_sample_ends]). *)
Theorem armed_timers_in_sampled_ranges
    (tape : list Q) (ap : bool) (tr : list Event) (id : nat) (t : Timer) :
  Forall unit_sample tape ->
  existsb is_host_fade tr = false ->
  active (run tr (boot tape ap)) !! id = Some t ->
  match handler t with
  | HBird => repeating t = false /\ (8000 <= delay t /\ delay t < 25000)%Q
  | HWaves2 => repeating t = false /\ (10000 <= delay t /\ delay t < 30000)%Q
  | HHold tv fo =>
      repeating t = false /\ (8000 <= delay t /\ delay t < 18000)%Q /\
      (0.3 <= tv /\ tv < 0.8)%Q
  | HFade audio s vs k cb =>
      repeating t = true /\ k < steps /\
      (2000 <= delay t * 60 /\ delay t * 60 < 5000)%Q
  end.
Proof.
  intros Hu Hf Ha.
  pose proof (designed_run tr _ Hf (designed_boot tape ap Hu)) as (_ & _ & Ht & _).
  specialize (Ht id t Ha). unfold ok_timer in Ht.
  destruct (handler t); tauto.
Qed.

Lemma armed_timers_in_sampled_ranges_witness :
  let tape := [0.5%Q; 0.25%Q; 0.1%Q; 0.2%Q; 0.3%Q; 0.4%Q] in
  let w := run [Start; Fire 2] (boot tape true) in
  exists t, active w !! 3 = Some t /\
            repeating t = true /\
            (2000 <= delay t * 60 /\ delay t * 60 < 5000)%Q.
Proof.
  intros tape w.
  assert (Hu : Forall unit_sample tape)
    by (repeat constructor; vm_compute; congruence).
  destruct (active w !! 3) as [t|] eqn:E; [|vm_compute in E; discriminate].
  exists t. split; [reflexivity|].
  pose proof (armed_timers_in_sampled_ranges tape true [Start; Fire 2] 3 t
                Hu eq_refl E) as H.
  vm_compute in E. injection E as <-. cbn [handler] in H. tauto.
Defined.

(** X9.  Under the same conditions no volume the manager writes ever
    reaches 0.8: init() writes 0.4, 0.6 and 0, and every step of every
    swell lies between 0 and the sampled target volume. *)
Theorem volume_stays_below_0_8
    (tape : list Q) (ap : bool) (tr : list Event) (a : nat) (v : Q) :
  Forall unit_sample tape ->
  existsb is_host_fade tr = false ->
  In (EVolume a v) (log (run tr (boot tape ap))) ->
  (0 <= v /\ v < 0.8)%Q.
Proof.
  intros Hu Hf Hin.
  pose proof (designed_run tr _ Hf (designed_boot tape ap Hu)) as (_ & _ & _ & Hg).
  rewrite List.Forall_forall in Hg. exact (Hg _ Hin).
Qed.

Lemma volume_stays_below_0_8_witness :
  let tape := [0.5%Q; 0.25%Q; 0.999%Q; 0.2%Q; 0.3%Q; 0.4%Q] in
  let w := run ([Start; Fire 2] ++ repeat (Fire 3) 60) (boot tape true) in
  exists v, hd_error (volume_writes 2 (log w)) = Some v /\
            (0 <= v /\ v < 0.8)%Q.
Proof.
  eexists. split; [vm_compute; reflexivity|].
  apply (volume_stays_below_0_8
           [0.5%Q; 0.25%Q; 0.999%Q; 0.2%Q; 0.3%Q; 0.4%Q] true
           ([Start; Fire 2] ++ repeat (Fire 3) 60) 2).
  - repeat constructor; vm_compute; congruence.
  - reflexivity.
  - vm_compute. right. left. reflexivity.
Defined.

(** * The controller: properties *)
Module ControllerFacts.

Import Controller.

Lemma lookup_forEach_id (ids : list string) (f : Element -> Element)
    (d : gmap string Element) (k : string) :
  NoDup ids ->
  forEach_id ids f d !! k =
  (if bool_decide (k ∈ ids) then f else id) <$> d !! k.
Proof.
  intros Hnd. revert d. induction Hnd as [|i ids Hni Hnd IH]; intros d.
  - simpl. now destruct (d !! k).
  - unfold forEach_id. simpl. fold (forEach_id ids f (alter f i d)).
    rewrite IH. destruct (decide (k = i)) as [->|Hne].
    + rewrite (bool_decide_eq_false_2 _ Hni).
      rewrite bool_decide_eq_true_2 by (apply elem_of_cons; now left).
      rewrite lookup_alter_eq. now destruct (d !! i).
    + rewrite lookup_alter_ne by congruence.
      destruct (decide (k ∈ ids)) as [Hin|Hnin].
      * rewrite !bool_decide_eq_true_2;
          [reflexivity | apply elem_of_cons; now right | assumption].
      * rewrite !bool_decide_eq_false_2; [reflexivity | | assumption].
        intros [?|?]%elem_of_cons; contradiction.
Qed.

Lemma NoDup_scenery_ids : NoDup scenery_ids.
Proof. apply (bool_decide_unpack _). vm_compute. exact I. Qed.

Lemma NoDup_panel_ids : NoDup panel_ids.
Proof. apply (bool_decide_unpack _). vm_compute. exact I. Qed.

(** toggleScenery, element by element. *)
Lemma toggleScenery_effect_aux (c : Comp) (p : Page) (k : string) :
  sceneryMode (fst (toggleScenery c p)) = negb (sceneryMode c) /\
  dom (snd (toggleScenery c p)) !! k =
    (if bool_decide (k ∈ scenery_ids)
     then with_visible (negb (sceneryMode (fst (toggleScenery c p))))
     else id) <$> dom p !! k /\
  emitted (snd (toggleScenery c p)) =
    (if sceneryMode (fst (toggleScenery c p))
     then Haptic 0.8 300 else Haptic 0.3 100) :: emitted p.
Proof.
  unfold toggleScenery.
  cbn [fst snd sceneryMode set_sceneryMode hand raycaster dom emit set_dom
       isLeftGripHeld emitted].
  split; [reflexivity|].
  split; [apply lookup_forEach_id, NoDup_scenery_ids|].
  now destruct (sceneryMode c).
Qed.

(** X10.  toggleScenery flips the mode of its own controller and gives
    each of the six listed elements that exists the visibility "not in
    scenery mode"; elements that are missing are skipped and not created,
    no other element and no other attribute is touched, and one haptic
    pulse is emitted, stronger and longer on entering (0.8, 300 ms) than on
    leaving (0.3, 100 ms). *)
Theorem toggleScenery_effect (c : Comp) (p : Page) (k : string) :
  let c' := fst (toggleScenery c p) in
  let p' := snd (toggleScenery c p) in
  sceneryMode c' = negb (sceneryMode c) /\
  hand c' = hand c /\ raycaster c' = raycaster c /\
  dom p' !! k =
    (if bool_decide (k ∈ scenery_ids)
     then with_visible (negb (sceneryMode c')) else id) <$> dom p !! k /\
  isLeftGripHeld p' = isLeftGripHeld p /\
  emitted p' =
    (if sceneryMode c' then Haptic 0.8 300 else Haptic 0.3 100) :: emitted p.
Proof.
  cbv zeta. unfold toggleScenery.
  cbn [fst snd sceneryMode set_sceneryMode hand raycaster dom emit set_dom
       isLeftGripHeld emitted].
  split; [reflexivity|]. split; [reflexivity|]. split; [reflexivity|].
  split; [apply lookup_forEach_id, NoDup_scenery_ids|].
  split; [reflexivity|]. now destruct (sceneryMode c).
Qed.

(** X11.  Entering and leaving scenery mode is not a round trip for the
    page: after two toggles the controller is in its old mode, but every
    listed element that exists is visible (when the mode was off before),
    also those that were hidden when scenery mode was entered. *)
Theorem toggleScenery_twice (c : Comp) (p : Page) (k : string) :
  let c1 := fst (toggleScenery c p) in
  let p1 := snd (toggleScenery c p) in
  let c2 := fst (toggleScenery c1 p1) in
  let p2 := snd (toggleScenery c1 p1) in
  c2 = c /\
  dom p2 !! k =
    (if bool_decide (k ∈ scenery_ids)
     then with_visible (negb (sceneryMode c)) else id) <$> dom p !! k /\
  isLeftGripHeld p2 = isLeftGripHeld p.
Proof.
  cbv zeta. unfold toggleScenery.
  cbn [fst snd sceneryMode set_sceneryMode hand raycaster dom emit set_dom
       isLeftGripHeld emitted].
  split; [|split; [|reflexivity]].
  - destruct c as [h m r]. unfold set_sceneryMode. simpl.
    now rewrite negb_involutive.
  - rewrite !(lookup_forEach_id _ _ _ _ NoDup_scenery_ids).
    rewrite !negb_involutive.
    destruct (bool_decide (k ∈ scenery_ids)), (dom p !! k); reflexivity.
Qed.

Lemma interactive_test h :
  existsb (String.eqb "interactive") (classList h) = true <-> interactive h.
Proof.
  unfold interactive. rewrite existsb_exists. split.
  - intros (x & Hin & E). apply String.eqb_eq in E. now subst.
  - intros Hin. exists "interactive"%string. split; [exact Hin|].
    apply String.eqb_refl.
Qed.

Lemma click_first_spec (hits : list Hit) (p : Page) :
  (Forall (fun h => ~ interactive h) hits /\ click_first hits p = p) \/
  (exists pre h post,
     hits = pre ++ h :: post /\
     Forall (fun h => ~ interactive h) pre /\ interactive h /\
     click_first hits p = emit (Haptic 0.5 50) (emit (Click (hit_id h)) p)).
Proof.
  induction hits as [|h hits IH]; cbn [click_first].
  - left. split; [apply Forall_nil; exact I | reflexivity].
  - destruct (existsb (String.eqb "interactive") (classList h)) eqn:E.
    + right. exists [], h, hits.
      split; [reflexivity|]. split; [apply Forall_nil; exact I|].
      split; [now apply interactive_test | reflexivity].
    + assert (Hn : ~ interactive h).
      { intros Hi. apply interactive_test in Hi. congruence. }
      destruct IH as [[Hall Hp] | (pre & h' & post & -> & Hpre & Hh & Hp)].
      * left. split; [now apply Forall_cons | exact Hp].
      * right. exists (h :: pre), h', post.
        split; [reflexivity|]. split; [now apply Forall_cons|].
        split; assumption.
Qed.

(** X12.  A trigger pull clicks at most one element: the first element the
    raycaster intersects that has the class 'interactive', followed by one
    haptic pulse (0.5, 50 ms); the elements after it are not looked at.
    With no such element, with no raycaster, or in scenery mode, nothing
    at all is emitted.  The controller and the page are otherwise left as
    they were. *)
Theorem onTriggerDown_clicks_first_interactive (c : Comp) (p : Page) :
  fst (onTriggerDown c p) = c /\
  dom (snd (onTriggerDown c p)) = dom p /\
  isLeftGripHeld (snd (onTriggerDown c p)) = isLeftGripHeld p /\
  (emitted (snd (onTriggerDown c p)) = emitted p /\
   (sceneryMode c = true \/ raycaster c = None \/
    exists hits, raycaster c = Some hits /\
                 Forall (fun h => ~ interactive h) hits)
   \/
   exists pre h post,
     sceneryMode c = false /\ raycaster c = Some (pre ++ h :: post) /\
     Forall (fun h => ~ interactive h) pre /\ interactive h /\
     emitted (snd (onTriggerDown c p)) =
       Haptic 0.5 50 :: Click (hit_id h) :: emitted p).
Proof.
  unfold onTriggerDown. destruct (sceneryMode c) eqn:Em.
  - simpl. repeat split. left. split; [reflexivity | now left].
  - destruct (raycaster c) as [hits|] eqn:Er.
    + simpl.
      destruct (click_first_spec hits p)
        as [[Hall Hp] | (pre & h & post & -> & Hpre & Hh & Hp)];
        rewrite Hp; repeat split.
      * left. split; [reflexivity|]. right. right. eauto.
      * right. exists pre, h, post. repeat split; assumption.
    + simpl. repeat split. left. split; [reflexivity|]. right. now left.
Qed.

Lemma Qabs_test_opp (x : Q) :
  Qle_bool (Qabs (- x)) 0.1 = Qle_bool (Qabs x) 0.1.
Proof.
  destruct (Qle_bool (Qabs x) 0.1) eqn:E.
  - apply Qle_bool_iff. apply Qle_bool_iff in E. now rewrite Qabs_opp.
  - destruct (Qle_bool (Qabs (- x)) 0.1) eqn:E'; [|reflexivity].
    apply Qle_bool_iff in E'. rewrite Qabs_opp in E'.
    apply Qle_bool_iff in E'. congruence.
Qed.

(** X13.  On the left controller a stick deflection x (the third axis of
    the pad) beyond the dead zone of 0.1 turns the rig by -0.03 x; within
    the dead zone the rotation stays.  In both cases the deflection
    touches nothing else: the other fields of the rig, every other
    element, the grip flag, what was emitted and the component are as
    before.  The opposite deflection turns the rig back: in exact
    arithmetic, after x and then -x the rig has its old rotation and the
    page is as it was (on doubles the sum can be one rounding error off,
    see [Binary64Facts.turn_back_drifts]). *)
Theorem onAxisMove_opposite_deflections_cancel
    (c : Comp) (p : Page) (a0 a1 b0 b1 x : Q) (rest rest' : list Q)
    (rig : Element) :
  hand c = "left"%string ->
  dom p !! "rig" = Some rig ->
  let r1 := onAxisMove (Some (a0 :: a1 :: x :: rest)) c p in
  let p1 := snd r1 in
  let r2 := onAxisMove (Some (b0 :: b1 :: (- x)%Q :: rest')) c p1 in
  let p2 := snd r2 in
  exists rig1 rig2,
    (fst r1 = c /\ dom p1 !! "rig" = Some rig1 /\
     rotation_y rig1 =
       (if Qle_bool (Qabs x) 0.1 then rotation_y rig
        else rotation_y rig - x * 0.03)%Q /\
     with_rotation_y (rotation_y rig) rig1 = rig /\
     (forall k, k <> "rig"%string -> dom p1 !! k = dom p !! k) /\
     isLeftGripHeld p1 = isLeftGripHeld p /\ emitted p1 = emitted p) /\
    (fst r2 = c /\ dom p2 !! "rig" = Some rig2 /\
     (rotation_y rig2 == rotation_y rig)%Q /\
     with_rotation_y (rotation_y rig) rig2 = rig /\
     (forall k, k <> "rig"%string -> dom p2 !! k = dom p !! k) /\
     isLeftGripHeld p2 = isLeftGripHeld p /\ emitted p2 = emitted p).
Proof.
  intros Hh Hr. cbv zeta. unfold onAxisMove. rewrite Hh.
  change (String.eqb "left" "left") with true.
  cbn [length Nat.ltb Nat.leb lookup list_lookup].
  rewrite Qabs_test_opp.
  destruct (Qle_bool (Qabs x) 0.1) eqn:E; cbn [negb fst snd dom set_dom].
  - exists rig, rig. rewrite Hr. destruct rig.
    split; (split; [reflexivity|]; split; [reflexivity|];
            split; [reflexivity|]; split; [reflexivity|];
            split; [reflexivity|]; split; reflexivity).
  - eexists. eexists. rewrite !lookup_alter_eq, Hr.
    cbn [fmap option_fmap option_map].
    split; (split; [reflexivity|]; split; [reflexivity|]).
    + cbn [rotation_y with_rotation_y]. split; [reflexivity|].
      split; [now destruct rig|]. split; [|split; reflexivity].
      intros k Hk. now rewrite lookup_alter_ne by congruence.
    + cbn [rotation_y with_rotation_y]. split; [ring|].
      split; [now destruct rig|]. split; [|split; reflexivity].
      intros k Hk. now rewrite !lookup_alter_ne by congruence.
Qed.

Lemma onAxisMove_opposite_deflections_cancel_witness :
  let c := mkComp "left" false None in
  let rig := mkElement true (mkVec3 0 0 0) None 1%Q (mkVec3 0 0 0) (mkVec3 0 0 1) in
  let p := mkPage {[ "rig"%string := rig ]} false [] in
  let p1 := snd (onAxisMove (Some [0; 0; 0.5; 0]%Q) c p) in
  let p2 := snd (onAxisMove (Some [0; 0; - 0.5; 0]%Q) c p1) in
  exists rig1 rig2,
    dom p1 !! "rig" = Some rig1 /\ dom p2 !! "rig" = Some rig2 /\
    rotation_y rig1 = (1 - 0.5 * 0.03)%Q /\ (rotation_y rig2 == 1)%Q /\
    isLeftGripHeld p1 = false.
Proof.
  intros c rig p.
  destruct (onAxisMove_opposite_deflections_cancel c p 0%Q 0%Q 0%Q 0%Q 0.5%Q
              [0%Q] [0%Q] rig eq_refl eq_refl)
    as (rig1 & rig2 & (_ & H1 & R1 & _ & _ & G1 & _) & (_ & H2 & R2 & _)).
  exists rig1, rig2. split; [exact H1|]. split; [exact H2|].
  split; [exact R1|]. split; [exact R2 | exact G1].
Defined.

(** The lookups recenterUI does after it has moved the panels see the
    visibility the page had before. *)
Lemma cards_hidden_placed (t q : Vec3) (d : gmap string Element) :
  cards_hidden (forEach_id panel_ids (place t q) d) = cards_hidden d.
Proof.
  unfold cards_hidden. rewrite !(lookup_forEach_id _ _ _ _ NoDup_panel_ids).
  change (bool_decide ("toggle-panel-btn"%string ∈ panel_ids)) with true.
  change (bool_decide ("control-panel"%string ∈ panel_ids)) with true.
  change (bool_decide ("help-card"%string ∈ panel_ids)) with true.
  change (bool_decide ("modules-card"%string ∈ panel_ids)) with true.
  destruct (d !! "toggle-panel-btn"), (d !! "control-panel"),
           (d !! "help-card"), (d !! "modules-card"); reflexivity.
Qed.

(** recenterUI when it acts, element by element. *)
Lemma recenterUI_lookup (normalize : Vec3 -> Vec3) (c : Comp) (p : Page)
    (camera : Element) (k : string) :
  sceneryMode c = false ->
  dom p !! "camera" = Some camera ->
  dom (snd (recenterUI normalize c p)) !! k =
    (fun el =>
       (if cards_hidden (dom p) && bool_decide (k = "toggle-panel-btn"%string)
        then with_visible true else id)
         ((if bool_decide (k ∈ panel_ids)
           then place (recenter_target normalize camera) (worldPosition camera)
           else id) el)) <$> dom p !! k /\
  emitted (snd (recenterUI normalize c p)) = Haptic 0.8 150 :: emitted p /\
  isLeftGripHeld (snd (recenterUI normalize c p)) = isLeftGripHeld p /\
  fst (recenterUI normalize c p) = c.
Proof.
  intros Hm Hc. unfold recenterUI. rewrite Hm, Hc. cbv zeta.
  fold (recenter_target normalize camera).
  set (t := recenter_target normalize camera).
  set (d1 := forEach_id panel_ids (place t (worldPosition camera)) (dom p)).
  assert (E : match d1 !! "toggle-panel-btn", d1 !! "control-panel",
                    d1 !! "help-card", d1 !! "modules-card" with
              | Some tp, Some cp, Some hc, Some mc =>
                  if negb (visible cp) && negb (visible hc) && negb (visible mc)
                  then alter (with_visible true) "toggle-panel-btn" d1
                  else d1
              | _, _, _, _ => d1
              end =
              if cards_hidden (dom p)
              then alter (with_visible true) "toggle-panel-btn" d1 else d1).
  { rewrite <- (cards_hidden_placed t (worldPosition camera) (dom p)).
    fold d1. unfold cards_hidden.
    destruct (d1 !! "toggle-panel-btn"), (d1 !! "control-panel"),
             (d1 !! "help-card"), (d1 !! "modules-card"); reflexivity. }
  rewrite E. cbn [fst snd dom emit set_dom emitted isLeftGripHeld].
  split; [|repeat split].
  assert (L1 : d1 !! k =
               (if bool_decide (k ∈ panel_ids)
                then place t (worldPosition camera) else id) <$> dom p !! k)
    by apply lookup_forEach_id, NoDup_panel_ids.
  destruct (cards_hidden (dom p)); cbn [andb].
  - destruct (decide (k = "toggle-panel-btn"%string)) as [->|Hne].
    + rewrite bool_decide_eq_true_2 by reflexivity.
      rewrite lookup_alter_eq, L1. now destruct (dom p !! "toggle-panel-btn").
    + rewrite bool_decide_eq_false_2 by assumption.
      rewrite lookup_alter_ne by congruence. rewrite L1.
      now destruct (dom p !! k).
  - rewrite L1. now destruct (dom p !! k).
Qed.

(** X14.  recenterUI does nothing at all, not even a haptic pulse, in
    scenery mode or when the page has no camera.  Otherwise it never hides
    anything: the only visibility it changes is that of the toggle-panel
    button, which it shows exactly when the button and the three cards
    exist and the three cards are all hidden. *)
Theorem recenterUI_visibility
    (normalize : Vec3 -> Vec3) (c : Comp) (p : Page) (k : string) :
  let p' := snd (recenterUI normalize c p) in
  (sceneryMode c = true \/ dom p !! "camera" = None ->
   recenterUI normalize c p = (c, p)) /\
  (sceneryMode c = false -> is_Some (dom p !! "camera") ->
   visible <$> dom p' !! k =
     (if cards_hidden (dom p) && bool_decide (k = "toggle-panel-btn"%string)
      then Some true else visible <$> dom p !! k) /\
   emitted p' = Haptic 0.8 150 :: emitted p).
Proof.
  cbv zeta. split.
  - intros [Hm|Hc]; unfold recenterUI.
    + now rewrite Hm.
    + rewrite Hc. now destruct (sceneryMode c).
  - intros Hm [camera Hc].
    destruct (recenterUI_lookup normalize c p camera k Hm Hc) as (L & E & _).
    split; [|exact E]. rewrite L.
    assert (Ht : cards_hidden (dom p) = true ->
                 is_Some (dom p !! "toggle-panel-btn")).
    { unfold cards_hidden. destruct (dom p !! "toggle-panel-btn");
        [now eexists | discriminate]. }
    destruct (cards_hidden (dom p)); cbn [andb].
    + destruct (decide (k = "toggle-panel-btn"%string)) as [->|Hne].
      * rewrite bool_decide_eq_true_2 by reflexivity.
        destruct (Ht eq_refl) as [tp ->]. reflexivity.
      * rewrite bool_decide_eq_false_2 by assumption.
        destruct (bool_decide (k ∈ panel_ids)), (dom p !! k); reflexivity.
    + destruct (bool_decide (k ∈ panel_ids)), (dom p !! k); reflexivity.
Qed.

Lemma recenterUI_visibility_witness :
  let el := mkElement false (mkVec3 0 0 0) None 0%Q (mkVec3 0 1.6 0) (mkVec3 0 0 1) in
  let d : gmap string Element :=
    <["camera"%string := el]> (<["toggle-panel-btn"%string := el]>
      (<["control-panel"%string := el]> (<["help-card"%string := el]>
        {[ "modules-card"%string := el ]}))) in
  let p := mkPage d false [] in
  let p' := snd (recenterUI (fun v => v) (mkComp "right" false None) p) in
  visible <$> dom p' !! "toggle-panel-btn" = Some true /\
  visible <$> dom p' !! "help-card" = Some false.
Proof.
  intros el d p. split.
  - refine (proj1 (proj2 (recenterUI_visibility (fun v => v)
              (mkComp "right" false None) p "toggle-panel-btn") eq_refl _)).
    now eexists.
  - refine (proj1 (proj2 (recenterUI_visibility (fun v => v)
              (mkComp "right" false None) p "help-card") eq_refl _)).
    now eexists.
Defined.

(** X15.  When recenterUI acts, each of the four panels that exists is put
    at one and the same point, at the height of the camera, and is turned
    to the position of the camera; elements outside the four (the camera
    and the rig among them) are not moved, and no element is created. *)
Theorem recenterUI_placement
    (normalize : Vec3 -> Vec3) (c : Comp) (p : Page) (camera : Element)
    (k : string) :
  sceneryMode c = false ->
  dom p !! "camera" = Some camera ->
  let p' := snd (recenterUI normalize c p) in
  (k ∈ panel_ids ->
   position <$> dom p' !! k =
     (fun _ => recenter_target normalize camera) <$> dom p !! k /\
   lookingAt <$> dom p' !! k =
     (fun _ => Some (worldPosition camera)) <$> dom p !! k) /\
  (k ∉ panel_ids -> dom p' !! k = dom p !! k) /\
  vy (recenter_target normalize camera) = vy (worldPosition camera).
Proof.
  intros Hm Hc. cbv zeta.
  destruct (recenterUI_lookup normalize c p camera k Hm Hc) as (L & _).
  rewrite L. split; [|split; [|reflexivity]].
  - intros Hin. rewrite (bool_decide_eq_true_2 _ Hin).
    destruct (cards_hidden (dom p) && bool_decide (k = "toggle-panel-btn"%string)),
             (dom p !! k); split; reflexivity.
  - intros Hnin. rewrite (bool_decide_eq_false_2 _ Hnin).
    assert (Hk : k <> "toggle-panel-btn"%string).
    { intros ->. apply Hnin. apply elem_of_cons. now left. }
    rewrite (bool_decide_eq_false_2 _ Hk), andb_false_r.
    now destruct (dom p !! k).
Qed.

Lemma recenterUI_placement_witness :
  let el := mkElement true (mkVec3 5 5 5) None 0%Q (mkVec3 0 1.6 0) (mkVec3 0 0 1) in
  let d : gmap string Element :=
    <["camera"%string := el]> {[ "help-card"%string := el ]} in
  let p := mkPage d false [] in
  let p' := snd (recenterUI (fun v => v) (mkComp "right" false None) p) in
  position <$> dom p' !! "help-card" =
    Some (recenter_target (fun v => v) el) /\
  dom p' !! "camera" = Some el.
Proof.
  intros el d p.
  pose proof (recenterUI_placement (fun v => v) (mkComp "right" false None) p
                el) as H.
  split.
  - refine (proj1 (proj1 (H "help-card"%string eq_refl eq_refl) _)).
    apply (bool_decide_unpack _). vm_compute. exact I.
  - refine (proj1 (proj2 (H "camera"%string eq_refl eq_refl)) _).
    apply (bool_decide_unpack _). vm_compute. exact I.
Defined.

Lemma click_first_frame (hits : list Hit) (p : Page) :
  dom (click_first hits p) = dom p /\
  isLeftGripHeld (click_first hits p) = isLeftGripHeld p /\
  exists l, emitted (click_first hits p) = l ++ emitted p.
Proof.
  induction hits as [|h hits IH]; cbn [click_first].
  - split; [reflexivity|]. split; [reflexivity|]. now exists [].
  - destruct (existsb (String.eqb "interactive") (classList h)); [|exact IH].
    split; [reflexivity|]. split; [reflexivity|].
    now exists [Haptic 0.5 50; Click (hit_id h)].
Qed.

Lemma forEach_id_is_Some (ids : list string) (f : Element -> Element)
    (d : gmap string Element) (k : string) :
  is_Some (forEach_id ids f d !! k) <-> is_Some (d !! k).
Proof.
  revert d. induction ids as [|i ids IH]; intros d; [reflexivity|].
  unfold forEach_id. cbn [fold_left]. fold (forEach_id ids f (alter f i d)).
  rewrite IH. destruct (decide (k = i)) as [->|Hne].
  - rewrite lookup_alter_eq. apply fmap_is_Some.
  - now rewrite lookup_alter_ne by congruence.
Qed.

Lemma recenterUI_frame (normalize : Vec3 -> Vec3) (c : Comp) (p : Page)
    (k : string) :
  fst (recenterUI normalize c p) = c /\
  isLeftGripHeld (snd (recenterUI normalize c p)) = isLeftGripHeld p /\
  (is_Some (dom (snd (recenterUI normalize c p)) !! k) <->
   is_Some (dom p !! k)) /\
  exists l, emitted (snd (recenterUI normalize c p)) = l ++ emitted p.
Proof.
  destruct (sceneryMode c) eqn:Hm.
  - unfold recenterUI. rewrite Hm. repeat split; try tauto. now exists [].
  - destruct (dom p !! "camera") as [camera|] eqn:Hc.
    + destruct (recenterUI_lookup normalize c p camera k Hm Hc)
        as (L & E & G & F).
      split; [exact F|]. split; [exact G|]. split.
      * rewrite L. apply fmap_is_Some.
      * exists [Haptic 0.8 150]. exact E.
    + unfold recenterUI. rewrite Hm, Hc. repeat split; try tauto.
      now exists [].
Qed.

Lemma dispatch_same (i : Input) (c : Comp) (p : Page) (k : string)
    (q : Comp * Page) :
  q = (c, p) ->
  hand (fst q) = hand c /\ raycaster (fst q) = raycaster c /\
  (is_Some (dom (snd q) !! k) <-> is_Some (dom p !! k)) /\
  (exists l, emitted (snd q) = l ++ emitted p) /\
  (i <> xbuttondown -> sceneryMode (fst q) = sceneryMode c) /\
  (hand c <> "left"%string -> isLeftGripHeld (snd q) = isLeftGripHeld p) /\
  (i = abuttondown \/ i = bbuttondown \/ i = ybuttondown -> q = (c, p)).
Proof.
  intros ->. cbn [fst snd].
  split; [reflexivity|]. split; [reflexivity|]. split; [reflexivity|].
  split; [now exists []|]. split; [reflexivity|]. split; reflexivity.
Qed.

(** X16.  What no input to a controller ever does: it does not change the
    hand or the raycaster of the component, it creates and removes no
    element of the page, and it takes back nothing that was emitted.  The
    scenery mode changes on the X button only, the grip flag of the window
    on the left controller only, and the A, B and Y buttons, although
    listened to, do nothing. *)
Theorem dispatch_invariants
    (normalize : Vec3 -> Vec3) (i : Input) (c : Comp) (p : Page) (k : string) :
  let c' := fst (dispatch normalize i c p) in
  let p' := snd (dispatch normalize i c p) in
  hand c' = hand c /\ raycaster c' = raycaster c /\
  (is_Some (dom p' !! k) <-> is_Some (dom p !! k)) /\
  (exists l, emitted p' = l ++ emitted p) /\
  (i <> xbuttondown -> sceneryMode c' = sceneryMode c) /\
  (hand c <> "left"%string -> isLeftGripHeld p' = isLeftGripHeld p) /\
  (i = abuttondown \/ i = bbuttondown \/ i = ybuttondown ->
   dispatch normalize i c p = (c, p)).
Proof.
  cbv zeta. destruct i; cbn [dispatch].
  - (* triggerdown *)
    assert (T : onTriggerDown c p = (c, p) \/
                exists hits, onTriggerDown c p = (c, click_first hits p)).
    { unfold onTriggerDown. destruct (sceneryMode c); [now left|].
      destruct (raycaster c) as [hits|]; [right; now exists hits | now left]. }
    destruct T as [->|(hits & ->)]; [now apply dispatch_same|].
    cbn [fst snd]. destruct (click_first_frame hits p) as (D & G & E).
    rewrite D, G.
    split; [reflexivity|]. split; [reflexivity|]. split; [reflexivity|].
    split; [exact E|]. split; [reflexivity|]. split; [reflexivity|].
    intros [?|[?|?]]; discriminate.
  - (* gripdown *)
    unfold onGripDown.
    destruct (String.eqb (hand c) "left") eqn:Hl;
      destruct (String.eqb (hand c) "right") eqn:Hr.
    + apply String.eqb_eq in Hl. apply String.eqb_eq in Hr.
      rewrite Hl in Hr. discriminate.
    + cbn [fst snd dom emit set_grip emitted isLeftGripHeld].
      split; [reflexivity|]. split; [reflexivity|]. split; [reflexivity|].
      split; [now exists [Haptic 0.5 100]|]. split; [reflexivity|].
      split; [|intros [?|[?|?]]; discriminate].
      apply String.eqb_eq in Hl. congruence.
    + destruct (recenterUI_frame normalize c p k) as (F & G & D & E).
      rewrite F. split; [reflexivity|]. split; [reflexivity|].
      split; [exact D|]. split; [exact E|]. split; [reflexivity|].
      split; [intros _; exact G|intros [?|[?|?]]; discriminate].
    + now apply dispatch_same.
  - (* gripup *)
    unfold onGripUp. destruct (String.eqb (hand c) "left") eqn:Hl;
      [|now apply dispatch_same].
    cbn [fst snd dom set_grip emitted isLeftGripHeld].
    split; [reflexivity|]. split; [reflexivity|]. split; [reflexivity|].
    split; [now exists []|]. split; [reflexivity|].
    split; [|intros [?|[?|?]]; discriminate].
    apply String.eqb_eq in Hl. congruence.
  - (* abuttondown *)
    unfold onButtonDown.
    change (String.eqb "abuttondown" "xbuttondown") with false.
    now apply dispatch_same.
  - (* bbuttondown *)
    unfold onButtonDown.
    change (String.eqb "bbuttondown" "xbuttondown") with false.
    now apply dispatch_same.
  - (* xbuttondown *)
    unfold onButtonDown.
    change (String.eqb "xbuttondown" "xbuttondown") with true.
    unfold toggleScenery.
    cbn [fst snd sceneryMode set_sceneryMode hand raycaster dom emit set_dom
         isLeftGripHeld emitted].
    split; [reflexivity|]. split; [reflexivity|].
    split; [apply forEach_id_is_Some|].
    split; [eexists [_]; reflexivity|].
    split; [intros H; now destruct H|].
    split; [reflexivity|]. intros [?|[?|?]]; discriminate.
  - (* ybuttondown *)
    unfold onButtonDown.
    change (String.eqb "ybuttondown" "xbuttondown") with false.
    now apply dispatch_same.
  - (* axismove *)
    unfold onAxisMove.
    destruct (String.eqb (hand c) "left"); [|now apply dispatch_same].
    destruct axis as [ax|]; [|now apply dispatch_same].
    destruct (length ax <? 2); [now apply dispatch_same|]. cbv zeta.
    destruct (negb _); [|now apply dispatch_same].
    cbn [fst snd dom set_dom emitted isLeftGripHeld].
    split; [reflexivity|]. split; [reflexivity|]. split.
    { destruct (decide (k = "rig"%string)) as [->|Hne].
      - rewrite lookup_alter_eq. apply fmap_is_Some.
      - now rewrite lookup_alter_ne by congruence. }
    split; [now exists []|]. split; [reflexivity|]. split; [reflexivity|].
    intros [?|[?|?]]; discriminate.
Qed.

Lemma dispatch_invariants_witness :
  let c := mkComp "right" false None in
  let el := mkElement true (mkVec3 0 0 0) None 0%Q (mkVec3 0 1.6 0) (mkVec3 0 0 1) in
  let p := mkPage {[ "camera"%string := el ]} false [] in
  sceneryMode (fst (dispatch (fun v => v) gripdown c p)) = false /\
  isLeftGripHeld (snd (dispatch (fun v => v) gripdown c p)) = false /\
  dispatch (fun v => v) ybuttondown c p = (c, p).
Proof.
  intros c el p.
  pose proof (dispatch_invariants (fun v => v) gripdown c p "camera"%string)
    as (_ & _ & _ & _ & M & G & _).
  pose proof (dispatch_invariants (fun v => v) ybuttondown c p "camera"%string)
    as (_ & _ & _ & _ & _ & _ & B).
  split; [apply M; discriminate|].
  split; [apply G; discriminate|].
  apply B. right. right. reflexivity.
Defined.

(** X17.  The scenery mode is a field of each controller, not of the page.
    When the left controller enters scenery mode, the six elements are
    hidden and the trigger and recenterUI of the left controller do
    nothing; the right controller is still out of scenery mode, so its grip
    recentres the hidden panels and, the three cards being hidden, makes
    the toggle-panel button visible again while the cards stay hidden. *)
Theorem scenery_mode_is_per_controller
    (normalize : Vec3 -> Vec3) (l r : Comp) (p : Page) (camera : Element) :
  hand r = "right"%string ->
  sceneryMode l = false -> sceneryMode r = false ->
  dom p !! "camera" = Some camera ->
  Forall (fun k => is_Some (dom p !! k)) panel_ids ->
  let l1 := fst (onButtonDown "xbuttondown" l p) in
  let p1 := snd (onButtonDown "xbuttondown" l p) in
  let p2 := snd (onGripDown normalize r p1) in
  sceneryMode l1 = true /\
  Forall (fun k => visible <$> dom p1 !! k = Some false) panel_ids /\
  onTriggerDown l1 p1 = (l1, p1) /\
  recenterUI normalize l1 p1 = (l1, p1) /\
  visible <$> dom p2 !! "toggle-panel-btn" = Some true /\
  Forall (fun k => visible <$> dom p2 !! k = Some false)
         ["control-panel"; "help-card"; "modules-card"]%string.
Proof.
  intros Hr Hl Hrm Hc Hex. cbv zeta.
  unfold onButtonDown. change (String.eqb "xbuttondown" "xbuttondown") with true.
  pose proof (fun k => toggleScenery_effect_aux l p k) as T.
  set (l1 := fst (toggleScenery l p)) in *.
  set (p1 := snd (toggleScenery l p)) in *.
  assert (M : sceneryMode l1 = true) by (destruct (T ""%string) as (-> & _); now rewrite Hl).
  assert (V : forall k, k ∈ scenery_ids -> is_Some (dom p !! k) ->
                        visible <$> dom p1 !! k = Some false).
  { intros k Hk [el He]. destruct (T k) as (_ & -> & _).
    rewrite (bool_decide_eq_true_2 _ Hk), He, M. reflexivity. }
  assert (C1 : dom p1 !! "camera" = Some camera).
  { destruct (T "camera"%string) as (_ & -> & _). rewrite Hc. reflexivity. }
  apply Forall_cons in Hex as [Htp Hex].
  apply Forall_cons in Hex as [Hcp Hex].
  apply Forall_cons in Hex as [Hhc Hex].
  apply Forall_cons in Hex as [Hmc _].
  assert (Vtp := V "toggle-panel-btn"%string
                   ltac:(apply (bool_decide_unpack _); vm_compute; exact I) Htp).
  assert (Vcp := V "control-panel"%string
                   ltac:(apply (bool_decide_unpack _); vm_compute; exact I) Hcp).
  assert (Vhc := V "help-card"%string
                   ltac:(apply (bool_decide_unpack _); vm_compute; exact I) Hhc).
  assert (Vmc := V "modules-card"%string
                   ltac:(apply (bool_decide_unpack _); vm_compute; exact I) Hmc).
  assert (CH : cards_hidden (dom p1) = true).
  { unfold cards_hidden.
    destruct (dom p1 !! "toggle-panel-btn") as [tp|]; [|discriminate].
    destruct (dom p1 !! "control-panel") as [cp|]; [|discriminate].
    destruct (dom p1 !! "help-card") as [hc|]; [|discriminate].
    destruct (dom p1 !! "modules-card") as [mc|]; [|discriminate].
    cbn in Vcp, Vhc, Vmc. injection Vcp as ->. injection Vhc as ->.
    injection Vmc as ->. reflexivity. }
  split; [exact M|]. split.
  { apply Forall_cons. split; [exact Vtp|].
    apply Forall_cons. split; [exact Vcp|].
    apply Forall_cons. split; [exact Vhc|].
    apply Forall_cons. split; [exact Vmc|]. apply Forall_nil. exact I. }
  split; [unfold onTriggerDown; now rewrite M|].
  split; [unfold recenterUI; now rewrite M|].
  unfold onGripDown. rewrite Hr.
  change (String.eqb "right" "left") with false.
  change (String.eqb "right" "right") with true.
  assert (R : forall k,
            visible <$> dom (snd (recenterUI normalize r p1)) !! k =
            (if bool_decide (k = "toggle-panel-btn"%string)
             then Some true else visible <$> dom p1 !! k)).
  { intros k.
    destruct (recenterUI_lookup normalize r p1 camera k Hrm C1) as (L & _).
    rewrite L, CH. cbn [andb].
    destruct (decide (k = "toggle-panel-btn"%string)) as [->|Hne].
    - rewrite bool_decide_eq_true_2 by reflexivity.
      destruct (dom p1 !! "toggle-panel-btn"); [reflexivity|discriminate].
    - rewrite (bool_decide_eq_false_2 _ Hne).
      destruct (bool_decide (k ∈ panel_ids)), (dom p1 !! k); reflexivity. }
  split; [now rewrite R|].
  apply Forall_cons. split; [now rewrite R|].
  apply Forall_cons. split; [now rewrite R|].
  apply Forall_cons. split; [now rewrite R|]. apply Forall_nil. exact I.
Qed.

Lemma scenery_mode_is_per_controller_witness :
  let el := mkElement true (mkVec3 0 0 0) None 0%Q (mkVec3 0 1.6 0) (mkVec3 0 0 1) in
  let d : gmap string Element :=
    <["camera"%string := el]> (<["toggle-panel-btn"%string := el]>
      (<["control-panel"%string := el]> (<["help-card"%string := el]>
        {[ "modules-card"%string := el ]}))) in
  let p := mkPage d false [] in
  let l := mkComp "left" false None in
  let r := mkComp "right" false None in
  let p1 := snd (onButtonDown "xbuttondown" l p) in
  let p2 := snd (onGripDown (fun v => v) r p1) in
  visible <$> dom p1 !! "toggle-panel-btn" = Some false /\
  visible <$> dom p2 !! "toggle-panel-btn" = Some true.
Proof.
  intros el d p l r.
  assert (Hex : Forall (fun k => is_Some (dom p !! k)) panel_ids).
  { apply Forall_cons. split; [now eexists|].
    apply Forall_cons. split; [now eexists|].
    apply Forall_cons. split; [now eexists|].
    apply Forall_cons. split; [now eexists|]. apply Forall_nil. exact I. }
  destruct (scenery_mode_is_per_controller (fun v => v) l r p el
              eq_refl eq_refl eq_refl eq_refl Hex)
    as (_ & V1 & _ & _ & V2 & _).
  apply Forall_cons in V1 as [V1 _].
  split; [exact V1 | exact V2].
Defined.

End ControllerFacts.

(** * The numeric expressions, evaluated *)

Module Binary64Facts.

Import Binary64.
#[local] Set Warnings "-inexact-float".
Local Open Scope float_scope.

(** fade(h, 0.0, 0.8, 5000ms, cb) ends at exactly 0.8 on doubles too. *)
Example fade_to_0_8_is_exact : fade_volume 0 0.8 60 = 0.8.
Proof. vm_compute. reflexivity. Qed.

(** Without a final assignment of endVol the last step can miss it by a
    rounding error: a fade from 0 to 0.49 ends just below 0.49, and a
    fade-out from 0.49 to 0 ends just above 0. *)
Example fade_to_0_49_drifts :
  (fade_volume 0 0.49 60 =? 0.49) = false /\
  (fade_volume 0 0.49 60 <? 0.49) = true /\
  (0 <? fade_volume 0.49 0 60) = true.
Proof. vm_compute. repeat split. Qed.

(** The steps stay in the unit interval for huge arguments. *)
Example fade_volume_huge :
  fade_volume (-0x1p1023) 0x1p1023 1 = 1 /\
  fade_volume 0x1p1023 (-0x1p1023) 60 = 0.
Proof. vm_compute. repeat split. Qed.

(** A fade whose start or end volume is not finite can compute NaN, which
    passes through the clamp: with an infinite start volume every step is
    infinity minus infinity.  The browser refuses a volume that is not
    finite, so such a tick throws at the assignment, as the tick on a null
    element does, and never reaches the test of the step. *)
Example fade_volume_not_finite :
  is_nan (fade_volume infinity 0 1) = true /\
  is_nan (fade_volume infinity 0 60) = true /\
  is_nan (fade_volume nan 0.5 60) = true /\
  is_nan (fade_volume 0 nan 1) = true.
Proof. vm_compute. repeat split. Qed.

(** The bird delay at the two ends of the range of Math.random():
    0 and the largest double below 1. *)
Example bird_delay_ends :
  bird_delay 0 = 8000 /\
  (bird_delay 0x1.fffffffffffffp-1 <? 25000) = true.
Proof. vm_compute. repeat split. Qed.

(** The samples of a swell at the largest double below 1: the delay of
    the swell timer and the target volume stay below the ends 30000 and
    0.8 of their ranges, but the hold and the fade time are rounded up to
    the ends 18000 and 5000, which exact arithmetic excludes. *)
Example swell_sample_ends :
  (waves2_delay 0x1.fffffffffffffp-1 <? 30000) = true /\
  (swell_target 0x1.fffffffffffffp-1 <? 0.8) = true /\
  swell_hold 0x1.fffffffffffffp-1 = 18000 /\
  swell_fade 0x1.fffffffffffffp-1 = 5000.
Proof. vm_compute. repeat split. Qed.

(** Turning by x and then by -x restores the rotation of the rig in many
    cases, but not always: from 0.3, a full deflection and back ends one
    rounding error above 0.3. *)
Example turn_back_drifts :
  turn (turn 1 0.5) (-0.5) = 1 /\
  (turn (turn 0.3 1) (-1) =? 0.3) = false /\
  (0.3 <? turn (turn 0.3 1) (-1)) = true.
Proof. vm_compute. repeat split. Qed.

End Binary64Facts.
